(** * PABL: abductive revision search and its result cache

    A shallow embedding of [src/kb/kb.py] (class [KBBase]) and
    [src/utils/cache.py] (class [Cache], decorator [abl_cache]), and the
    properties of the revision search and of the memoizer that wraps it.
    [PrologKB], whose revisions come from an external Prolog solver, is not
    embedded.

    Python values are modelled by [pyval]: [None], integers, strings and
    (nested) lists; a [PList] stands for a list or for a tuple.  Floats and
    booleans are outside the value model; the tolerance [max_err], a float
    in the source, is a rational here.  The oracle [logic_forward] and the
    key function [key_func] are total functions on these values: they
    return, and what [key_func] returns can be hashed.  Exceptions raised by
    the embedded code itself are explicit: every operation that can raise
    returns a [res]. *)

From Stdlib Require Import QArith.
From stdpp Require Import gmap strings list fin_maps.

Close Scope Q_scope.
Open Scope Z_scope.

(** ** Python values *)

#[warnings="-register-all"]
Inductive pyval : Type :=
| PNone
| PInt (z : Z)
| PStr (s : string)
| PList (l : list pyval).

(** Structural induction that also covers the elements of a [PList]. *)
Definition pyval_rect' (P : pyval → Type) (Q : list pyval → Type)
    (HNone : P PNone) (HInt : ∀ z, P (PInt z)) (HStr : ∀ s, P (PStr s))
    (HList : ∀ l, Q l → P (PList l))
    (Hnil : Q []) (Hcons : ∀ v l, P v → Q l → Q (v :: l)) :
    ∀ v, P v :=
  fix go (v : pyval) : P v :=
    match v with
    | PNone => HNone
    | PInt z => HInt z
    | PStr s => HStr s
    | PList l =>
        HList l ((fix go_list (l : list pyval) : Q l :=
                    match l with
                    | [] => Hnil
                    | v :: l' => Hcons v l' (go v) (go_list l')
                    end) l)
    end.

(** Python's [==] on the modelled values. *)
Fixpoint py_eq (a b : pyval) {struct a} : bool :=
  match a, b with
  | PNone, PNone => true
  | PInt x, PInt y => bool_decide (x = y)
  | PStr s, PStr t => bool_decide (s = t)
  | PList l, PList m =>
      (fix eq_list (l m : list pyval) {struct l} : bool :=
         match l, m with
         | [], [] => true
         | u :: l', v :: m' => py_eq u v && eq_list l' m'
         | _, _ => false
         end) l m
  | _, _ => false
  end.

Fixpoint pyval_to_tree (v : pyval) : gen_tree (Z + string) :=
  match v with
  | PNone => GenNode 0 []
  | PInt z => GenLeaf (inl z)
  | PStr s => GenLeaf (inr s)
  | PList l => GenNode 1 (map pyval_to_tree l)
  end.

Fixpoint tree_to_pyval (t : gen_tree (Z + string)) : pyval :=
  match t with
  | GenLeaf (inl z) => PInt z
  | GenLeaf (inr s) => PStr s
  | GenNode O _ => PNone
  | GenNode (S _) ts => PList (map tree_to_pyval ts)
  end.

Definition tree_to_pyval_to_tree (v : pyval) :
    tree_to_pyval (pyval_to_tree v) = v.
Proof.
  revert v.
  refine (pyval_rect' (λ v, tree_to_pyval (pyval_to_tree v) = v)
            (λ l, map tree_to_pyval (map pyval_to_tree l) = l) _ _ _ _ _ _);
    simpl; try done.
  - intros l Hl. by rewrite Hl.
  - intros v l Hv Hl. by rewrite Hv, Hl.
Qed.

#[global] Instance pyval_eq_dec : EqDecision pyval.
Proof.
  intros a b.
  destruct (decide (pyval_to_tree a = pyval_to_tree b)) as [H|H].
  - left. rewrite <- (tree_to_pyval_to_tree a), <- (tree_to_pyval_to_tree b).
    by rewrite H.
  - right. intros ->. by apply H.
Defined.

#[global] Instance pyval_countable : Countable pyval :=
  inj_countable' pyval_to_tree tree_to_pyval tree_to_pyval_to_tree.

(** ** Exceptions *)

Inductive exc : Type :=
| TypeError
| IndexError
| KeyError
| UnboundLocalError.

Inductive res (A : Type) : Type :=
| Ok (a : A)
| Raise (e : exc).
Arguments Ok {A} a.
Arguments Raise {A} e.

#[global] Instance res_ret : MRet res := λ A a, Ok a.
#[global] Instance res_bind : MBind res := λ A B f m,
  match m with
  | Ok a => f a
  | Raise e => Raise e
  end.

(** ** [KBBase] *)

(** [logging.WARNING] and the other levels [print_log] accepts. *)
Inductive log_level : Type := DEBUG | INFO | WARNING | ERROR.

(** A concrete subclass of [KBBase]: what [inspect.getfullargspec] reports
    for its [logic_forward] (the names of the positional parameters, [self]
    included) and the oracle itself.  The oracle receives the candidate and,
    when the caller passes one, the example [x]. *)
Record KBClass : Type := {
  argspec_args : list string;
  class_logic_forward : list pyval → option pyval → pyval;
}.

(** The attributes of a [KBBase] instance.  [cache_size] is [Some n] for an
    [int] and [None] for a value of any other type. *)
Record KBBase : Type := {
  pseudo_label_list : list pyval;
  max_err : Q;
  use_cache : bool;
  key_func : pyval → pyval;
  cache_size : option Z;
  _num_args : Z;
  logic_forward : list pyval → option pyval → pyval;
}.

(** Modelled from the spec: [print_log] of [utils.logger] is not among the
    sources.  It emits [msg] at [level] on the logger named [logger]; here it
    returns the record it emits. *)
Definition print_log (msg : string) (logger : string) (level : log_level) :
    list (log_level * string) :=
  [(level, msg)].

(** [KBBase.__init__]; the second component is what was logged. *)
Definition __init__ (cls : KBClass) (pseudo_label_list : pyval) (max_err : Q)
    (use_cache : bool) (key_func : pyval → pyval) (cache_size : option Z) :
    res (KBBase * list (log_level * string)) :=
  match pseudo_label_list with
  | PList labels =>
      let _num_args := Z.of_nat (length (argspec_args cls)) - 1 in
      if bool_decide (_num_args = 2) && use_cache then
        Ok ({| pseudo_label_list := labels; max_err := max_err;
               use_cache := false; key_func := key_func;
               cache_size := cache_size; _num_args := _num_args;
               logic_forward := class_logic_forward cls |},
            print_log
              "The logic_forward function has 2 arguments, so the cache is disabled. "
              "current" WARNING)
      else
        Ok ({| pseudo_label_list := labels; max_err := max_err;
               use_cache := use_cache; key_func := key_func;
               cache_size := cache_size; _num_args := _num_args;
               logic_forward := class_logic_forward cls |},
            [])
  | _ => Raise TypeError
  end.

(** [KBBase._check_equal].  Of [isinstance(..., (int, float))] the model has
    the integers, [PInt]: floats are outside [pyval], so the tolerance
    [max_err] is only ever applied to the difference of two integers. *)
Definition _check_equal (self : KBBase) (reasoning_result y : pyval) : bool :=
  match reasoning_result with
  | PNone => false
  | _ =>
      match reasoning_result, y with
      | PInt r, PInt y' => Qle_bool (inject_Z (Z.abs (r - y'))) (max_err self)
      | _, _ => py_eq reasoning_result y
      end
  end.

(** [itertools.product(pool, repeat=r)], in the order Python yields. *)
Fixpoint product {A : Type} (pool : list A) (repeat : nat) : list (list A) :=
  match repeat with
  | O => [[]]
  | S r => flat_map (λ v, map (cons v) (product pool r)) pool
  end.

(** [itertools.combinations(pool, r)], in the order Python yields. *)
Fixpoint combinations {A : Type} (pool : list A) (r : nat) : list (list A) :=
  match r, pool with
  | O, _ => [[]]
  | S _, [] => []
  | S r', a :: pool' =>
      map (cons a) (combinations pool' r') ++ combinations pool' r
  end.

(** [range(n)] as Python integers. *)
Definition range (n : nat) : list Z := map Z.of_nat (seq 0 n).

(** [l[idx] = v] on a Python list: negative indices count from the end, an
    index outside [-len(l), len(l)) raises [IndexError]. *)
Definition list_setitem {A : Type} (l : list A) (idx : Z) (v : A) : res (list A) :=
  let n := Z.of_nat (length l) in
  if bool_decide (0 ≤ idx < n) then Ok (<[Z.to_nat idx := v]> l)
  else if bool_decide (- n ≤ idx < 0) then Ok (<[Z.to_nat (n + idx) := v]> l)
  else Raise IndexError.

(** The inner loop of [revise_at_idx]:
    [for i, idx in enumerate(revision_idx): candidate[idx] = c[i]]. *)
Fixpoint assign_at (candidate : list pyval) (revision_idx : list Z)
    (c : list pyval) : res (list pyval) :=
  match revision_idx with
  | [] => Ok candidate
  | idx :: revision_idx' =>
      match c with
      | [] => Raise IndexError
      | v :: c' =>
          candidate' ← list_setitem candidate idx v;
          assign_at candidate' revision_idx' c'
      end
  end.

(** [self.logic_forward(candidate, *(x,) if self._num_args == 2 else ())] *)
Definition call_logic_forward (self : KBBase) (candidate : list pyval)
    (x : pyval) : pyval :=
  if bool_decide (_num_args self = 2) then logic_forward self candidate (Some x)
  else logic_forward self candidate None.

Abbreviation abduced := (list (list pyval) * list pyval)%type.

(** The loop [for c in abduce_c] of [KBBase.revise_at_idx], started with the
    candidates and reasoning results collected so far. *)
Fixpoint revise_at_idx_loop (self : KBBase) (pseudo_label : list pyval)
    (y x : pyval) (revision_idx : list Z) (abduce_c : list (list pyval))
    (candidates : list (list pyval)) (reasoning_results : list pyval) :
    res abduced :=
  match abduce_c with
  | [] => Ok (candidates, reasoning_results)
  | c :: abduce_c' =>
      candidate ← assign_at pseudo_label revision_idx c;
      let reasoning_result := call_logic_forward self candidate x in
      if _check_equal self reasoning_result y then
        revise_at_idx_loop self pseudo_label y x revision_idx abduce_c'
          (candidates ++ [candidate]) (reasoning_results ++ [reasoning_result])
      else
        revise_at_idx_loop self pseudo_label y x revision_idx abduce_c'
          candidates reasoning_results
  end.

(** [KBBase.revise_at_idx] *)
Definition revise_at_idx (self : KBBase) (pseudo_label : list pyval)
    (y x : pyval) (revision_idx : list Z) : res abduced :=
  let abduce_c := product (pseudo_label_list self) (length revision_idx) in
  revise_at_idx_loop self pseudo_label y x revision_idx abduce_c [] [].

(** The loop [for revision_idx in revision_idx_list] of [KBBase._revision]. *)
Fixpoint _revision_loop (self : KBBase) (pseudo_label : list pyval)
    (y x : pyval) (revision_idx_list : list (list Z))
    (new_candidates : list (list pyval)) (new_reasoning_results : list pyval) :
    res abduced :=
  match revision_idx_list with
  | [] => Ok (new_candidates, new_reasoning_results)
  | revision_idx :: revision_idx_list' =>
      '(candidates, reasoning_results) ←
        revise_at_idx self pseudo_label y x revision_idx;
      _revision_loop self pseudo_label y x revision_idx_list'
        (new_candidates ++ candidates)
        (new_reasoning_results ++ reasoning_results)
  end.

(** [KBBase._revision] *)
Definition _revision (self : KBBase) (revision_num : nat)
    (pseudo_label : list pyval) (y x : pyval) : res abduced :=
  let revision_idx_list := combinations (range (length pseudo_label)) revision_num in
  _revision_loop self pseudo_label y x revision_idx_list [] [].

(** How the first loop of [_abduce_by_search] ends: by [break] (then
    [min_revision_num] is bound), by [return [], []], or by running out of
    levels, which leaves [min_revision_num] unbound. *)
Inductive first_loop_exit : Type :=
| Break (min_revision_num : nat) (candidates : list (list pyval))
    (reasoning_results : list pyval)
| Return (r : abduced)
| Exhausted (candidates : list (list pyval)) (reasoning_results : list pyval).

(** The loop [for revision_num in range(len(pseudo_label) + 1)]. *)
Fixpoint search_first_loop (self : KBBase) (pseudo_label : list pyval)
    (y x : pyval) (max_revision_num : Z) (levels : list nat)
    (candidates : list (list pyval)) (reasoning_results : list pyval) :
    res first_loop_exit :=
  match levels with
  | [] => Ok (Exhausted candidates reasoning_results)
  | revision_num :: levels' =>
      '(new_candidates, new_reasoning_results) ←
        _revision self revision_num pseudo_label y x;
      let candidates := candidates ++ new_candidates in
      let reasoning_results := reasoning_results ++ new_reasoning_results in
      if bool_decide (0 < length candidates)%nat then
        Ok (Break revision_num candidates reasoning_results)
      else if Z.of_nat revision_num >=? max_revision_num then
        Ok (Return ([], []))
      else
        search_first_loop self pseudo_label y x max_revision_num levels'
          candidates reasoning_results
  end.

(** The loop [for revision_num in range(min_revision_num + 1,
    min_revision_num + require_more_revision + 1)]. *)
Fixpoint search_second_loop (self : KBBase) (pseudo_label : list pyval)
    (y x : pyval) (max_revision_num : Z) (levels : list nat)
    (candidates : list (list pyval)) (reasoning_results : list pyval) :
    res abduced :=
  match levels with
  | [] => Ok (candidates, reasoning_results)
  | revision_num :: levels' =>
      if Z.of_nat revision_num >? max_revision_num then
        Ok (candidates, reasoning_results)
      else
        '(new_candidates, new_reasoning_results) ←
          _revision self revision_num pseudo_label y x;
        search_second_loop self pseudo_label y x max_revision_num levels'
          (candidates ++ new_candidates)
          (reasoning_results ++ new_reasoning_results)
  end.

(** The arguments of [_abduce_by_search] after [self]. *)
Record search_args : Type := {
  arg_pseudo_label : list pyval;
  arg_y : pyval;
  arg_x : pyval;
  arg_max_revision_num : Z;
  arg_require_more_revision : Z;
}.

(** The body of [KBBase._abduce_by_search], without the [abl_cache]
    decorator.  [range(a + 1, a + r + 1)] has [max r 0] elements, which is
    [seq (S a) (Z.to_nat r)]. *)
Definition _abduce_by_search_body (self : KBBase) (args : search_args) :
    res abduced :=
  let pseudo_label := arg_pseudo_label args in
  let y := arg_y args in
  let x := arg_x args in
  let max_revision_num := arg_max_revision_num args in
  let require_more_revision := arg_require_more_revision args in
  exit ← search_first_loop self pseudo_label y x max_revision_num
            (seq 0 (length pseudo_label + 1)) [] [];
  match exit with
  | Return r => Ok r
  | Exhausted _ _ => Raise UnboundLocalError
  | Break min_revision_num candidates reasoning_results =>
      search_second_loop self pseudo_label y x max_revision_num
        (seq (S min_revision_num) (Z.to_nat require_more_revision))
        candidates reasoning_results
  end.

(** ** [Cache] and [abl_cache] *)

(** [obj.key_func], for use where [Cache]'s own [key_func] hides it. *)
Abbreviation obj_key_func := key_func (only parsing).

Module Cache.

(** Python list objects are identified by their address; the links of the
    circular doubly linked list are the four-element lists
    [[PREV, NEXT, KEY, RESULT]] stored at these addresses. *)
Definition loc : Type := nat.

(** [(self.key_func(pred_pseudo_label), self.key_func(y), *res_args)] *)
Abbreviation cache_key := (pyval * pyval * (Z * Z))%type.

Section Cache.
Context {T : Type}.

Record link : Type := {
  PREV : loc;
  NEXT : loc;
  KEY : option cache_key;
  RESULT : option T;
}.

Definition store : Type := loc → link.

Definition store_set (h : store) (l : loc) (c : link) : store :=
  λ l', if decide (l' = l) then c else h l'.

Definition set_PREV (h : store) (l : loc) (v : loc) : store :=
  store_set h l {| PREV := v; NEXT := NEXT (h l); KEY := KEY (h l); RESULT := RESULT (h l) |}.
Definition set_NEXT (h : store) (l : loc) (v : loc) : store :=
  store_set h l {| PREV := PREV (h l); NEXT := v; KEY := KEY (h l); RESULT := RESULT (h l) |}.
Definition set_KEY (h : store) (l : loc) (v : option cache_key) : store :=
  store_set h l {| PREV := PREV (h l); NEXT := NEXT (h l); KEY := v; RESULT := RESULT (h l) |}.
Definition set_RESULT (h : store) (l : loc) (v : option T) : store :=
  store_set h l {| PREV := PREV (h l); NEXT := NEXT (h l); KEY := KEY (h l); RESULT := v |}.

(** The attributes of a [Cache] object (all but [func], which never changes),
    the store holding its links and the next free address. *)
Record Cache : Type := {
  has_init : bool;
  cache : bool;
  cache_dict : gmap cache_key loc;
  key_func : option (pyval → pyval);
  max_size : option Z;
  hits : nat;
  misses : nat;
  full : bool;
  root : loc;
  heap : store;
  next_loc : loc;
}.

Definition with_cache_dict (d : gmap cache_key loc) (self : Cache) : Cache :=
  {| has_init := has_init self; cache := cache self; cache_dict := d;
     key_func := key_func self; max_size := max_size self; hits := hits self;
     misses := misses self; full := full self; root := root self;
     heap := heap self; next_loc := next_loc self |}.
Definition with_hits (n : nat) (self : Cache) : Cache :=
  {| has_init := has_init self; cache := cache self; cache_dict := cache_dict self;
     key_func := key_func self; max_size := max_size self; hits := n;
     misses := misses self; full := full self; root := root self;
     heap := heap self; next_loc := next_loc self |}.
Definition with_misses (n : nat) (self : Cache) : Cache :=
  {| has_init := has_init self; cache := cache self; cache_dict := cache_dict self;
     key_func := key_func self; max_size := max_size self; hits := hits self;
     misses := n; full := full self; root := root self;
     heap := heap self; next_loc := next_loc self |}.
Definition with_full (b : bool) (self : Cache) : Cache :=
  {| has_init := has_init self; cache := cache self; cache_dict := cache_dict self;
     key_func := key_func self; max_size := max_size self; hits := hits self;
     misses := misses self; full := b; root := root self;
     heap := heap self; next_loc := next_loc self |}.
Definition with_root (r : loc) (self : Cache) : Cache :=
  {| has_init := has_init self; cache := cache self; cache_dict := cache_dict self;
     key_func := key_func self; max_size := max_size self; hits := hits self;
     misses := misses self; full := full self; root := r;
     heap := heap self; next_loc := next_loc self |}.
Definition with_heap (h : store) (self : Cache) : Cache :=
  {| has_init := has_init self; cache := cache self; cache_dict := cache_dict self;
     key_func := key_func self; max_size := max_size self; hits := hits self;
     misses := misses self; full := full self; root := root self;
     heap := h; next_loc := next_loc self |}.
Definition with_next_loc (n : loc) (self : Cache) : Cache :=
  {| has_init := has_init self; cache := cache self; cache_dict := cache_dict self;
     key_func := key_func self; max_size := max_size self; hits := hits self;
     misses := misses self; full := full self; root := root self;
     heap := heap self; next_loc := n |}.

(** [Cache.__init__]: the root of the list is a fresh list object pointing at
    itself, [self.root[:] = [self.root, self.root, None, None]]. *)
Definition __init__ : Cache :=
  {| has_init := false; cache := false; cache_dict := ∅; key_func := None;
     max_size := Some 0; hits := 0; misses := 0; full := false; root := 0%nat;
     heap := λ l, {| PREV := 0%nat; NEXT := 0%nat; KEY := None; RESULT := None |};
     next_loc := 1%nat |}.

(** [Cache.clear_cache] *)
Definition clear_cache (self : Cache) : Cache := with_cache_dict ∅ self.

(** [Cache.init_cache] *)
Definition init_cache (self : Cache) (obj : KBBase) : Cache :=
  if has_init self then self
  else
    let r := next_loc self in
    {| has_init := true; cache := true; cache_dict := ∅;
       key_func := Some (obj_key_func obj);
       max_size := cache_size obj; hits := 0; misses := 0; full := false;
       root := r;
       heap := store_set (heap self) r
                 {| PREV := r; NEXT := r; KEY := None; RESULT := None |};
       next_loc := S r |}.

Variable func : KBBase → search_args → res T.

(** [pred_pseudo_label, y, _x, *res_args = args] and
    [cache_key = (self.key_func(pred_pseudo_label), self.key_func(y), *res_args)] *)
Definition make_cache_key (self_key_func : pyval → pyval) (args : search_args) :
    cache_key :=
  (self_key_func (PList (arg_pseudo_label args)),
   self_key_func (arg_y args),
   (arg_max_revision_num args, arg_require_more_revision args)).

(** [Cache.get_from_dict].  A raised exception leaves the attributes as they
    are at that point. *)
Definition get_from_dict (self : Cache) (obj : KBBase) (args : search_args) :
    res (option T) * Cache :=
  match key_func self with
  | None => (Raise TypeError, self)
  | Some self_key_func =>
      let cache_key := make_cache_key self_key_func args in
      match cache_dict self !! cache_key with
      | Some link =>
          let h := heap self in
          let link_prev := PREV (h link) in
          let link_next := NEXT (h link) in
          let result := RESULT (h link) in
          let h := set_NEXT h link_prev link_next in
          let h := set_PREV h link_next link_prev in
          let last := PREV (h (root self)) in
          let h := set_NEXT h last link in
          let h := set_PREV h (root self) link in
          let h := set_PREV h link last in
          let h := set_NEXT h link (root self) in
          (Ok result, with_hits (hits self + 1) (with_heap h self))
      | None =>
          let self := with_misses (misses self + 1) self in
          match func obj args with
          | Raise e => (Raise e, self)
          | Ok result =>
              if full self then
                let oldroot := root self in
                let h := set_KEY (heap self) oldroot (Some cache_key) in
                let h := set_RESULT h oldroot (Some result) in
                let self := with_root (NEXT (h oldroot)) (with_heap h self) in
                let oldkey := KEY (h (root self)) in
                let h := set_KEY h (root self) None in
                let h := set_RESULT h (root self) None in
                let self := with_heap h self in
                match oldkey with
                | Some k =>
                    match cache_dict self !! k with
                    | Some _ =>
                        (Ok (Some result),
                         with_cache_dict
                           (<[cache_key := oldroot]> (delete k (cache_dict self)))
                           self)
                    | None => (Raise KeyError, self)
                    end
                | None => (Raise KeyError, self)
                end
              else
                let last := PREV (heap self (root self)) in
                let link := next_loc self in
                let h := store_set (heap self) link
                           {| PREV := last; NEXT := root self;
                              KEY := Some cache_key; RESULT := Some result |} in
                let h := set_NEXT h last link in
                let h := set_PREV h (root self) link in
                let self := with_cache_dict (<[cache_key := link]> (cache_dict self))
                              (with_next_loc (S link) (with_heap h self)) in
                match max_size self with
                | Some n =>
                    (Ok (Some result),
                     with_full (Z.of_nat (size (cache_dict self)) >=? n) self)
                | None => (Ok (Some result), self)
                end
          end
      end
  end.

(** The [wrapper] that [abl_cache()] puts around [func]; [cache_instance] is
    the one [Cache] object the decorator created for [func]. *)
Definition wrapper (obj : KBBase) (args : search_args) (cache_instance : Cache) :
    res (option T) * Cache :=
  if use_cache obj then
    get_from_dict (init_cache cache_instance obj) obj args
  else
    (match func obj args with Ok r => Ok (Some r) | Raise e => Raise e end,
     cache_instance).

End Cache.

Arguments link : clear implicits.
Arguments store : clear implicits.
Arguments Cache : clear implicits.

End Cache.

(** [KBBase._abduce_by_search], as decorated by [@abl_cache()]: the decorator
    runs once, when the class body is executed, so a single [Cache] serves
    every instance of the class. *)
Definition _abduce_by_search (self : KBBase) (args : search_args)
    (cache_instance : Cache.Cache abduced) :
    res (option abduced) * Cache.Cache abduced :=
  Cache.wrapper _abduce_by_search_body self args cache_instance.

(** [KBBase.abduce_candidates] *)
Definition abduce_candidates (self : KBBase) (args : search_args)
    (cache_instance : Cache.Cache abduced) :
    res (option abduced) * Cache.Cache abduced :=
  _abduce_by_search self args cache_instance.

(** ** Notions used to state the properties *)

(** The number of positions at which [c] differs from [pseudo_label]. *)
Definition diff_count (pseudo_label c : list pyval) : nat :=
  length (filter (λ p, p.1 ≠ p.2) (zip pseudo_label c)).

(** [candidate[j] = v] for every [(j, v)] of [zip js vs], on indices known to
    be in range. *)
Fixpoint overlay (candidate : list pyval) (js : list nat) (vs : list pyval) :
    list pyval :=
  match js, vs with
  | j :: js', v :: vs' => overlay (<[j := v]> candidate) js' vs'
  | _, _ => candidate
  end.

(** Whether the oracle's result on [candidate] agrees with [y]. *)
Definition consistent (self : KBBase) (y x : pyval) (candidate : list pyval) : bool :=
  _check_equal self (call_logic_forward self candidate x) y.

(** The candidates of one revision level, in the order [_revision] collects
    them. *)
Definition level_candidates (self : KBBase) (pseudo_label : list pyval)
    (y x : pyval) (revision_num : nat) : list (list pyval) :=
  flat_map
    (λ js, filter (λ c, consistent self y x c = true)
             (map (overlay pseudo_label js)
                (product (pseudo_label_list self) (length js))))
    (combinations (seq 0 (length pseudo_label)) revision_num).

(** The positions at which [c] differs from [pseudo_label], counted from
    [off], with the value [c] has there. *)
Fixpoint diffs (off : nat) (pseudo_label c : list pyval) : list (nat * pyval) :=
  match pseudo_label, c with
  | u :: pseudo_label', v :: c' =>
      if decide (u = v) then diffs (S off) pseudo_label' c'
      else (off, v) :: diffs (S off) pseudo_label' c'
  | _, _ => []
  end.

(** ** Example knowledge bases *)

(** An oracle that adds up the integers of the sequence and ignores [x]. *)
Definition py_sum (l : list pyval) : pyval :=
  PInt (foldr (λ v acc, match v with PInt z => z + acc | _ => acc end) 0 l).

(** An oracle that multiplies the integers of the sequence. *)
Definition py_prod (l : list pyval) : pyval :=
  PInt (foldr (λ v acc, match v with PInt z => z * acc | _ => acc end) 1 l).

(** [class AddKB(KBBase): def logic_forward(self, pseudo_label): ...] *)
Definition AddKB : KBClass :=
  {| argspec_args := ["self"; "pseudo_label"]%string;
     class_logic_forward := λ c _, py_sum c |}.

(** [class MulKB(KBBase): def logic_forward(self, pseudo_label): ...] *)
Definition MulKB : KBClass :=
  {| argspec_args := ["self"; "pseudo_label"]%string;
     class_logic_forward := λ c _, py_prod c |}.

(** [class AddXKB(KBBase): def logic_forward(self, pseudo_label, x): ...] *)
Definition AddXKB : KBClass :=
  {| argspec_args := ["self"; "pseudo_label"; "x"]%string;
     class_logic_forward := λ c _, py_sum c |}.

(** The default tolerance, [1e-10], and the default [cache_size]. *)
Definition default_max_err : Q := (1 # 10000000000)%Q.
Definition default_cache_size : option Z := Some 4096.

(** Modelled from the spec: [to_hashable] of [utils.utils], the default
    [key_func], is not among the sources.  It maps structurally equal inputs
    to identical keys and turns nested lists into tuples; [pyval] has one
    constructor for lists and tuples, so it is the identity there. *)
Definition to_hashable (v : pyval) : pyval := v.

(** The instance [AddKB(pseudo_label_list=[0, 1], cache_size=n)]. *)
Definition add_kb (n : option Z) : KBBase :=
  {| pseudo_label_list := [PInt 0; PInt 1]; max_err := default_max_err;
     use_cache := true; key_func := to_hashable; cache_size := n;
     _num_args := 1; logic_forward := λ c _, py_sum c |}.

(** The instance [AddKB(pseudo_label_list=[0, 1])]. *)
Definition add_kb_default : KBBase := add_kb default_cache_size.

(** The instance [MulKB(pseudo_label_list=[0, 1])]. *)
Definition mul_kb : KBBase :=
  {| pseudo_label_list := [PInt 0; PInt 1]; max_err := default_max_err;
     use_cache := true; key_func := to_hashable; cache_size := Some 4096;
     _num_args := 1; logic_forward := λ c _, py_prod c |}.

Definition mk_args (pseudo_label : list pyval) (y x : pyval)
    (max_revision_num require_more_revision : Z) : search_args :=
  {| arg_pseudo_label := pseudo_label; arg_y := y; arg_x := x;
     arg_max_revision_num := max_revision_num;
     arg_require_more_revision := require_more_revision |}.

(** What is known when the first loop of the search is left. *)
Definition first_loop_post (self : KBBase) pseudo_label y x (max_revision_num : Z)
    (levels : list nat) (exit : res first_loop_exit) : Prop :=
  let empty_below (j : nat) :=
    level_candidates self pseudo_label y x j = [] ∧ Z.of_nat j < max_revision_num in
  match exit with
  | Ok (Break k candidates reasoning_results) =>
      ∃ before after, levels = before ++ k :: after ∧ Forall empty_below before ∧
        candidates = level_candidates self pseudo_label y x k ∧
        reasoning_results = map (λ c, call_logic_forward self c x) candidates ∧
        candidates ≠ []
  | Ok (Return r) =>
      r = ([], []) ∧
      ∃ before k after, levels = before ++ k :: after ∧ Forall empty_below before ∧
        level_candidates self pseudo_label y x k = [] ∧ max_revision_num ≤ Z.of_nat k
  | Ok (Exhausted candidates reasoning_results) =>
      candidates = [] ∧ reasoning_results = [] ∧ Forall empty_below levels
  | Raise _ => False
  end.

(** ** Notions used to state the properties of the cache *)

(** What is done to the cache of a decorated method: a call of the method
    through an instance [obj], or [clear_cache]. *)
Inductive cache_op : Type :=
| Lookup (obj : KBBase) (args : search_args)
| Clear.

Definition run_op {T} (func : KBBase → search_args → res T)
    (c : Cache.Cache T) (op : cache_op) : Cache.Cache T :=
  match op with
  | Lookup obj args => (Cache.wrapper func obj args c).2
  | Clear => Cache.clear_cache c
  end.

Definition run_ops {T} (func : KBBase → search_args → res T)
    (ops : list cache_op) (c : Cache.Cache T) : Cache.Cache T :=
  foldl (run_op func) c ops.

(** [op] is not a call through an instance other than [obj]. *)
Definition op_by (obj : KBBase) (op : cache_op) : Prop :=
  match op with
  | Lookup obj' _ => obj' = obj
  | Clear => True
  end.

(** The last element of [a :: ls] and the first element of [ls ++ [b]]. *)
Fixpoint lastd (a : Cache.loc) (ls : list Cache.loc) : Cache.loc :=
  match ls with
  | [] => a
  | x :: ls' => lastd x ls'
  end.
Definition hdd (ls : list Cache.loc) (b : Cache.loc) : Cache.loc :=
  match ls with
  | [] => b
  | x :: _ => x
  end.

(** The links [ls] lead from [a] to [b]: each [NEXT] is the following
    element and each [PREV] the preceding one. *)
Fixpoint chain {T} (h : Cache.store T) (a : Cache.loc) (ls : list Cache.loc)
    (b : Cache.loc) : Prop :=
  match ls with
  | [] => Cache.NEXT (h a) = b ∧ Cache.PREV (h b) = a
  | l :: ls' => Cache.NEXT (h a) = l ∧ Cache.PREV (h l) = a ∧ chain h l ls' b
  end.

(** The representation invariant of an initialised cache on which
    [clear_cache] has not been called: the root and the links [ls], oldest
    first, form a circular doubly linked list, the dictionary binds the key
    of each link of [ls] to that link and nothing else, and each link holds a
    result that [stored] accepts for its key. *)
Record lru_inv {T} (stored : Cache.cache_key → T → Prop) (c : Cache.Cache T)
    (ls : list Cache.loc) : Prop := {
  inv_nodup : NoDup (Cache.root c :: ls);
  inv_chain : chain (Cache.heap c) (Cache.root c) ls (Cache.root c);
  inv_fresh : Forall (λ l, (l < Cache.next_loc c)%nat) (Cache.root c :: ls);
  inv_dict_ls : ∀ k l, Cache.cache_dict c !! k = Some l →
    l ∈ ls ∧ Cache.KEY (Cache.heap c l) = Some k ∧
    ∃ r, Cache.RESULT (Cache.heap c l) = Some r ∧ stored k r;
  inv_ls_dict : ∀ l, l ∈ ls →
    ∃ k, Cache.KEY (Cache.heap c l) = Some k ∧ Cache.cache_dict c !! k = Some l;
  inv_full : Cache.full c = true → ls ≠ [];
}.

(** The attributes that a lookup never changes. *)
Definition same_config {T} (c c' : Cache.Cache T) : Prop :=
  Cache.key_func c' = Cache.key_func c ∧ Cache.max_size c' = Cache.max_size c ∧
  Cache.has_init c' = Cache.has_init c.

(** The state of the cache once [init_cache] has bound it to [obj]. *)
Definition post_init {T} (stored : Cache.cache_key → T → Prop) (obj : KBBase)
    (c : Cache.Cache T) : Prop :=
  Cache.has_init c = true ∧ Cache.key_func c = Some (key_func obj) ∧
  Cache.max_size c = cache_size obj ∧ ∃ ls, lru_inv stored c ls.

(** [r] is what [func] returns, through [obj], for every call with key [k]. *)
Definition stored_for {T} (func : KBBase → search_args → res T) (obj : KBBase)
    (k : Cache.cache_key) (r : T) : Prop :=
  ∀ args, Cache.make_cache_key (key_func obj) args = k → func obj args = Ok r.

(** What a call returns when [obj.use_cache] is off. *)
Definition uncached {T} (func : KBBase → search_args → res T) (obj : KBBase)
    (args : search_args) : res (option T) :=
  match func obj args with
  | Ok r => Ok (Some r)
  | Raise e => Raise e
  end.

(** The bound on the number of entries for capacity [n], with room for one
    more entry as long as [full] is off. *)
Definition size_ok {T} (n : Z) (c : Cache.Cache T) : Prop :=
  Z.of_nat (size (Cache.cache_dict c)) ≤ Z.max n 1 ∧
  (Cache.full c = false → Z.of_nat (size (Cache.cache_dict c)) < Z.max n 1).

(** The bound with the capacity the cache is bound to, when it is an [int]. *)
Definition size_inv {T} (c : Cache.Cache T) : Prop :=
  match Cache.max_size c with
  | Some n => size_ok n c
  | None => True
  end.

(** What holds of a cache in every state, also after [clear_cache] and after
    a lookup that raised: the links at allocated addresses point to allocated
    addresses, and each entry of the dictionary is bound to a link other than
    the root that holds the entry's key and a result that [stored] accepts
    for it. *)
Definition wk_inv {T} (stored : Cache.cache_key → T → Prop) (c : Cache.Cache T) : Prop :=
  (Cache.root c < Cache.next_loc c)%nat ∧
  (∀ l, (l < Cache.next_loc c)%nat →
     (Cache.PREV (Cache.heap c l) < Cache.next_loc c)%nat ∧
     (Cache.NEXT (Cache.heap c l) < Cache.next_loc c)%nat) ∧
  ∀ k l, Cache.cache_dict c !! k = Some l →
    l ≠ Cache.root c ∧ (l < Cache.next_loc c)%nat ∧
    Cache.KEY (Cache.heap c l) = Some k ∧
    ∃ r, Cache.RESULT (Cache.heap c l) = Some r ∧ stored k r.

(** The states the cache of [func] goes through when only [obj] uses it. *)
Definition served {T} (func : KBBase → search_args → res T) (obj : KBBase)
    (c : Cache.Cache T) : Prop :=
  c = Cache.__init__ ∨
  (Cache.has_init c = true ∧ Cache.key_func c = Some (key_func obj) ∧
   wk_inv (stored_for func obj) c).

(** [AddKB(pseudo_label_list=[0, 1], key_func=lambda v: None)]: a key
    function that maps every value to the same key. *)
Definition add_kb_const_key : KBBase :=
  {| pseudo_label_list := [PInt 0; PInt 1]; max_err := default_max_err;
     use_cache := true; key_func := λ _, PNone; cache_size := Some 4096;
     _num_args := 1; logic_forward := λ c _, py_sum c |}.

(** ** Notions used to state further properties of the search *)

(** The number of ways to choose [k] of [n] positions. *)
Fixpoint binom (n k : nat) : nat :=
  match k, n with
  | O, _ => 1
  | S _, O => 0
  | S k', S n' => (binom n' k' + binom n' k)%nat
  end.

(** [idx] is a valid index of a Python list of length [n]. *)
Definition index_in_range (n : nat) (idx : Z) : Prop :=
  - Z.of_nat n ≤ idx < Z.of_nat n.

(** How many levels the search explores from [min_k] on: [min_k] itself and
    the following [require_more_revision] levels, as far as they do not
    exceed [max_revision_num]. *)
Definition explored_levels (min_k : nat) (max_revision_num require_more_revision : Z) :
    list nat :=
  seq min_k
    (S (Nat.min (Z.to_nat require_more_revision)
          (Z.to_nat (max_revision_num - Z.of_nat min_k)))).

(** The first revision level, from 0 to [len(pseudo_label)], at which
    [_revision] finds a candidate. *)
Definition first_level (self : KBBase) (pseudo_label : list pyval) (y x : pyval) :
    option nat :=
  find (λ k, bool_decide (0 < length (level_candidates self pseudo_label y x k))%nat)
    (seq 0 (length pseudo_label + 1)).

(** What the search comes to.  When a first level [min_k] with a candidate
    exists and is within the bound (level 0 always is), the candidates of the
    explored levels, in order; when it is beyond the bound, or no level has a
    candidate and the bound is within the length, nothing; otherwise the
    first loop runs out of levels and [min_revision_num] is read unbound. *)
Definition search_result (self : KBBase) (pseudo_label : list pyval) (y x : pyval)
    (max_revision_num require_more_revision : Z) : res abduced :=
  match first_level self pseudo_label y x with
  | Some min_k =>
      if bool_decide (Z.of_nat min_k ≤ Z.max max_revision_num 0) then
        let candidates :=
          flat_map (level_candidates self pseudo_label y x)
            (explored_levels min_k max_revision_num require_more_revision) in
        Ok (candidates, map (λ c, call_logic_forward self c x) candidates)
      else Ok ([], [])
  | None =>
      if bool_decide (Z.of_nat (length pseudo_label) < max_revision_num) then
        Raise UnboundLocalError
      else Ok ([], [])
  end.

(** [c] is [pseudo_label] with the values at some positions replaced by
    values of the label space. *)
Definition revision_of (self : KBBase) (pseudo_label c : list pyval) : Prop :=
  Forall2 (λ u v, u = v ∨ v ∈ pseudo_label_list self) pseudo_label c.

(** ** An LRU cache as a list of entries *)

(** The result stored for [k] in the entries [es]. *)
Fixpoint lru_find {T} (k : Cache.cache_key) (es : list (Cache.cache_key * T)) :
    option T :=
  match es with
  | [] => None
  | (k', r) :: es' => if decide (k' = k) then Some r else lru_find k es'
  end.

(** One lookup in a cache kept as the list of its entries, least recently
    used first, and the flag [full]: a hit moves the entry to the end; a
    miss whose computation returns adds the new entry at the end, in place
    of the first entry when the cache is full; a miss whose computation
    raises changes nothing. *)
Definition lru_lookup {T} (max_size : option Z) (k : Cache.cache_key) (computed : res T)
    (s : list (Cache.cache_key * T) * bool) :
    res (option T) * (list (Cache.cache_key * T) * bool) :=
  let '(es, full) := s in
  match lru_find k es with
  | Some r => (Ok (Some r), (filter (λ e, e.1 ≠ k) es ++ [(k, r)], full))
  | None =>
      match computed with
      | Raise e => (Raise e, (es, full))
      | Ok r =>
          if full then (Ok (Some r), (tail es ++ [(k, r)], true))
          else
            (Ok (Some r),
             (es ++ [(k, r)],
              match max_size with
              | Some n => Z.of_nat (length es + 1) >=? n
              | None => false
              end))
      end
  end.

(** The entries and the flag after the calls [argss], made through [obj] on
    a new cache. *)
Definition lru_run {T} (func : KBBase → search_args → res T) (obj : KBBase)
    (argss : list search_args) : list (Cache.cache_key * T) * bool :=
  foldl (λ s a, (lru_lookup (cache_size obj) (Cache.make_cache_key (key_func obj) a)
                   (func obj a) s).2)
    ([], false) argss.

(** The links of the cache [c], from the oldest to the newest, hold the
    entries [es]. *)
Definition lru_repr {T} (c : Cache.Cache T) (es : list (Cache.cache_key * T)) : Prop :=
  ∃ ls, lru_inv (λ _ _, True) c ls ∧
    Forall2 (λ l e, Cache.KEY (Cache.heap c l) = Some e.1 ∧
                    Cache.RESULT (Cache.heap c l) = Some e.2) ls es.

(** Whether [op] is a call that goes through the cache. *)
Definition is_cached (op : cache_op) : bool :=
  match op with
  | Lookup obj _ => use_cache obj
  | Clear => false
  end.

(** The number of calls among [ops] that go through the cache. *)
Definition cached_calls (ops : list cache_op) : nat :=
  length (filter (λ op, is_cached op = true) ops).

(** What holds of a cache without capacity as long as only [obj] uses it. *)
Definition never_full {T} (func : KBBase → search_args → res T) (obj : KBBase)
    (c : Cache.Cache T) : Prop :=
  served func obj c ∧ Cache.full c = false ∧
  (Cache.has_init c = true → Cache.max_size c = None).

(** * Properties *)

(** ** Values *)

Lemma py_eq_spec (a b : pyval) : py_eq a b = true ↔ a = b.
Proof.
  revert a b.
  refine (pyval_rect' (λ a, ∀ b, py_eq a b = true ↔ a = b)
            (λ l, ∀ m, py_eq (PList l) (PList m) = true ↔ l = m) _ _ _ _ _ _).
  - intros []; simpl; split; congruence.
  - intros z []; simpl; rewrite ?bool_decide_eq_true; split; congruence.
  - intros s []; simpl; rewrite ?bool_decide_eq_true; split; congruence.
  - intros l IH []; try (simpl; split; congruence).
    rewrite IH. split; congruence.
  - intros []; simpl; split; congruence.
  - intros v l IHv IHl [|w m]; [simpl; split; congruence|].
    change (py_eq (PList (v :: l)) (PList (w :: m)))
      with (py_eq v w && py_eq (PList l) (PList m)).
    rewrite andb_true_iff, IHv, IHl. split; [intros [-> ->]; done | by inversion 1].
Qed.

(** ** The error monad *)

Lemma res_bind_Ok {A B} (f : A → res B) (m : res A) (b : B) :
  m ≫= f = Ok b ↔ ∃ a, m = Ok a ∧ f a = Ok b.
Proof.
  destruct m; simpl; split;
    [eauto | intros (? & [= ->] & ?); done | done | intros (? & ? & ?); done].
Qed.

(** ** Enumerations *)

Lemma elem_of_product {A} (pool : list A) (r : nat) (vs : list A) :
  vs ∈ product pool r ↔ length vs = r ∧ Forall (λ v, v ∈ pool) vs.
Proof.
  revert vs. induction r as [|r IH]; intros vs; simpl.
  - rewrite list_elem_of_singleton. split.
    + intros ->. done.
    + intros [Hl _]. by destruct vs.
  - rewrite list_elem_of_In, in_flat_map. split.
    + intros (v & Hv & Hin). apply list_elem_of_In, list_elem_of_fmap in Hin as (ws & -> & Hws).
      apply IH in Hws as [<- Hall]. split; [done|]. constructor; [by apply list_elem_of_In | done].
    + intros [Hl Hall]. destruct vs as [|v ws]; [done|].
      inversion Hall; subst. exists v. split; [by apply list_elem_of_In|].
      apply list_elem_of_In, list_elem_of_fmap. exists ws. split; [done|].
      apply IH. split; [by inversion Hl | done].
Qed.

Lemma combinations_map {A B} (f : A → B) (pool : list A) (r : nat) :
  combinations (map f pool) r = map (map f) (combinations pool r).
Proof.
  revert r. induction pool as [|a pool IH]; intros [|r]; simpl; try done.
  rewrite !IH, map_app, !map_map. done.
Qed.

Lemma combinations_length {A} (pool : list A) (r : nat) (js : list A) :
  js ∈ combinations pool r → length js = r ∧ Forall (λ j, j ∈ pool) js.
Proof.
  revert r js. induction pool as [|a pool IH]; intros [|r] js; simpl.
  - rewrite list_elem_of_singleton. by intros ->.
  - by intros ?%elem_of_nil.
  - rewrite list_elem_of_singleton. by intros ->.
  - rewrite elem_of_app, list_elem_of_fmap. intros [(ks & -> & Hks)|Hjs].
    + apply IH in Hks as [<- Hall]. split; [done|].
      constructor; [left|]. eapply Forall_impl; [done|]. intros; by right.
    + apply IH in Hjs as [<- Hall]. split; [done|].
      eapply Forall_impl; [done|]. intros; by right.
Qed.

(** ** The revision search *)

Lemma list_setitem_nat {A} (l : list A) (j : nat) (v : A) :
  (j < length l)%nat → list_setitem l (Z.of_nat j) v = Ok (<[j := v]> l).
Proof.
  intros Hj. unfold list_setitem.
  rewrite bool_decide_eq_true_2 by lia. by rewrite Nat2Z.id.
Qed.

Lemma list_setitem_Ok {A} (l l' : list A) (idx : Z) (v : A) :
  list_setitem l idx v = Ok l' → ∃ j : nat, (j < length l)%nat ∧ l' = <[j := v]> l.
Proof.
  unfold list_setitem. repeat case_bool_decide; intros [= <-].
  - exists (Z.to_nat idx). split; [lia | done].
  - exists (Z.to_nat (Z.of_nat (length l) + idx)). split; [lia | done].
Qed.

Lemma overlay_length (candidate : list pyval) js vs :
  length (overlay candidate js vs) = length candidate.
Proof.
  revert candidate vs. induction js as [|j js IH]; intros candidate [|v vs]; simpl; try done.
  by rewrite IH, length_insert.
Qed.

Lemma assign_at_overlay (candidate : list pyval) (js : list nat) (vs : list pyval) :
  Forall (λ j, (j < length candidate)%nat) js → length vs = length js →
  assign_at candidate (map Z.of_nat js) vs = Ok (overlay candidate js vs).
Proof.
  revert candidate vs. induction js as [|j js IH]; intros candidate vs Hjs Hlen.
  - by destruct vs.
  - destruct vs as [|v vs]; [done|]. inversion Hjs; subst. simpl.
    rewrite list_setitem_nat by done. simpl.
    apply IH; [|by inversion Hlen].
    eapply Forall_impl; [done|]. intros ??. by rewrite length_insert.
Qed.

Lemma revise_at_idx_loop_Ok (self : KBBase) pseudo_label y x revision_idx
    (g : list pyval → list pyval) abduce_c candidates reasoning_results :
  (∀ c, c ∈ abduce_c → assign_at pseudo_label revision_idx c = Ok (g c)) →
  revise_at_idx_loop self pseudo_label y x revision_idx abduce_c
    candidates reasoning_results
  = Ok (candidates ++ filter (λ c, consistent self y x c = true) (map g abduce_c),
        reasoning_results ++
          map (λ c, call_logic_forward self c x)
            (filter (λ c, consistent self y x c = true) (map g abduce_c))).
Proof.
  revert candidates reasoning_results.
  induction abduce_c as [|c abduce_c IH]; intros candidates reasoning_results Hg; simpl.
  - by rewrite !app_nil_r.
  - rewrite (Hg c) by left. simpl.
    rewrite IH by (intros; apply Hg; by right).
    rewrite IH by (intros; apply Hg; by right).
    rewrite filter_cons.
    destruct (decide (consistent self y x (g c) = true)) as [Hc|Hc].
    + unfold consistent in Hc. rewrite Hc. simpl. by rewrite <- !app_assoc.
    + unfold consistent in Hc. apply not_true_is_false in Hc. by rewrite Hc.
Qed.

Lemma revise_at_idx_in_range (self : KBBase) pseudo_label y x (js : list nat) :
  Forall (λ j, (j < length pseudo_label)%nat) js →
  revise_at_idx self pseudo_label y x (map Z.of_nat js)
  = Ok (filter (λ c, consistent self y x c = true)
          (map (overlay pseudo_label js)
             (product (pseudo_label_list self) (length js))),
        map (λ c, call_logic_forward self c x)
          (filter (λ c, consistent self y x c = true)
             (map (overlay pseudo_label js)
                (product (pseudo_label_list self) (length js))))).
Proof.
  intros Hjs. unfold revise_at_idx. rewrite length_map.
  rewrite (revise_at_idx_loop_Ok _ _ _ _ _ (overlay pseudo_label js)); [done|].
  intros c [Hc _]%elem_of_product. by apply assign_at_overlay.
Qed.

Lemma _revision_loop_Ok (self : KBBase) pseudo_label y x (jss : list (list nat))
    new_candidates new_reasoning_results :
  Forall (Forall (λ j, (j < length pseudo_label)%nat)) jss →
  let level :=
    flat_map
      (λ js, filter (λ c, consistent self y x c = true)
               (map (overlay pseudo_label js)
                  (product (pseudo_label_list self) (length js)))) jss in
  _revision_loop self pseudo_label y x (map (map Z.of_nat) jss)
    new_candidates new_reasoning_results
  = Ok (new_candidates ++ level,
        new_reasoning_results ++ map (λ c, call_logic_forward self c x) level).
Proof.
  revert new_candidates new_reasoning_results.
  induction jss as [|js jss IH]; intros nc nr Hjss; simpl.
  - by rewrite !app_nil_r.
  - inversion Hjss; subst. rewrite revise_at_idx_in_range by done. simpl.
    rewrite IH by done. simpl. by rewrite map_app, !app_assoc.
Qed.

Lemma combinations_seq_in_range (n r : nat) :
  Forall (Forall (λ j, (j < n)%nat)) (combinations (seq 0 n) r).
Proof.
  apply Forall_forall. intros js [_ Hjs]%combinations_length.
  eapply Forall_impl; [done|]. intros j Hj%elem_of_seq. lia.
Qed.

(** [_revision] never raises, and collects the candidates of its level. *)
Lemma _revision_Ok (self : KBBase) (revision_num : nat) pseudo_label y x :
  _revision self revision_num pseudo_label y x
  = Ok (level_candidates self pseudo_label y x revision_num,
        map (λ c, call_logic_forward self c x)
          (level_candidates self pseudo_label y x revision_num)).
Proof.
  unfold _revision, range. rewrite combinations_map.
  rewrite _revision_loop_Ok by apply combinations_seq_in_range. done.
Qed.

Lemma search_first_loop_post (self : KBBase) pseudo_label y x max_revision_num levels :
  first_loop_post self pseudo_label y x max_revision_num levels
    (search_first_loop self pseudo_label y x max_revision_num levels [] []).
Proof.
  induction levels as [|k levels IH]; simpl; [done|].
  rewrite _revision_Ok. simpl.
  destruct (level_candidates self pseudo_label y x k) as [|c cs] eqn:Hk; simpl.
  - destruct (Z.geb_spec (Z.of_nat k) max_revision_num) as [Hge|Hlt].
    + split; [done|]. exists [], k, levels. repeat split; [done | done | lia].
    + unfold first_loop_post in *.
      destruct (search_first_loop _ _ _ _ _ levels [] []) as [[k' cs' rs'|r|cs' rs']|]; [| | |done].
      * destruct IH as (before & after & -> & Hb & ? & ? & ?).
        exists (k :: before), after. repeat split; try done. by constructor.
      * destruct IH as (-> & before & k' & after & -> & Hb & ? & ?).
        split; [done|]. exists (k :: before), k', after. repeat split; try done.
        by constructor.
      * destruct IH as (-> & -> & Hall). repeat split; try done. by constructor.
  - exists [], levels. rewrite Hk. repeat split; done.
Qed.

Lemma search_second_loop_Ok (self : KBBase) pseudo_label y x max_revision_num levels
    candidates reasoning_results :
  ∃ explored,
    explored `prefix_of` levels ∧ Forall (λ k, Z.of_nat k ≤ max_revision_num) explored ∧
    search_second_loop self pseudo_label y x max_revision_num levels
      candidates reasoning_results
    = Ok (candidates ++ flat_map (level_candidates self pseudo_label y x) explored,
          reasoning_results ++
            map (λ c, call_logic_forward self c x)
              (flat_map (level_candidates self pseudo_label y x) explored)).
Proof.
  revert candidates reasoning_results.
  induction levels as [|k levels IH]; intros candidates reasoning_results; simpl.
  - exists []. rewrite !app_nil_r. done.
  - destruct (Z.gtb_spec (Z.of_nat k) max_revision_num) as [Hgt|Hle].
    + exists []. simpl. rewrite !app_nil_r. split; [apply prefix_nil | done].
    + rewrite _revision_Ok. simpl.
      destruct (IH (candidates ++ level_candidates self pseudo_label y x k)
                  (reasoning_results ++
                     map (λ c, call_logic_forward self c x)
                       (level_candidates self pseudo_label y x k)))
        as (explored & Hpre & Hall & ->).
      exists (k :: explored). split; [by apply prefix_cons|]. split; [by constructor|].
      simpl. by rewrite map_app, !app_assoc.
Qed.

(** ** Distance between a candidate and the original sequence *)

Lemma diff_count_cons u pseudo_label v c :
  diff_count (u :: pseudo_label) (v :: c)
  = ((if decide (u = v) then 0 else 1) + diff_count pseudo_label c)%nat.
Proof.
  unfold diff_count. simpl. rewrite filter_cons. simpl.
  destruct (decide (u = v)); [rewrite decide_False by auto | rewrite decide_True by auto]; done.
Qed.

Lemma diff_count_insert pseudo_label c (j : nat) v :
  (diff_count pseudo_label (<[j := v]> c) ≤ S (diff_count pseudo_label c))%nat.
Proof.
  revert c j. induction pseudo_label as [|u pl IH]; intros c j.
  - unfold diff_count. simpl. lia.
  - destruct c as [|w c]; [unfold diff_count; simpl; lia|].
    destruct j as [|j]; simpl insert; rewrite !diff_count_cons.
    + repeat case_decide; lia.
    + specialize (IH c j). lia.
Qed.

Lemma diff_count_overlay pseudo_label candidate js vs :
  (diff_count pseudo_label (overlay candidate js vs)
   ≤ diff_count pseudo_label candidate + length js)%nat.
Proof.
  revert candidate vs. induction js as [|j js IH]; intros candidate [|v vs]; simpl; try lia.
  specialize (IH (<[j := v]> candidate) vs).
  pose proof (diff_count_insert pseudo_label candidate j v). lia.
Qed.

Lemma diff_count_refl pseudo_label : diff_count pseudo_label pseudo_label = 0%nat.
Proof.
  induction pseudo_label as [|u pl IH]; [done|].
  rewrite diff_count_cons, decide_True by done. done.
Qed.

Lemma overlay_lookup candidate js vs (i : nat) v :
  overlay candidate js vs !! i = Some v → candidate !! i = Some v ∨ v ∈ vs.
Proof.
  revert candidate vs. induction js as [|j js IH]; intros candidate [|w vs]; simpl; auto.
  intros [Hi|Hi]%IH; [|right; by right].
  destruct (decide (j = i)) as [->|Hne].
  - destruct (decide (i < length candidate)%nat).
    + rewrite list_lookup_insert_eq in Hi by done. injection Hi as ->. right; left.
    + rewrite list_insert_ge in Hi by lia. by left.
  - rewrite list_lookup_insert_ne in Hi by done. by left.
Qed.

Lemma diffs_length off pseudo_label c :
  length (diffs off pseudo_label c) = diff_count pseudo_label c.
Proof.
  revert off c. induction pseudo_label as [|u pl IH]; intros off [|v c]; try done.
  simpl. rewrite diff_count_cons. case_decide; simpl; by rewrite IH.
Qed.

Lemma combinations_0 {A} (pool : list A) : combinations pool 0 = [[]].
Proof. by destruct pool. Qed.

Lemma diffs_combination off pseudo_label c :
  map fst (diffs off pseudo_label c)
  ∈ combinations (seq off (length pseudo_label)) (diff_count pseudo_label c).
Proof.
  revert off c. induction pseudo_label as [|u pl IH]; intros off c.
  - destruct c; simpl; apply list_elem_of_singleton; done.
  - destruct c as [|v c].
    { simpl. apply list_elem_of_singleton. done. }
    rewrite diff_count_cons. simpl. case_decide; simpl.
    + specialize (IH (S off) c).
      destruct (diff_count pl c) eqn:Hd.
      * rewrite combinations_0 in IH. done.
      * apply elem_of_app. by right.
    + apply elem_of_app. left. apply list_elem_of_fmap. eexists. split; [done|]. apply IH.
Qed.

Lemma diffs_overlay pre pseudo_label c :
  length c = length pseudo_label →
  overlay (pre ++ pseudo_label)
    (map fst (diffs (length pre) pseudo_label c))
    (map snd (diffs (length pre) pseudo_label c))
  = pre ++ c.
Proof.
  revert pre c. induction pseudo_label as [|u pl IH]; intros pre [|v c] Hlen; try done.
  simpl. case_decide as Huv.
  - subst v. specialize (IH (pre ++ [u]) c). rewrite length_app in IH. simpl in IH.
    replace (length pre + 1)%nat with (S (length pre)) in IH by lia.
    rewrite <- !app_assoc in IH. simpl in IH. apply IH. by inversion Hlen.
  - simpl. rewrite insert_app_r_alt, Nat.sub_diag by done. simpl.
    specialize (IH (pre ++ [v]) c). rewrite length_app in IH. simpl in IH.
    replace (length pre + 1)%nat with (S (length pre)) in IH by lia.
    rewrite <- !app_assoc in IH. simpl in IH. apply IH. by inversion Hlen.
Qed.

Lemma diffs_values off pseudo_label c (pool : list pyval) :
  (∀ (i : nat) u v, pseudo_label !! i = Some u → c !! i = Some v → u ≠ v → v ∈ pool) →
  Forall (λ v, v ∈ pool) (map snd (diffs off pseudo_label c)).
Proof.
  revert off c. induction pseudo_label as [|u pl IH]; intros off [|v c] Hpool; simpl; try done.
  case_decide as Huv.
  - apply IH. intros i. apply (Hpool (S i)).
  - simpl. constructor.
    + by apply (Hpool 0%nat u v).
    + apply IH. intros i. apply (Hpool (S i)).
Qed.

(** ** Candidates of a level *)

Lemma elem_of_level_candidates (self : KBBase) pseudo_label y x (k : nat) c :
  c ∈ level_candidates self pseudo_label y x k ↔
  ∃ js vs, js ∈ combinations (seq 0 (length pseudo_label)) k ∧
    vs ∈ product (pseudo_label_list self) k ∧
    c = overlay pseudo_label js vs ∧ consistent self y x c = true.
Proof.
  unfold level_candidates. rewrite list_elem_of_In, in_flat_map. split.
  - intros (js & Hjs%list_elem_of_In & Hc%list_elem_of_In).
    apply list_elem_of_filter in Hc as [Hcons Hc].
    apply list_elem_of_fmap in Hc as (vs & -> & Hvs).
    destruct (combinations_length _ _ _ Hjs) as [Hlen _]. rewrite Hlen in Hvs. eauto 10.
  - intros (js & vs & Hjs & Hvs & -> & Hcons). exists js.
    split; [by apply list_elem_of_In|]. apply list_elem_of_In, list_elem_of_filter.
    split; [done|]. apply list_elem_of_fmap. exists vs. split; [done|].
    destruct (combinations_length _ _ _ Hjs) as [Hlen _]. by rewrite Hlen.
Qed.

(** A candidate of level [k] has the length of the original, differs from it
    at no more than [k] positions, satisfies the oracle, and holds at each
    position the original value or a value of the label space. *)
Lemma level_candidates_sound (self : KBBase) pseudo_label y x (k : nat) c :
  c ∈ level_candidates self pseudo_label y x k →
  length c = length pseudo_label ∧
  (diff_count pseudo_label c ≤ k)%nat ∧
  consistent self y x c = true ∧
  ∀ (i : nat) v, c !! i = Some v →
    pseudo_label !! i = Some v ∨ v ∈ pseudo_label_list self.
Proof.
  intros (js & vs & Hjs & Hvs & -> & Hcons)%elem_of_level_candidates.
  apply combinations_length in Hjs as [Hlen _].
  apply elem_of_product in Hvs as [_ Hvs].
  split; [apply overlay_length|]. split; [|split; [done|]].
  - pose proof (diff_count_overlay pseudo_label pseudo_label js vs) as Hd.
    rewrite diff_count_refl in Hd. lia.
  - intros i v [Hi|Hi]%overlay_lookup; [by left|right].
    by eapply Forall_forall in Hvs.
Qed.

(** A sequence that satisfies the oracle and differs from the original only
    by values of the label space is a candidate of the level given by the
    number of positions at which it differs. *)
Lemma level_candidates_complete (self : KBBase) pseudo_label y x c :
  length c = length pseudo_label →
  consistent self y x c = true →
  (∀ (i : nat) u v, pseudo_label !! i = Some u → c !! i = Some v → u ≠ v →
     v ∈ pseudo_label_list self) →
  c ∈ level_candidates self pseudo_label y x (diff_count pseudo_label c).
Proof.
  intros Hlen Hcons Hpool. apply elem_of_level_candidates.
  exists (map fst (diffs 0 pseudo_label c)), (map snd (diffs 0 pseudo_label c)).
  split; [apply diffs_combination|]. split; [|split; [|done]].
  - apply elem_of_product. split; [|by apply diffs_values].
    by rewrite length_map, diffs_length.
  - symmetry. apply (diffs_overlay [] pseudo_label c Hlen).
Qed.

(** ** Revision bounds of the search *)

Lemma seq_split_lookup (m : nat) before (k : nat) after (P : nat → Prop) :
  seq 0 m = before ++ k :: after → Forall P before →
  ∀ j : nat, (j < k)%nat → P j.
Proof.
  intros Hseq Hall j Hj.
  assert (k = length before) as ->.
  { assert (seq 0 m !! length before = Some k) as Hk.
    { rewrite Hseq. by rewrite list_lookup_middle. }
    apply lookup_seq in Hk as [-> _]. done. }
  assert (before !! j = Some j) as Hbj.
  { rewrite <- (lookup_app_l before (length before :: after)) by done.
    rewrite <- Hseq. apply lookup_seq. split; [done|].
    apply (f_equal length) in Hseq. rewrite length_seq, length_app in Hseq. simpl in Hseq. lia. }
  by eapply Forall_lookup_1 in Hall.
Qed.

(** What a normal return of the search with at least one candidate means:
    [min_k] is the first level with a candidate, and every candidate comes
    from a level between [min_k] and the two bounds. *)
Lemma _abduce_by_search_body_levels (self : KBBase) pseudo_label y x
    (max_revision_num require_more_revision : Z) candidates reasoning_results :
  0 ≤ max_revision_num →
  _abduce_by_search_body self
    (mk_args pseudo_label y x max_revision_num require_more_revision)
  = Ok (candidates, reasoning_results) →
  candidates ≠ [] →
  ∃ min_k : nat,
    level_candidates self pseudo_label y x min_k ≠ [] ∧
    (∀ j : nat, (j < min_k)%nat → level_candidates self pseudo_label y x j = []) ∧
    Z.of_nat min_k ≤ max_revision_num ∧
    ∀ c, c ∈ candidates →
      ∃ k : nat, c ∈ level_candidates self pseudo_label y x k ∧
        (min_k ≤ k)%nat ∧ Z.of_nat k ≤ max_revision_num ∧
        Z.of_nat k ≤ Z.of_nat min_k + Z.max require_more_revision 0.
Proof.
  intros Hmax Hbody Hne. unfold _abduce_by_search_body in Hbody. simpl in Hbody.
  pose proof (search_first_loop_post self pseudo_label y x max_revision_num
                (seq 0 (length pseudo_label + 1))) as Hpost.
  destruct (search_first_loop _ _ _ _ _ _ [] []) as [[k cs rs|r|cs rs]|e];
    simpl in Hbody, Hpost; [| | done | done].
  - destruct Hpost as (before & after & Hseq & Hbefore & -> & -> & Hcs).
    pose proof (seq_split_lookup _ _ _ _ _ Hseq Hbefore) as Hbelow.
    assert (Z.of_nat k ≤ max_revision_num) as Hk.
    { destruct k as [|k]; [lia|]. destruct (Hbelow k) as [_ ?]; lia. }
    destruct (search_second_loop_Ok self pseudo_label y x max_revision_num
                (seq (S k) (Z.to_nat require_more_revision))
                (level_candidates self pseudo_label y x k)
                (map (λ c, call_logic_forward self c x)
                   (level_candidates self pseudo_label y x k)))
      as (explored & Hpre & Hall & Heq).
    rewrite Heq in Hbody. injection Hbody as <- <-.
    exists k. split; [done|]. split; [intros j Hj; by apply Hbelow|]. split; [done|].
    intros c [Hc|Hc]%elem_of_app.
    + exists k. split; [done|]. lia.
    + apply list_elem_of_In, in_flat_map in Hc as (k' & Hk'%list_elem_of_In & Hc%list_elem_of_In).
      exists k'. split; [done|].
      pose proof (proj1 (Forall_forall _ _) Hall _ Hk') as Hle. simpl in Hle.
      destruct Hpre as [rest Hrest].
      assert (k' ∈ seq (S k) (Z.to_nat require_more_revision)) as Hin.
      { rewrite Hrest. apply elem_of_app. by left. }
      apply elem_of_seq in Hin. lia.
  - destruct Hpost as (-> & _). injection Hbody as <- <-. done.
Qed.

(** With caching off, [abduce_candidates] is the search itself. *)
Lemma abduce_candidates_uncached (self : KBBase) (args : search_args)
    (cache_instance : Cache.Cache abduced) :
  use_cache self = false →
  abduce_candidates self args cache_instance
  = (uncached _abduce_by_search_body self args, cache_instance).
Proof.
  intros Huse. unfold abduce_candidates, _abduce_by_search, Cache.wrapper, uncached.
  by rewrite Huse.
Qed.

(** The bounds on the search itself, the body of [_abduce_by_search]:
    whenever it returns a non-empty candidate list for bounds
    [max_revision_num >= 0] and [require_more_revision >= 0], there is a
    minimal revision count [min_k], the first level at which [_revision]
    finds a match, such that every returned candidate differs from
    [pseudo_label] at a number of positions between [min_k] and
    [min (min_k + require_more_revision) max_revision_num]; with
    [require_more_revision = 0] that number is exactly [min_k]. *)
Lemma _abduce_by_search_body_revision_bounds (self : KBBase) pseudo_label y x
    (max_revision_num require_more_revision : Z) candidates reasoning_results :
  0 ≤ max_revision_num → 0 ≤ require_more_revision →
  _abduce_by_search_body self
    (mk_args pseudo_label y x max_revision_num require_more_revision)
  = Ok (candidates, reasoning_results) →
  candidates ≠ [] →
  ∃ min_k : nat,
    (∃ cs rs, _revision self min_k pseudo_label y x = Ok (cs, rs) ∧ cs ≠ []) ∧
    (∀ j : nat, (j < min_k)%nat → _revision self j pseudo_label y x = Ok ([], [])) ∧
    (∀ c, c ∈ candidates →
       length c = length pseudo_label ∧
       Z.of_nat min_k ≤ Z.of_nat (diff_count pseudo_label c)
         ≤ Z.min (Z.of_nat min_k + require_more_revision) max_revision_num) ∧
    (require_more_revision = 0 →
       ∀ c, c ∈ candidates → diff_count pseudo_label c = min_k).
Proof.
  intros Hmax Hmore Hbody Hne.
  destruct (_abduce_by_search_body_levels _ _ _ _ _ _ _ _ Hmax Hbody Hne)
    as (min_k & Hmin & Hbelow & Hmink & Hlevels).
  assert (∀ c, c ∈ candidates →
            length c = length pseudo_label ∧
            Z.of_nat min_k ≤ Z.of_nat (diff_count pseudo_label c)
              ≤ Z.min (Z.of_nat min_k + require_more_revision) max_revision_num)
    as Hbounds.
  { intros c Hc. destruct (Hlevels c Hc) as (k & Hk & Hle & Hkmax & Hkmore).
    destruct (level_candidates_sound _ _ _ _ _ _ Hk) as (Hlen & Hd & Hcons & Hvals).
    split; [done|]. split; [|lia].
    destruct (decide (diff_count pseudo_label c < min_k)%nat) as [Hlt|]; [|lia].
    exfalso. pose proof (Hbelow _ Hlt) as Hempty.
    assert (c ∈ level_candidates self pseudo_label y x (diff_count pseudo_label c)) as Hin.
    { apply level_candidates_complete; [done | done |].
      intros i u v Hu Hv Huv. destruct (Hvals i v Hv) as [Hpl|]; [congruence | done]. }
    rewrite Hempty in Hin. by apply elem_of_nil in Hin. }
  exists min_k. split; [|split; [|split]].
  - rewrite _revision_Ok. eauto.
  - intros j Hj. rewrite _revision_Ok, (Hbelow j Hj). done.
  - done.
  - intros -> c Hc. destruct (Hbounds c Hc) as [_ ?]. lia.
Qed.

(** ** Infeasible searches *)

(** The search raises exactly when its first loop runs out of levels: no
    level up to [len(pseudo_label)] has a candidate and [max_revision_num]
    exceeds [len(pseudo_label)]. *)
Lemma _abduce_by_search_body_Raise (self : KBBase) pseudo_label y x
    (max_revision_num require_more_revision : Z) (e : exc) :
  _abduce_by_search_body self
    (mk_args pseudo_label y x max_revision_num require_more_revision) = Raise e ↔
  e = UnboundLocalError ∧ Z.of_nat (length pseudo_label) < max_revision_num ∧
  ∀ k : nat, (k ≤ length pseudo_label)%nat → level_candidates self pseudo_label y x k = [].
Proof.
  unfold _abduce_by_search_body. simpl.
  pose proof (search_first_loop_post self pseudo_label y x max_revision_num
                (seq 0 (length pseudo_label + 1))) as Hpost.
  destruct (search_first_loop _ _ _ _ _ _ [] []) as [[k cs rs|r|cs rs]|e'];
    simpl in *; [| | | done].
  - destruct (search_second_loop_Ok self pseudo_label y x max_revision_num
                (seq (S k) (Z.to_nat require_more_revision)) cs rs)
      as (explored & _ & _ & ->).
    split; [done|]. intros (_ & _ & Hall).
    destruct Hpost as (before & after & Hseq & _ & -> & _ & Hne).
    destruct Hne. apply Hall.
    assert (k ∈ seq 0 (length pseudo_label + 1)) as Hk%elem_of_seq; [|lia].
    rewrite Hseq. apply elem_of_app. right. left.
  - split; [done|]. intros (_ & Hlt & Hall).
    destruct Hpost as (_ & before & k & after & Hseq & _ & _ & Hk).
    assert (k ∈ seq 0 (length pseudo_label + 1)) as Hk'%elem_of_seq; [|lia].
    rewrite Hseq. apply elem_of_app. right. left.
  - destruct Hpost as (_ & _ & Hall). split.
    + intros [= <-]. split; [done|].
      assert (∀ k : nat, (k ≤ length pseudo_label)%nat →
                level_candidates self pseudo_label y x k = [] ∧ Z.of_nat k < max_revision_num)
        as Hk.
      { intros k Hk. eapply (proj1 (Forall_forall _ _) Hall). apply elem_of_seq. lia. }
      split; [|intros k Hk'; by apply Hk]. destruct (Hk (length pseudo_label)); [done|lia].
    + by intros (-> & _).
Qed.

(** With [max_revision_num] no larger than [len(pseudo_label)], a search that
    finds no candidate up to level [max_revision_num] returns [([], [])]. *)
Lemma _abduce_by_search_body_infeasible (self : KBBase) pseudo_label y x
    (max_revision_num require_more_revision : Z) :
  0 ≤ max_revision_num ≤ Z.of_nat (length pseudo_label) →
  (∀ k : nat, Z.of_nat k ≤ max_revision_num →
     level_candidates self pseudo_label y x k = []) →
  _abduce_by_search_body self
    (mk_args pseudo_label y x max_revision_num require_more_revision) = Ok ([], []).
Proof.
  intros Hmax Hempty.
  destruct (_abduce_by_search_body self _) as [[cs rs]|e] eqn:Hbody.
  - destruct cs as [|c cs].
    + unfold _abduce_by_search_body in Hbody. simpl in Hbody.
      pose proof (search_first_loop_post self pseudo_label y x max_revision_num
                    (seq 0 (length pseudo_label + 1))) as Hpost.
      destruct (search_first_loop _ _ _ _ _ _ [] []) as [[k cs' rs'|r|cs' rs']|e'];
        simpl in *; [| | done | done].
      * destruct (search_second_loop_Ok self pseudo_label y x max_revision_num
                    (seq (S k) (Z.to_nat require_more_revision)) cs' rs')
          as (explored & _ & _ & Heq).
        rewrite Heq in Hbody. injection Hbody as Hcs _.
        destruct Hpost as (_ & _ & _ & _ & _ & _ & Hne).
        by apply app_nil in Hcs as [-> _].
      * destruct Hpost as [-> _]. done.
    + destruct (_abduce_by_search_body_levels self pseudo_label y x max_revision_num
                  require_more_revision (c :: cs) rs) as (k & Hk & _ & Hle & _);
        [lia | done | done |].
      destruct Hk. by apply Hempty.
  - apply _abduce_by_search_body_Raise in Hbody. lia.
Qed.

(** C3.  With [pseudo_label = [0]], label space [[0, 1]], the sum oracle,
    [y = 5] and [max_revision_num = 2], no revision satisfies the oracle and
    the search does not return [([], [])]: reading [min_revision_num] raises
    [UnboundLocalError]. *)
Theorem abduce_by_search_infeasible_raises :
  _abduce_by_search_body add_kb_default (mk_args [PInt 0] (PInt 5) PNone 2 0)
  = Raise UnboundLocalError.
Proof. vm_compute. reflexivity. Qed.

(** ** The scenario with an extra revision level *)

(** C5.  Label space [[0, 1]], sum oracle, sequence [[0, 0]], target [1],
    [max_revision_num = 2], [require_more_revision = 1]: level 0 has no
    candidate, level 1 yields [[1, 0]] and [[0, 1]], level 2 yields [[0, 1]]
    and [[1, 0]] once more (one of the two positions is assigned the value it
    already has), and the search returns the four of them in that order. *)
Theorem scenario_extra_revision :
  _revision add_kb_default 0 [PInt 0; PInt 0] (PInt 1) PNone = Ok ([], []) ∧
  _revision add_kb_default 1 [PInt 0; PInt 0] (PInt 1) PNone
    = Ok ([[PInt 1; PInt 0]; [PInt 0; PInt 1]], [PInt 1; PInt 1]) ∧
  _revision add_kb_default 2 [PInt 0; PInt 0] (PInt 1) PNone
    = Ok ([[PInt 0; PInt 1]; [PInt 1; PInt 0]], [PInt 1; PInt 1]) ∧
  _abduce_by_search_body add_kb_default (mk_args [PInt 0; PInt 0] (PInt 1) PNone 2 1)
    = Ok ([[PInt 1; PInt 0]; [PInt 0; PInt 1]; [PInt 0; PInt 1]; [PInt 1; PInt 0]],
          [PInt 1; PInt 1; PInt 1; PInt 1]).
Proof. vm_compute. done. Qed.

(** In that scenario level 2 does add candidates, and the returned list is
    not the two candidates of level 1. *)
Lemma scenario_extra_revision_not_two :
  (∀ rs2, _revision add_kb_default 2 [PInt 0; PInt 0] (PInt 1) PNone ≠ Ok ([], rs2)) ∧
  (∀ rs, _abduce_by_search_body add_kb_default
           (mk_args [PInt 0; PInt 0] (PInt 1) PNone 2 1)
         ≠ Ok ([[PInt 1; PInt 0]; [PInt 0; PInt 1]], rs)).
Proof. split; intros rs H; vm_compute in H; discriminate. Qed.

(** ** Values of the candidates *)

Lemma assign_at_values (candidate : list pyval) (revision_idx : list Z) vs c :
  assign_at candidate revision_idx vs = Ok c →
  length c = length candidate ∧
  ∀ (i : nat) v, c !! i = Some v → candidate !! i = Some v ∨ v ∈ vs.
Proof.
  revert candidate vs. induction revision_idx as [|idx idxs IH]; intros candidate vs; simpl.
  - intros [= <-]. auto.
  - destruct vs as [|w vs]; [done|].
    intros (cand' & (j & Hj & ->)%list_setitem_Ok & Hrest)%res_bind_Ok.
    apply IH in Hrest as [Hlen Hvals]. rewrite length_insert in Hlen. split; [done|].
    intros i v [Hi|Hi]%Hvals; [|right; by right].
    destruct (decide (j = i)) as [->|Hne].
    + rewrite list_lookup_insert_eq in Hi by done. injection Hi as ->. right; left.
    + rewrite list_lookup_insert_ne in Hi by done. by left.
Qed.

Lemma revise_at_idx_loop_Forall (P : list pyval → Prop) (self : KBBase)
    pseudo_label y x revision_idx abduce_c candidates reasoning_results cs rs :
  (∀ c candidate, c ∈ abduce_c →
     assign_at pseudo_label revision_idx c = Ok candidate → P candidate) →
  Forall P candidates →
  revise_at_idx_loop self pseudo_label y x revision_idx abduce_c
    candidates reasoning_results = Ok (cs, rs) →
  Forall P cs.
Proof.
  revert candidates reasoning_results.
  induction abduce_c as [|c abduce_c IH]; intros candidates reasoning_results HP Hacc; simpl.
  - by intros [= <- _].
  - intros (candidate & Hassign & Hrest)%res_bind_Ok.
    destruct (_check_equal _ _ _).
    + eapply IH; [| |done].
      * intros; eapply HP; [by right | done].
      * apply Forall_app. split; [done|]. constructor; [|done].
        eapply HP; [by left | done].
    + eapply IH; [| done |done]. intros; eapply HP; [by right | done].
Qed.

(** C9.  Each position of a candidate returned by [revise_at_idx], and of a
    candidate returned by the revision search, holds the value the original
    [pseudo_label] has there or a value of [pseudo_label_list]; so when the
    values of [pseudo_label] all belong to [pseudo_label_list], the values
    of every candidate do. *)
Theorem candidate_values (self : KBBase) pseudo_label y x :
  (∀ revision_idx candidates reasoning_results c,
     revise_at_idx self pseudo_label y x revision_idx
       = Ok (candidates, reasoning_results) →
     c ∈ candidates →
     (∀ (i : nat) v, c !! i = Some v →
        pseudo_label !! i = Some v ∨ v ∈ pseudo_label_list self) ∧
     (Forall (λ v, v ∈ pseudo_label_list self) pseudo_label →
      Forall (λ v, v ∈ pseudo_label_list self) c)) ∧
  (∀ max_revision_num require_more_revision candidates reasoning_results c,
     _abduce_by_search_body self
       (mk_args pseudo_label y x max_revision_num require_more_revision)
       = Ok (candidates, reasoning_results) →
     c ∈ candidates →
     (∀ (i : nat) v, c !! i = Some v →
        pseudo_label !! i = Some v ∨ v ∈ pseudo_label_list self) ∧
     (Forall (λ v, v ∈ pseudo_label_list self) pseudo_label →
      Forall (λ v, v ∈ pseudo_label_list self) c)).
Proof.
  assert (∀ c : list pyval,
            (∀ (i : nat) v, c !! i = Some v →
               pseudo_label !! i = Some v ∨ v ∈ pseudo_label_list self) →
            Forall (λ v, v ∈ pseudo_label_list self) pseudo_label →
            Forall (λ v, v ∈ pseudo_label_list self) c) as Hall.
  { intros c Hc Hpl. apply Forall_lookup. intros i v [Hv|Hv]%Hc; [|done].
    by eapply Forall_lookup_1 in Hpl. }
  split.
  - intros revision_idx candidates reasoning_results c Hrev Hc.
    assert (∀ (i : nat) v, c !! i = Some v →
              pseudo_label !! i = Some v ∨ v ∈ pseudo_label_list self) as Hvals.
    { unfold revise_at_idx in Hrev.
      eapply (revise_at_idx_loop_Forall
                (λ c, ∀ (i : nat) v, c !! i = Some v →
                   pseudo_label !! i = Some v ∨ v ∈ pseudo_label_list self))
        in Hrev; [by eapply Forall_forall in Hrev | | done].
      intros vs candidate [_ Hvs]%elem_of_product [_ Hcand]%assign_at_values i v
        [Hi|Hi]%Hcand; [by left | right].
      by eapply Forall_forall in Hvs. }
    split; [done | by apply Hall].
  - intros max_revision_num require_more_revision candidates reasoning_results c Hbody Hc.
    assert (∀ (i : nat) v, c !! i = Some v →
              pseudo_label !! i = Some v ∨ v ∈ pseudo_label_list self) as Hvals.
    { unfold _abduce_by_search_body in Hbody. simpl in Hbody.
      pose proof (search_first_loop_post self pseudo_label y x max_revision_num
                    (seq 0 (length pseudo_label + 1))) as Hpost.
      destruct (search_first_loop _ _ _ _ _ _ [] []) as [[k cs rs|r|cs rs]|e];
        simpl in Hbody, Hpost; [| | done | done].
      - destruct Hpost as (_ & _ & _ & _ & -> & -> & _).
        destruct (search_second_loop_Ok self pseudo_label y x max_revision_num
                    (seq (S k) (Z.to_nat require_more_revision))
                    (level_candidates self pseudo_label y x k)
                    (map (λ c, call_logic_forward self c x)
                       (level_candidates self pseudo_label y x k)))
          as (explored & _ & _ & Heq).
        rewrite Heq in Hbody. injection Hbody as <- <-.
        apply elem_of_app in Hc as [Hc|Hc].
        + by apply level_candidates_sound in Hc as (_ & _ & _ & ?).
        + apply list_elem_of_In, in_flat_map in Hc as (k' & _ & Hc%list_elem_of_In).
          by apply level_candidates_sound in Hc as (_ & _ & _ & ?).
      - destruct Hpost as [-> _]. injection Hbody as <- <-. by apply elem_of_nil in Hc. }
    split; [done | by apply Hall].
Qed.

Lemma candidate_values_witness :
  Forall (λ v, v ∈ pseudo_label_list add_kb_default) [PInt 1; PInt 0].
Proof.
  apply (proj1 (candidate_values add_kb_default [PInt 0; PInt 0] (PInt 1) PNone)
           [0] [[PInt 1; PInt 0]] [PInt 1] [PInt 1; PInt 0]).
  - vm_compute. reflexivity.
  - left.
  - repeat constructor.
Defined.

(** A sequence holding a value outside the label space keeps it at the
    positions that are not revised: [revise_at_idx] on [[7, 0]] with
    [revision_idx = [1]] and [y = 8] returns [[7, 1]], and [7] is not one of
    the labels [[0, 1]]. *)
Lemma candidate_value_outside_label_space :
  revise_at_idx add_kb_default [PInt 7; PInt 0] (PInt 8) PNone [1]
    = Ok ([[PInt 7; PInt 1]], [PInt 8]) ∧
  PInt 7 ∈ [PInt 7; PInt 1] ∧
  PInt 7 ∉ pseudo_label_list add_kb_default.
Proof.
  split; [vm_compute; reflexivity|]. split; [left|].
  simpl. intros H. repeat (apply elem_of_cons in H as [H|H]; [discriminate|]).
  by apply elem_of_nil in H.
Qed.

(** ** Construction *)

(** C2.  [__init__] turns caching off, and logs one warning, exactly when it
    was asked for and [logic_forward] declares two parameters after [self]
    (the candidate and the example [x]); for any other number of parameters,
    the candidate alone in particular, [use_cache] stays as configured and
    nothing is logged. *)
Theorem init_use_cache (cls : KBClass) (labels : list pyval) (max_err : Q)
    (use_cache0 : bool) (key_func0 : pyval → pyval) (cache_size0 : option Z) :
  ∃ self log,
    __init__ cls (PList labels) max_err use_cache0 key_func0 cache_size0 = Ok (self, log) ∧
    _num_args self = Z.of_nat (length (argspec_args cls)) - 1 ∧
    use_cache self = use_cache0 && negb (bool_decide (_num_args self = 2)) ∧
    log = (if use_cache0 && bool_decide (_num_args self = 2)
           then [(WARNING,
                  "The logic_forward function has 2 arguments, so the cache is disabled. "%string)]
           else []).
Proof.
  unfold __init__.
  destruct (bool_decide (Z.of_nat (length (argspec_args cls)) - 1 = 2)) eqn:Hn;
    destruct use_cache0; simpl; eexists _, _; (split; [reflexivity|]); simpl;
    rewrite ?Hn; done.
Qed.

(** An oracle that takes the candidate only keeps caching on and logs
    nothing; an oracle that also takes [x] has caching turned off. *)
Lemma init_use_cache_minimal_arity :
  __init__ AddKB (PList [PInt 0; PInt 1]) default_max_err true to_hashable default_cache_size
    = Ok (add_kb_default, []) ∧
  use_cache add_kb_default = true ∧
  ∃ self,
    __init__ AddXKB (PList [PInt 0; PInt 1]) default_max_err true to_hashable default_cache_size
      = Ok (self,
            [(WARNING,
              "The logic_forward function has 2 arguments, so the cache is disabled. "%string)]) ∧
    use_cache self = false.
Proof. split; [done|]. split; [done|]. eexists. split; [reflexivity | done]. Qed.

(** ** The search does not look at [use_cache], nor at [x] unless the oracle
    takes it *)

Section search_ext.
Context (self self' : KBBase) (x x' : pyval).
Context (Hlabels : pseudo_label_list self' = pseudo_label_list self).
Context (Herr : max_err self' = max_err self).
Context (Hcall : ∀ c, call_logic_forward self' c x' = call_logic_forward self c x).

Lemma level_candidates_ext pseudo_label y k :
  level_candidates self' pseudo_label y x' k = level_candidates self pseudo_label y x k.
Proof.
  unfold level_candidates. rewrite Hlabels. apply flat_map_ext. intros js.
  apply list_filter_iff. intros c. unfold consistent, _check_equal.
  by rewrite Hcall, Herr.
Qed.

Lemma _revision_ext k pseudo_label y :
  _revision self' k pseudo_label y x' = _revision self k pseudo_label y x.
Proof.
  rewrite !_revision_Ok, level_candidates_ext.
  do 2 f_equal. apply map_ext. intros c. apply Hcall.
Qed.

Lemma search_first_loop_ext pseudo_label y max_revision_num levels
    candidates reasoning_results :
  search_first_loop self' pseudo_label y x' max_revision_num levels
    candidates reasoning_results
  = search_first_loop self pseudo_label y x max_revision_num levels
      candidates reasoning_results.
Proof.
  revert candidates reasoning_results.
  induction levels as [|k levels IH]; intros candidates reasoning_results; simpl; [done|].
  rewrite _revision_ext.
  destruct (_revision self k pseudo_label y x) as [[cs rs]|e]; simpl; [|done].
  by rewrite IH.
Qed.

Lemma search_second_loop_ext pseudo_label y max_revision_num levels
    candidates reasoning_results :
  search_second_loop self' pseudo_label y x' max_revision_num levels
    candidates reasoning_results
  = search_second_loop self pseudo_label y x max_revision_num levels
      candidates reasoning_results.
Proof.
  revert candidates reasoning_results.
  induction levels as [|k levels IH]; intros candidates reasoning_results; simpl; [done|].
  rewrite _revision_ext.
  destruct (_revision self k pseudo_label y x) as [[cs rs]|e]; simpl; [|done].
  by rewrite IH.
Qed.

Lemma _abduce_by_search_body_ext pseudo_label y max_revision_num require_more_revision :
  _abduce_by_search_body self'
    (mk_args pseudo_label y x' max_revision_num require_more_revision)
  = _abduce_by_search_body self
      (mk_args pseudo_label y x max_revision_num require_more_revision).
Proof.
  unfold _abduce_by_search_body. simpl. rewrite search_first_loop_ext.
  destruct (search_first_loop self _ _ _ _ _ _ _) as [[k cs rs|r|cs rs]|e]; simpl; try done.
  apply search_second_loop_ext.
Qed.

End search_ext.

(** ** The store of links *)

Section store_facts.
Context {T : Type}.
Implicit Types (h : Cache.store T) (l v : Cache.loc).

Lemma store_set_eq h l c : Cache.store_set h l c l = c.
Proof. unfold Cache.store_set. by rewrite decide_True. Qed.

Lemma store_set_ne h l c l' : l' ≠ l → Cache.store_set h l c l' = h l'.
Proof. intros. unfold Cache.store_set. by rewrite decide_False. Qed.

Lemma NEXT_set_NEXT h l v l' :
  Cache.NEXT (Cache.set_NEXT h l v l') = if decide (l' = l) then v else Cache.NEXT (h l').
Proof. unfold Cache.set_NEXT, Cache.store_set. by case_decide; subst. Qed.
Lemma PREV_set_NEXT h l v l' : Cache.PREV (Cache.set_NEXT h l v l') = Cache.PREV (h l').
Proof. unfold Cache.set_NEXT, Cache.store_set. by case_decide; subst. Qed.
Lemma KEY_set_NEXT h l v l' : Cache.KEY (Cache.set_NEXT h l v l') = Cache.KEY (h l').
Proof. unfold Cache.set_NEXT, Cache.store_set. by case_decide; subst. Qed.
Lemma RESULT_set_NEXT h l v l' : Cache.RESULT (Cache.set_NEXT h l v l') = Cache.RESULT (h l').
Proof. unfold Cache.set_NEXT, Cache.store_set. by case_decide; subst. Qed.

Lemma PREV_set_PREV h l v l' :
  Cache.PREV (Cache.set_PREV h l v l') = if decide (l' = l) then v else Cache.PREV (h l').
Proof. unfold Cache.set_PREV, Cache.store_set. by case_decide; subst. Qed.
Lemma NEXT_set_PREV h l v l' : Cache.NEXT (Cache.set_PREV h l v l') = Cache.NEXT (h l').
Proof. unfold Cache.set_PREV, Cache.store_set. by case_decide; subst. Qed.
Lemma KEY_set_PREV h l v l' : Cache.KEY (Cache.set_PREV h l v l') = Cache.KEY (h l').
Proof. unfold Cache.set_PREV, Cache.store_set. by case_decide; subst. Qed.
Lemma RESULT_set_PREV h l v l' : Cache.RESULT (Cache.set_PREV h l v l') = Cache.RESULT (h l').
Proof. unfold Cache.set_PREV, Cache.store_set. by case_decide; subst. Qed.

Lemma KEY_set_KEY h l k l' :
  Cache.KEY (Cache.set_KEY h l k l') = if decide (l' = l) then k else Cache.KEY (h l').
Proof. unfold Cache.set_KEY, Cache.store_set. by case_decide; subst. Qed.
Lemma NEXT_set_KEY h l k l' : Cache.NEXT (Cache.set_KEY h l k l') = Cache.NEXT (h l').
Proof. unfold Cache.set_KEY, Cache.store_set. by case_decide; subst. Qed.
Lemma PREV_set_KEY h l k l' : Cache.PREV (Cache.set_KEY h l k l') = Cache.PREV (h l').
Proof. unfold Cache.set_KEY, Cache.store_set. by case_decide; subst. Qed.
Lemma RESULT_set_KEY h l k l' : Cache.RESULT (Cache.set_KEY h l k l') = Cache.RESULT (h l').
Proof. unfold Cache.set_KEY, Cache.store_set. by case_decide; subst. Qed.

Lemma RESULT_set_RESULT h l (r : option T) l' :
  Cache.RESULT (Cache.set_RESULT h l r l') = if decide (l' = l) then r else Cache.RESULT (h l').
Proof. unfold Cache.set_RESULT, Cache.store_set. by case_decide; subst. Qed.
Lemma NEXT_set_RESULT h l (r : option T) l' :
  Cache.NEXT (Cache.set_RESULT h l r l') = Cache.NEXT (h l').
Proof. unfold Cache.set_RESULT, Cache.store_set. by case_decide; subst. Qed.
Lemma PREV_set_RESULT h l (r : option T) l' :
  Cache.PREV (Cache.set_RESULT h l r l') = Cache.PREV (h l').
Proof. unfold Cache.set_RESULT, Cache.store_set. by case_decide; subst. Qed.
Lemma KEY_set_RESULT h l (r : option T) l' :
  Cache.KEY (Cache.set_RESULT h l r l') = Cache.KEY (h l').
Proof. unfold Cache.set_RESULT, Cache.store_set. by case_decide; subst. Qed.

End store_facts.

Create Rewrite HintDb store.
#[global] Hint Rewrite @NEXT_set_NEXT @PREV_set_NEXT @KEY_set_NEXT @RESULT_set_NEXT
  @PREV_set_PREV @NEXT_set_PREV @KEY_set_PREV @RESULT_set_PREV
  @KEY_set_KEY @NEXT_set_KEY @PREV_set_KEY @RESULT_set_KEY
  @RESULT_set_RESULT @NEXT_set_RESULT @PREV_set_RESULT @KEY_set_RESULT
  @store_set_eq : store.

(** Reads the fields of links out of a store built by a series of updates. *)
Ltac store_simpl :=
  simpl; autorewrite with store; simpl;
  repeat (case_decide; subst; simpl; try done; try congruence);
  unfold Cache.store_set;
  repeat (case_decide; subst; simpl; try done; try congruence);
  try done.

(** ** Calls that differ in the example only *)

Section cache_hit.
Context {T : Type} (func : KBBase → search_args → res T).

Lemma init_cache_has_init (c : Cache.Cache T) obj :
  Cache.has_init (Cache.init_cache c obj) = true.
Proof. unfold Cache.init_cache. by destruct (Cache.has_init c) eqn:?. Qed.

Lemma init_cache_idemp (c : Cache.Cache T) obj :
  Cache.has_init c = true → Cache.init_cache c obj = c.
Proof. unfold Cache.init_cache. by intros ->. Qed.

(** After a call that returned normally the key of the call is in the
    dictionary, bound to a link that holds the returned result. *)
Lemma get_from_dict_Ok_stored (c c1 : Cache.Cache T) obj args r :
  Cache.get_from_dict func c obj args = (Ok r, c1) →
  ∃ kf l, Cache.key_func c = Some kf ∧ Cache.key_func c1 = Some kf ∧
    Cache.has_init c1 = Cache.has_init c ∧
    Cache.cache_dict c1 !! Cache.make_cache_key kf args = Some l ∧
    Cache.RESULT (Cache.heap c1 l) = r.
Proof.
  unfold Cache.get_from_dict.
  destruct (Cache.key_func c) as [kf|] eqn:Hkf; [|done].
  destruct (Cache.cache_dict c !! Cache.make_cache_key kf args) as [l|] eqn:Hl.
  - intros [= <- <-]. exists kf, l. simpl. repeat split; try done.
    by autorewrite with store.
  - destruct (func obj args) as [result|e]; [|done]. simpl.
    destruct (Cache.full c).
    + match goal with
      | |- context [match ?oldkey with Some _ => _ | None => _ end] =>
          destruct oldkey as [k|] eqn:Hold
      end; [|done].
      destruct (Cache.cache_dict c !! k) eqn:Hk; [|done].
      intros [= <- <-]. exists kf, (Cache.root c). simpl.
      repeat split; try done; [by rewrite lookup_insert_eq|].
      autorewrite with store in Hold. autorewrite with store.
      destruct (decide (Cache.NEXT (Cache.heap c (Cache.root c)) = Cache.root c)) as [Heq|Hne].
      * injection Hold as <-. congruence.
      * rewrite decide_False by done. by rewrite decide_True.
    + destruct (Cache.max_size c); intros [= <- <-];
        exists kf, (Cache.next_loc c); simpl;
        (repeat split; try done; [by rewrite lookup_insert_eq|]);
        by autorewrite with store.
Qed.

(** A call whose key is in the dictionary is a hit. *)
Lemma get_from_dict_present (c : Cache.Cache T) obj args kf l :
  Cache.key_func c = Some kf →
  Cache.cache_dict c !! Cache.make_cache_key kf args = Some l →
  ∃ c2, Cache.get_from_dict func c obj args = (Ok (Cache.RESULT (Cache.heap c l)), c2) ∧
    Cache.hits c2 = (Cache.hits c + 1)%nat ∧ Cache.misses c2 = Cache.misses c ∧
    Cache.cache_dict c2 = Cache.cache_dict c.
Proof.
  intros Hkf Hl. unfold Cache.get_from_dict. rewrite Hkf, Hl. eexists. split; [done|]. done.
Qed.

(** C8.  The cache key is built from [key_func(pseudo_label)], [key_func(y)],
    [max_revision_num] and [require_more_revision], never from [x].  So when
    a cached call returned a result, the same call with another [x], made
    next on the same instance, is a hit: it returns that result, adds one to
    [hits] and leaves [misses], which counts the invocations of the search,
    as it is.  More generally a call is such a hit, whatever its [x],
    whenever the entry for its key is in the dictionary. *)
Theorem cached_call_ignores_x (obj : KBBase) pseudo_label y x1 x2
    (max_revision_num require_more_revision : Z) :
  use_cache obj = true →
  (∀ kf, Cache.make_cache_key kf
           (mk_args pseudo_label y x1 max_revision_num require_more_revision)
         = (kf (PList pseudo_label), kf y, (max_revision_num, require_more_revision)) ∧
         Cache.make_cache_key kf
           (mk_args pseudo_label y x2 max_revision_num require_more_revision)
         = (kf (PList pseudo_label), kf y, (max_revision_num, require_more_revision))) ∧
  (∀ (cache_instance c1 : Cache.Cache T) (r : option T),
     Cache.wrapper func obj
       (mk_args pseudo_label y x1 max_revision_num require_more_revision) cache_instance
     = (Ok r, c1) →
     ∃ c2,
       Cache.wrapper func obj
         (mk_args pseudo_label y x2 max_revision_num require_more_revision) c1
       = (Ok r, c2) ∧
       Cache.hits c2 = (Cache.hits c1 + 1)%nat ∧
       Cache.misses c2 = Cache.misses c1) ∧
  (∀ (c : Cache.Cache T) kf l,
     Cache.has_init c = true → Cache.key_func c = Some kf →
     Cache.cache_dict c !! Cache.make_cache_key kf
       (mk_args pseudo_label y x1 max_revision_num require_more_revision) = Some l →
     ∃ c2,
       Cache.wrapper func obj
         (mk_args pseudo_label y x2 max_revision_num require_more_revision) c
       = (Ok (Cache.RESULT (Cache.heap c l)), c2) ∧
       Cache.hits c2 = (Cache.hits c + 1)%nat ∧
       Cache.misses c2 = Cache.misses c ∧
       Cache.cache_dict c2 = Cache.cache_dict c).
Proof.
  intros Huse. split; [done|]. split.
  - intros cache_instance c1 r Hcall.
    unfold Cache.wrapper in *. rewrite Huse in *.
    apply get_from_dict_Ok_stored in Hcall as (kf & l & _ & Hkf & Hinit & Hl & Hr).
    rewrite init_cache_has_init in Hinit. rewrite (init_cache_idemp _ _ Hinit).
    destruct (get_from_dict_present c1 obj
                (mk_args pseudo_label y x2 max_revision_num require_more_revision)
                kf l Hkf Hl) as (c2 & Hc2 & ? & ? & _).
    exists c2. by rewrite Hc2, Hr.
  - intros c kf l Hinit Hkf Hl. unfold Cache.wrapper. rewrite Huse.
    rewrite (init_cache_idemp _ _ Hinit).
    by apply (get_from_dict_present c obj _ kf l).
Qed.

End cache_hit.

Lemma cached_call_ignores_x_witness :
  ∃ c2,
    Cache.wrapper _abduce_by_search_body add_kb_default
      (mk_args [PInt 0; PInt 0] (PInt 2) (PInt 9) 2 0)
      (Cache.wrapper _abduce_by_search_body add_kb_default
         (mk_args [PInt 0; PInt 0] (PInt 2) PNone 2 0) Cache.__init__).2
    = (Ok (Some ([[PInt 1; PInt 1]], [PInt 2])), c2) ∧
    Cache.hits c2
    = (Cache.hits (Cache.wrapper _abduce_by_search_body add_kb_default
                     (mk_args [PInt 0; PInt 0] (PInt 2) PNone 2 0) Cache.__init__).2 + 1)%nat ∧
    Cache.misses c2
    = Cache.misses (Cache.wrapper _abduce_by_search_body add_kb_default
                      (mk_args [PInt 0; PInt 0] (PInt 2) PNone 2 0) Cache.__init__).2.
Proof.
  apply (proj1 (proj2 (cached_call_ignores_x _abduce_by_search_body add_kb_default
                         [PInt 0; PInt 0] (PInt 2) PNone (PInt 9) 2 0 eq_refl))
           Cache.__init__).
  vm_compute. reflexivity.
Defined.

(** On a cache of capacity [1], a call for another target made between two
    calls that differ only in [x] evicts the entry of the first: the third
    call is a miss, and the search runs a third time. *)
Lemma cached_call_after_eviction :
  let kb := add_kb (Some 1) in
  let c2 := run_ops _abduce_by_search_body
              [Lookup kb (mk_args [PInt 0; PInt 0] (PInt 2) PNone 2 0);
               Lookup kb (mk_args [PInt 0; PInt 0] (PInt 1) PNone 2 0)]
              Cache.__init__ in
  let third := _abduce_by_search kb (mk_args [PInt 0; PInt 0] (PInt 2) (PInt 9) 2 0) c2 in
  Cache.cache_dict c2
    !! Cache.make_cache_key (key_func kb) (mk_args [PInt 0; PInt 0] (PInt 2) (PInt 9) 2 0)
  = None ∧
  Cache.misses c2 = 2%nat ∧
  Cache.misses third.2 = 3%nat ∧
  Cache.hits third.2 = 0%nat.
Proof. vm_compute. done. Qed.

(** ** The circular list *)

Section chain_facts.
Context {T : Type}.
Implicit Types (h : Cache.store T) (a b l : Cache.loc) (ls : list Cache.loc).

Lemma lastd_elem a ls : lastd a ls ∈ a :: ls.
Proof.
  revert a. induction ls as [|x ls IH]; intros a; simpl; [left|]. right. apply IH.
Qed.

Lemma lastd_app_cons a ls1 l ls2 : lastd a (ls1 ++ l :: ls2) = lastd l ls2.
Proof. revert a. induction ls1 as [|x ls1 IH]; intros a; simpl; [done | apply IH]. Qed.

Lemma chain_app h a ls1 l ls2 b :
  chain h a (ls1 ++ l :: ls2) b ↔ chain h a ls1 l ∧ chain h l ls2 b.
Proof.
  revert a. induction ls1 as [|x ls1 IH]; intros a; simpl.
  - tauto.
  - rewrite IH. tauto.
Qed.

Lemma chain_PREV h a ls b : chain h a ls b → Cache.PREV (h b) = lastd a ls.
Proof.
  revert a. induction ls as [|x ls IH]; intros a; simpl.
  - by intros [_ ?].
  - intros (_ & _ & ?). by apply IH.
Qed.

Lemma chain_NEXT h a ls b : chain h a ls b → Cache.NEXT (h a) = hdd ls b.
Proof. destruct ls; simpl; by intros [? _]. Qed.

Lemma chain_frame h h' a ls b :
  (∀ x, x ∈ a :: ls → Cache.NEXT (h' x) = Cache.NEXT (h x)) →
  (∀ x, x ∈ ls ++ [b] → Cache.PREV (h' x) = Cache.PREV (h x)) →
  chain h a ls b → chain h' a ls b.
Proof.
  revert a. induction ls as [|x ls IH]; intros a HN HP; simpl.
  - intros [Hn Hp]. split; [rewrite HN by left; done | rewrite HP by left; done].
  - intros (Hn & Hp & Hc).
    split; [rewrite HN by left; done|]. split; [rewrite HP by left; done|].
    apply IH; [| |done].
    + intros y Hy. apply HN. by right.
    + intros y Hy. apply HP. by right.
Qed.

(** Redirects the end of a chain from [b] to [b']. *)
Lemma chain_relink h h' a ls b b' :
  NoDup (a :: ls) →
  chain h a ls b →
  (∀ x, x ∈ a :: ls → x ≠ lastd a ls → Cache.NEXT (h' x) = Cache.NEXT (h x)) →
  (∀ x, x ∈ ls → Cache.PREV (h' x) = Cache.PREV (h x)) →
  Cache.NEXT (h' (lastd a ls)) = b' → Cache.PREV (h' b') = lastd a ls →
  chain h' a ls b'.
Proof.
  revert a. induction ls as [|x ls IH]; intros a Hnd Hc HN HP Hn Hp; simpl in *.
  - done.
  - destruct Hc as (Hnx & Hpx & Hc).
    apply NoDup_cons in Hnd as [Ha Hnd].
    split; [|split].
    + rewrite HN; [done | left |]. intros Heq. apply Ha. rewrite Heq. apply lastd_elem.
    + rewrite HP; [done | left].
    + apply IH; try done.
      * intros y Hy Hne. apply HN; [by right | done].
      * intros y Hy. apply HP. by right.
Qed.

(** Appends the link [l] at the end of the list, before the root. *)
Lemma chain_append h h' r ls l :
  NoDup (r :: ls) → l ∉ r :: ls → chain h r ls r →
  Cache.NEXT (h' l) = r → Cache.PREV (h' l) = lastd r ls →
  Cache.NEXT (h' (lastd r ls)) = l → Cache.PREV (h' r) = l →
  (∀ x, x ∈ r :: ls → x ≠ lastd r ls → Cache.NEXT (h' x) = Cache.NEXT (h x)) →
  (∀ x, x ∈ ls → Cache.PREV (h' x) = Cache.PREV (h x)) →
  chain h' r (ls ++ [l]) r.
Proof.
  intros Hnd Hl Hc HNl HPl HNlast HPr HN HP.
  apply chain_app. split; [|done].
  by eapply chain_relink.
Qed.

(** Takes the link [l] out of the list. *)
Lemma chain_unlink h r ls1 l ls2 :
  NoDup (r :: ls1 ++ l :: ls2) → chain h r (ls1 ++ l :: ls2) r →
  chain (Cache.set_PREV (Cache.set_NEXT h (Cache.PREV (h l)) (Cache.NEXT (h l)))
           (Cache.NEXT (h l)) (Cache.PREV (h l)))
    r (ls1 ++ ls2) r.
Proof.
  intros Hnd [Hc1 Hc2]%chain_app.
  rewrite (chain_PREV _ _ _ _ Hc1), (chain_NEXT _ _ _ _ Hc2).
  pose proof (lastd_elem r ls1) as Hp.
  assert (NoDup (r :: ls1)) as Hnd1.
  { change (NoDup ((r :: ls1) ++ l :: ls2)) in Hnd. by apply NoDup_app in Hnd as [? _]. }
  assert (∀ x, x ∈ r :: ls1 → x ∉ l :: ls2) as Hdisj.
  { change (NoDup ((r :: ls1) ++ l :: ls2)) in Hnd. by apply NoDup_app in Hnd as (_ & ? & _). }
  assert (NoDup (l :: ls2)) as Hnd2.
  { change (NoDup ((r :: ls1) ++ l :: ls2)) in Hnd. by apply NoDup_app in Hnd as (_ & _ & ?). }
  destruct ls2 as [|m ls2]; simpl hdd.
  - rewrite app_nil_r.
    eapply chain_relink; [done | done | | | |].
    + intros x Hx Hne. by store_simpl.
    + intros x Hx. store_simpl. exfalso.
      apply NoDup_cons in Hnd1 as [Hr _]. done.
    + by store_simpl.
    + by store_simpl.
  - assert (m ∉ r :: ls1) as Hm.
    { intros Hin. apply (Hdisj _ Hin). right; left. }
    apply chain_app. split.
    + eapply chain_relink; [done | done | | | |].
      * intros x Hx Hne. by store_simpl.
      * intros x Hx. store_simpl. exfalso. apply Hm. by right.
      * by store_simpl.
      * by store_simpl.
    + simpl in Hc2. destruct Hc2 as (_ & _ & Hc2).
      eapply chain_frame; [| |done].
      * intros x Hx. store_simpl. exfalso. eapply Hdisj; [done|]. by right.
      * intros x Hx. store_simpl. exfalso.
        apply NoDup_cons in Hnd2 as [_ Hnd2]. apply NoDup_cons in Hnd2 as [Hm2 _].
        apply elem_of_app in Hx as [Hx|Hx]; [done|].
        apply list_elem_of_singleton in Hx. apply Hm. rewrite <- Hx. left.
Qed.

End chain_facts.

(** ** One lookup on a cache that satisfies the invariant *)

Section lru_step.
Context {T : Type} (func : KBBase → search_args → res T).
Context (stored : Cache.cache_key → T → Prop).
Implicit Types (c : Cache.Cache T) (ls : list Cache.loc).

(** A hit moves the link to the end of the list and changes no key and no
    result. *)
Lemma get_from_dict_hit_order c ls1 l ls2 obj args kf :
  lru_inv stored c (ls1 ++ l :: ls2) → Cache.key_func c = Some kf →
  Cache.cache_dict c !! Cache.make_cache_key kf args = Some l →
  lru_inv stored (Cache.get_from_dict func c obj args).2 (ls1 ++ ls2 ++ [l]) ∧
  (∀ x, Cache.KEY (Cache.heap (Cache.get_from_dict func c obj args).2 x)
        = Cache.KEY (Cache.heap c x)) ∧
  (∀ x, Cache.RESULT (Cache.heap (Cache.get_from_dict func c obj args).2 x)
        = Cache.RESULT (Cache.heap c x)) ∧
  (Cache.get_from_dict func c obj args).1 = Ok (Cache.RESULT (Cache.heap c l)) ∧
  Cache.cache_dict (Cache.get_from_dict func c obj args).2 = Cache.cache_dict c ∧
  Cache.full (Cache.get_from_dict func c obj args).2 = Cache.full c ∧
  same_config c (Cache.get_from_dict func c obj args).2.
Proof.
  intros [Hnd Hchain Hfresh Hdl Hld Hfull] Hkf Hl.
  unfold Cache.get_from_dict. rewrite Hkf, Hl. simpl.
  assert (ls1 ++ ls2 ++ [l] ≡ₚ ls1 ++ l :: ls2) as Hperm.
  { by rewrite (Permutation_app_comm ls2 [l]). }
  assert (NoDup (Cache.root c :: ls1 ++ ls2) ∧ l ∉ Cache.root c :: ls1 ++ ls2) as [Hnd' Hl'].
  { assert (Cache.root c :: ls1 ++ l :: ls2 ≡ₚ l :: Cache.root c :: ls1 ++ ls2) as Hp.
    { rewrite <- Permutation_middle. apply perm_swap. }
    rewrite Hp in Hnd. by apply NoDup_cons in Hnd as [? ?]. }
  split; [|split; [|split]]; [| intros x; by autorewrite with store ..| done].
  pose proof (chain_unlink _ _ _ _ _ Hnd Hchain) as Hchain'.
  set (h2 := Cache.set_PREV _ _ _) in *.
  pose proof (chain_PREV _ _ _ _ Hchain') as Hlast.
  pose proof (lastd_elem (Cache.root c) (ls1 ++ ls2)) as Hlast_in.
  assert (∀ x, Cache.KEY (h2 x) = Cache.KEY (Cache.heap c x)) as HKEY.
  { intros x. unfold h2. by autorewrite with store. }
  assert (∀ x, Cache.RESULT (h2 x) = Cache.RESULT (Cache.heap c x)) as HRESULT.
  { intros x. unfold h2. by autorewrite with store. }
  clearbody h2.
  split; simpl.
  - rewrite Hperm. done.
  - rewrite app_assoc.
    eapply chain_append; [done | done | done | | | | | |].
    + by store_simpl.
    + store_simpl.
    + rewrite <- Hlast. rewrite <- Hlast in Hlast_in. store_simpl.
    + assert (Cache.root c ≠ l) by (intros Heq; apply Hl'; rewrite <- Heq; left). store_simpl.
    + intros x Hx Hne. rewrite <- Hlast in Hne. store_simpl.
    + intros x Hx.
      assert (x ≠ l) by (intros ->; apply Hl'; by right).
      assert (x ≠ Cache.root c)
        by (intros Heq; rewrite Heq in Hx; by apply NoDup_cons in Hnd' as [? _]).
      store_simpl.
  - eapply Forall_forall. intros x Hx.
    eapply (proj1 (Forall_forall _ _) Hfresh). by rewrite Hperm in Hx.
  - intros k l' Hk. destruct (Hdl _ _ Hk) as (? & ? & ?).
    rewrite Hperm. autorewrite with store. by rewrite HKEY, HRESULT.
  - intros l'. rewrite Hperm. intros Hin. autorewrite with store. rewrite HKEY.
    by apply Hld.
  - intros _. destruct ls1, ls2; done.
Qed.

(** A hit returns the stored result and moves the link to the end. *)
Lemma get_from_dict_hit c ls obj args kf l :
  lru_inv stored c ls → Cache.key_func c = Some kf →
  Cache.cache_dict c !! Cache.make_cache_key kf args = Some l →
  ∃ ls', lru_inv stored (Cache.get_from_dict func c obj args).2 ls' ∧
    (Cache.get_from_dict func c obj args).1 = Ok (Cache.RESULT (Cache.heap c l)) ∧
    Cache.cache_dict (Cache.get_from_dict func c obj args).2 = Cache.cache_dict c ∧
    Cache.full (Cache.get_from_dict func c obj args).2 = Cache.full c ∧
    same_config c (Cache.get_from_dict func c obj args).2.
Proof.
  intros Hinv Hkf Hl.
  destruct (inv_dict_ls _ _ _ Hinv _ _ Hl) as (Hin & _).
  apply list_elem_of_split in Hin as (ls1 & ls2 & ->).
  destruct (get_from_dict_hit_order c ls1 l ls2 obj args kf Hinv Hkf Hl)
    as (Hinv' & _ & _ & Hrest).
  by exists (ls1 ++ ls2 ++ [l]).
Qed.

(** A miss whose computation raises stores nothing. *)
Lemma get_from_dict_miss_Raise c ls obj args kf e :
  lru_inv stored c ls → Cache.key_func c = Some kf →
  Cache.cache_dict c !! Cache.make_cache_key kf args = None →
  func obj args = Raise e →
  lru_inv stored (Cache.get_from_dict func c obj args).2 ls ∧
  (Cache.get_from_dict func c obj args).1 = Raise e ∧
  Cache.cache_dict (Cache.get_from_dict func c obj args).2 = Cache.cache_dict c ∧
  Cache.full (Cache.get_from_dict func c obj args).2 = Cache.full c ∧
  same_config c (Cache.get_from_dict func c obj args).2.
Proof.
  intros [Hnd Hchain Hfresh Hdl Hld Hfull] Hkf Hl Hf.
  unfold Cache.get_from_dict. rewrite Hkf, Hl, Hf. simpl.
  split; [by split|done].
Qed.

(** A miss on a cache that is not full appends a new link, holding the key
    and the result, at the end of the list and changes no other key or
    result. *)
Lemma get_from_dict_miss_append_order c ls obj args kf r :
  lru_inv stored c ls → Cache.key_func c = Some kf →
  Cache.cache_dict c !! Cache.make_cache_key kf args = None →
  func obj args = Ok r → stored (Cache.make_cache_key kf args) r →
  Cache.full c = false →
  lru_inv stored (Cache.get_from_dict func c obj args).2 (ls ++ [Cache.next_loc c]) ∧
  Cache.KEY (Cache.heap (Cache.get_from_dict func c obj args).2 (Cache.next_loc c))
    = Some (Cache.make_cache_key kf args) ∧
  Cache.RESULT (Cache.heap (Cache.get_from_dict func c obj args).2 (Cache.next_loc c))
    = Some r ∧
  (∀ x, x ∈ ls →
     Cache.KEY (Cache.heap (Cache.get_from_dict func c obj args).2 x)
       = Cache.KEY (Cache.heap c x) ∧
     Cache.RESULT (Cache.heap (Cache.get_from_dict func c obj args).2 x)
       = Cache.RESULT (Cache.heap c x)) ∧
  (Cache.get_from_dict func c obj args).1 = Ok (Some r) ∧
  Cache.cache_dict (Cache.get_from_dict func c obj args).2
    = <[Cache.make_cache_key kf args := Cache.next_loc c]> (Cache.cache_dict c) ∧
  Cache.full (Cache.get_from_dict func c obj args).2
    = match Cache.max_size c with
      | Some n =>
          Z.of_nat (size (<[Cache.make_cache_key kf args := Cache.next_loc c]>
                            (Cache.cache_dict c))) >=? n
      | None => false
      end ∧
  same_config c (Cache.get_from_dict func c obj args).2.
Proof.
  intros [Hnd Hchain Hfresh Hdl Hld Hfull] Hkf Hl Hf Hst Hnf.
  unfold Cache.get_from_dict. rewrite Hkf, Hl, Hf. simpl. rewrite Hnf.
  pose proof (chain_PREV _ _ _ _ Hchain) as Hlast.
  pose proof (lastd_elem (Cache.root c) ls) as Hlast_in.
  assert (∀ x, x ∈ Cache.root c :: ls → x ≠ Cache.next_loc c) as Hne.
  { intros x Hx ->. apply (proj1 (Forall_forall _ _) Hfresh) in Hx. lia. }
  assert (Cache.root c ≠ Cache.next_loc c) as Hr' by (apply Hne; left).
  assert (Cache.PREV (Cache.heap c (Cache.root c)) ≠ Cache.next_loc c) as Hp'
    by (apply Hne; by rewrite Hlast).
  assert (∀ x, x ∈ ls → x ≠ Cache.next_loc c) as Hne_ls
    by (intros x Hx; apply Hne; by right).
  assert (lru_inv stored
            (Cache.with_cache_dict
               (<[Cache.make_cache_key kf args := Cache.next_loc c]> (Cache.cache_dict c))
               (Cache.with_next_loc (S (Cache.next_loc c))
                  (Cache.with_heap
                     (Cache.set_PREV
                        (Cache.set_NEXT
                           (Cache.store_set (Cache.heap c) (Cache.next_loc c)
                              {| Cache.PREV := Cache.PREV (Cache.heap c (Cache.root c));
                                 Cache.NEXT := Cache.root c;
                                 Cache.KEY := Some (Cache.make_cache_key kf args);
                                 Cache.RESULT := Some r |})
                           (Cache.PREV (Cache.heap c (Cache.root c))) (Cache.next_loc c))
                        (Cache.root c) (Cache.next_loc c))
                     (Cache.with_misses (Cache.misses c + 1) c))))
            (ls ++ [Cache.next_loc c])) as Hinv.
  { assert (Cache.root c ≠ Cache.next_loc c) as Hr by (apply Hne; left).
    assert (Cache.PREV (Cache.heap c (Cache.root c)) ≠ Cache.next_loc c) as Hp
      by (apply Hne; by rewrite Hlast).
    split; simpl.
    - rewrite app_comm_cons. apply NoDup_app. split; [done|]. split; [|apply NoDup_singleton].
      intros x Hx Hx'%list_elem_of_singleton. subst x. by eapply Hne.
    - eapply chain_append; [done | | done | | | | | |].
      + intros Hin. by eapply Hne.
      + store_simpl.
      + rewrite <- Hlast. store_simpl.
      + rewrite <- Hlast. store_simpl.
      + store_simpl.
      + intros x Hx Hxl. rewrite <- Hlast in Hxl.
        assert (x ≠ Cache.next_loc c) by by apply Hne.
        store_simpl.
      + intros x Hx.
        assert (x ≠ Cache.next_loc c) by (apply Hne; by right).
        assert (x ≠ Cache.root c)
          by (intros Heq; rewrite Heq in Hx; by apply NoDup_cons in Hnd as [? _]).
        store_simpl.
    - rewrite app_comm_cons. apply Forall_app. split.
      + eapply Forall_impl; [done|]. simpl. lia.
      + repeat constructor.
    - intros k l. rewrite lookup_insert. case_decide as Hk.
      + intros [= <-]. subst k. split; [apply elem_of_app; right; left|].
        split; [store_simpl|]. exists r. split; [|done]. store_simpl.
      + intros Hkl. destruct (Hdl _ _ Hkl) as (Hin & HK & HR).
        assert (l ≠ Cache.next_loc c) by (apply Hne; by right).
        split; [apply elem_of_app; by left|]. by store_simpl.
    - intros l [Hin|Hin%list_elem_of_singleton]%elem_of_app; [|subst l].
      + destruct (Hld _ Hin) as (k & HK & Hk). exists k.
        assert (l ≠ Cache.next_loc c) by (apply Hne; by right).
        split; [by store_simpl|]. rewrite lookup_insert_ne; [done|]. congruence.
      + exists (Cache.make_cache_key kf args).
        split; [|by rewrite lookup_insert_eq]. store_simpl.
    - intros _. by destruct ls. }
  destruct (Cache.max_size c) as [n|] eqn:Hms; simpl.
  - split; [destruct Hinv; split; simpl in *; try done; intros _; by destruct ls|].
    split; [store_simpl|]. split; [store_simpl|].
    split; [|by repeat split].
    intros x Hx. specialize (Hne_ls x Hx). split; store_simpl.
  - split; [done|]. split; [store_simpl|]. split; [store_simpl|].
    split; [|by repeat split].
    intros x Hx. specialize (Hne_ls x Hx). split; store_simpl.
Qed.

(** A miss on a cache that is not full appends a new link. *)
Lemma get_from_dict_miss_append c ls obj args kf r :
  lru_inv stored c ls → Cache.key_func c = Some kf →
  Cache.cache_dict c !! Cache.make_cache_key kf args = None →
  func obj args = Ok r → stored (Cache.make_cache_key kf args) r →
  Cache.full c = false →
  ∃ ls', lru_inv stored (Cache.get_from_dict func c obj args).2 ls' ∧
    (Cache.get_from_dict func c obj args).1 = Ok (Some r) ∧
    Cache.cache_dict (Cache.get_from_dict func c obj args).2
      = <[Cache.make_cache_key kf args := Cache.next_loc c]> (Cache.cache_dict c) ∧
    Cache.full (Cache.get_from_dict func c obj args).2
      = match Cache.max_size c with
        | Some n =>
            Z.of_nat (size (<[Cache.make_cache_key kf args := Cache.next_loc c]>
                              (Cache.cache_dict c))) >=? n
        | None => false
        end ∧
    same_config c (Cache.get_from_dict func c obj args).2.
Proof.
  intros Hinv Hkf Hl Hf Hst Hnf.
  destruct (get_from_dict_miss_append_order c ls obj args kf r Hinv Hkf Hl Hf Hst Hnf)
    as (Hinv' & _ & _ & _ & Hrest).
  by exists (ls ++ [Cache.next_loc c]).
Qed.

(** A miss on a full cache stores the new entry in the root, which becomes
    the last link of the list, and makes the first link, the oldest, the new
    root, deleting its key; no other key or result changes. *)
Lemma get_from_dict_miss_evict_order c l0 ls0 obj args kf r :
  lru_inv stored c (l0 :: ls0) → Cache.key_func c = Some kf →
  Cache.cache_dict c !! Cache.make_cache_key kf args = None →
  func obj args = Ok r → stored (Cache.make_cache_key kf args) r →
  Cache.full c = true →
  ∃ k0, lru_inv stored (Cache.get_from_dict func c obj args).2 (ls0 ++ [Cache.root c]) ∧
    Cache.KEY (Cache.heap c l0) = Some k0 ∧
    Cache.KEY (Cache.heap (Cache.get_from_dict func c obj args).2 (Cache.root c))
      = Some (Cache.make_cache_key kf args) ∧
    Cache.RESULT (Cache.heap (Cache.get_from_dict func c obj args).2 (Cache.root c))
      = Some r ∧
    (∀ x, x ∈ ls0 →
       Cache.KEY (Cache.heap (Cache.get_from_dict func c obj args).2 x)
         = Cache.KEY (Cache.heap c x) ∧
       Cache.RESULT (Cache.heap (Cache.get_from_dict func c obj args).2 x)
         = Cache.RESULT (Cache.heap c x)) ∧
    (Cache.get_from_dict func c obj args).1 = Ok (Some r) ∧
    is_Some (Cache.cache_dict c !! k0) ∧
    Cache.cache_dict (Cache.get_from_dict func c obj args).2
      = <[Cache.make_cache_key kf args := Cache.root c]> (delete k0 (Cache.cache_dict c)) ∧
    Cache.full (Cache.get_from_dict func c obj args).2 = true ∧
    same_config c (Cache.get_from_dict func c obj args).2.
Proof.
  intros [Hnd Hchain Hfresh Hdl Hld Hfull] Hkf Hl Hf Hst Hfl.
  destruct Hchain as (HN & HP & Hchain).
  destruct (Hld l0) as (k0 & HK0 & Hk0); [left|].
  assert (l0 ≠ Cache.root c) as Hl0.
  { intros Heq. apply NoDup_cons in Hnd as [Hr _]. apply Hr. rewrite <- Heq. left. }
  assert (k0 ≠ Cache.make_cache_key kf args) as Hk0ne by congruence.
  unfold Cache.get_from_dict. rewrite Hkf, Hl, Hf. simpl. rewrite Hfl.
  autorewrite with store. rewrite HN, decide_False, HK0, Hk0 by done. simpl.
  assert (∀ x, x ∈ ls0 → x ≠ l0 ∧ x ≠ Cache.root c) as Hne_ls.
  { intros x Hx. split; intros ->.
    - apply NoDup_cons in Hnd as [_ Hnd]. by apply NoDup_cons in Hnd as [? _].
    - apply NoDup_cons in Hnd as [Hr _]. apply Hr. by right. }
  exists k0. split; [|split; [done|]; split; [simpl; store_simpl|];
                      split; [simpl; store_simpl|]; split; [|by repeat split]];
    [|intros x [??]%Hne_ls; simpl; split; store_simpl].
  split; simpl.
  - assert (l0 :: ls0 ++ [Cache.root c] ≡ₚ Cache.root c :: l0 :: ls0) as ->; [|done].
    rewrite app_comm_cons. by rewrite Permutation_app_comm.
  - eapply chain_frame; [| |apply chain_app; split; [exact Hchain | by split]].
    + intros x _. by autorewrite with store.
    + intros x _. by autorewrite with store.
  - eapply Forall_forall. intros x Hx.
    eapply (proj1 (Forall_forall _ _) Hfresh).
    apply elem_of_cons in Hx as [->|[Hx|Hx%list_elem_of_singleton]%elem_of_app].
    + right; left.
    + right; by right.
    + subst x. left.
  - intros k l. rewrite lookup_insert. case_decide as Hk.
    + intros [= <-]. subst k. split; [apply elem_of_app; right; left|].
      split; [store_simpl|]. exists r. split; [store_simpl | done].
    + rewrite lookup_delete. case_decide as Hk'; [done|]. intros Hkl.
      destruct (Hdl _ _ Hkl) as (Hin & HK & HR).
      assert (l ≠ l0) by congruence.
      assert (l ≠ Cache.root c).
      { intros ->. by apply NoDup_cons in Hnd as [? _]. }
      apply elem_of_cons in Hin as [?|Hin]; [done|].
      split; [apply elem_of_app; by left|]. store_simpl.
  - intros l [Hin|Hin%list_elem_of_singleton]%elem_of_app; [|subst l].
    + destruct (Hld l) as (k & HK & Hk); [by right|]. exists k.
      assert (l ≠ l0).
      { intros ->. apply NoDup_cons in Hnd as [_ Hnd]. by apply NoDup_cons in Hnd as [? _]. }
      assert (l ≠ Cache.root c).
      { intros ->. apply NoDup_cons in Hnd as [Hr _]. apply Hr. by right. }
      split; [store_simpl|].
      rewrite lookup_insert_ne by congruence.
      rewrite lookup_delete_ne; [done|]. intros <-. congruence.
    + exists (Cache.make_cache_key kf args). split; [store_simpl|].
      by rewrite lookup_insert_eq.
  - intros _. by destruct ls0.
Qed.

(** A miss on a full cache reuses the root for the new entry and makes the
    oldest link the new root, deleting its key. *)
Lemma get_from_dict_miss_evict c ls obj args kf r :
  lru_inv stored c ls → Cache.key_func c = Some kf →
  Cache.cache_dict c !! Cache.make_cache_key kf args = None →
  func obj args = Ok r → stored (Cache.make_cache_key kf args) r →
  Cache.full c = true →
  ∃ ls' k0, lru_inv stored (Cache.get_from_dict func c obj args).2 ls' ∧
    (Cache.get_from_dict func c obj args).1 = Ok (Some r) ∧
    is_Some (Cache.cache_dict c !! k0) ∧
    Cache.cache_dict (Cache.get_from_dict func c obj args).2
      = <[Cache.make_cache_key kf args := Cache.root c]> (delete k0 (Cache.cache_dict c)) ∧
    Cache.full (Cache.get_from_dict func c obj args).2 = true ∧
    same_config c (Cache.get_from_dict func c obj args).2.
Proof.
  intros Hinv Hkf Hl Hf Hst Hfl.
  destruct ls as [|l0 ls0]; [by destruct (inv_full _ _ _ Hinv Hfl)|].
  destruct (get_from_dict_miss_evict_order c l0 ls0 obj args kf r Hinv Hkf Hl Hf Hst Hfl)
    as (k0 & Hinv' & _ & _ & _ & _ & Hrest).
  by exists (ls0 ++ [Cache.root c]), k0.
Qed.

End lru_step.

(** ** Sequences of calls through one instance *)

Section cache_runs.
Context {T : Type} (func : KBBase → search_args → res T) (obj : KBBase).
Context (stored : Cache.cache_key → T → Prop).
Implicit Types (c : Cache.Cache T).

Lemma init_cache_post_init c :
  c = Cache.__init__ ∨ post_init stored obj c →
  post_init stored obj (Cache.init_cache c obj).
Proof.
  intros [->|Hc].
  - unfold Cache.init_cache. simpl. repeat split; try done.
    exists []. split; simpl; try done.
    + apply NoDup_singleton.
    + repeat constructor.
    + by intros l ?%elem_of_nil.
  - destruct Hc as (Hinit & ?). by rewrite init_cache_idemp.
Qed.

(** One lookup on an initialised cache: what it returns and what becomes of
    the dictionary and of [full]. *)
Lemma get_from_dict_post_init c args :
  post_init stored obj c →
  (∀ r, func obj args = Ok r →
     stored (Cache.make_cache_key (key_func obj) args) r) →
  post_init stored obj (Cache.get_from_dict func c obj args).2 ∧
  match Cache.cache_dict c !! Cache.make_cache_key (key_func obj) args with
  | Some l =>
      (Cache.get_from_dict func c obj args).1 = Ok (Cache.RESULT (Cache.heap c l)) ∧
      Cache.cache_dict (Cache.get_from_dict func c obj args).2 = Cache.cache_dict c ∧
      Cache.full (Cache.get_from_dict func c obj args).2 = Cache.full c
  | None =>
      (Cache.get_from_dict func c obj args).1 = uncached func obj args ∧
      match func obj args with
      | Raise _ =>
          Cache.cache_dict (Cache.get_from_dict func c obj args).2 = Cache.cache_dict c ∧
          Cache.full (Cache.get_from_dict func c obj args).2 = Cache.full c
      | Ok _ =>
          if Cache.full c then
            ∃ k0 l, is_Some (Cache.cache_dict c !! k0) ∧
              Cache.cache_dict (Cache.get_from_dict func c obj args).2
                = <[Cache.make_cache_key (key_func obj) args := l]>
                    (delete k0 (Cache.cache_dict c)) ∧
              Cache.full (Cache.get_from_dict func c obj args).2 = true
          else
            ∃ l,
              Cache.cache_dict (Cache.get_from_dict func c obj args).2
                = <[Cache.make_cache_key (key_func obj) args := l]> (Cache.cache_dict c) ∧
              Cache.full (Cache.get_from_dict func c obj args).2
                = match cache_size obj with
                  | Some n =>
                      Z.of_nat (size (<[Cache.make_cache_key (key_func obj) args := l]>
                                        (Cache.cache_dict c))) >=? n
                  | None => false
                  end
      end
  end.
Proof.
  intros (Hinit & Hkf & Hms & ls & Hinv) Hst.
  destruct (Cache.cache_dict c !! Cache.make_cache_key (key_func obj) args) as [l|] eqn:Hl.
  - destruct (get_from_dict_hit func stored c ls obj args _ l Hinv Hkf Hl)
      as (ls' & Hinv' & Hr & Hd & Hf & Hk' & Hm' & Hi').
    split; [|done]. repeat split; try congruence. by exists ls'.
  - unfold uncached. destruct (func obj args) as [r|e] eqn:Hf.
    + destruct (Cache.full c) eqn:Hfull.
      * destruct (get_from_dict_miss_evict func stored c ls obj args _ r Hinv Hkf Hl Hf
                    (Hst r eq_refl) Hfull)
          as (ls' & k0 & Hinv' & Hr & Hk0 & Hd & Hf' & Hk' & Hm' & Hi').
        split; [|split; [done|]; by eauto 10].
        repeat split; try congruence. by exists ls'.
      * destruct (get_from_dict_miss_append func stored c ls obj args _ r Hinv Hkf Hl Hf
                    (Hst r eq_refl) Hfull)
          as (ls' & Hinv' & Hr & Hd & Hf' & Hk' & Hm' & Hi').
        split; [|split; [done|]; exists (Cache.next_loc c); by rewrite <- Hms].
        repeat split; try congruence. by exists ls'.
    + destruct (get_from_dict_miss_Raise func stored c ls obj args _ e Hinv Hkf Hl Hf)
        as (Hinv' & Hr & Hd & Hf' & Hk' & Hm' & Hi').
      split; [|done]. repeat split; try congruence. by exists ls.
Qed.

End cache_runs.

(** ** Transparency of the cache *)

Section transparency.
Context {T : Type} (func : KBBase → search_args → res T) (obj : KBBase).
Context (Huse : use_cache obj = true).
Context (Hkey : ∀ a a', Cache.make_cache_key (key_func obj) a
                        = Cache.make_cache_key (key_func obj) a' →
                        func obj a = func obj a').

Lemma stored_for_computed args r :
  func obj args = Ok r →
  stored_for func obj (Cache.make_cache_key (key_func obj) args) r.
Proof. intros Hr a Ha. by rewrite (Hkey _ _ Ha). Qed.

Lemma wrapper_transparent (c : Cache.Cache T) args :
  c = Cache.__init__ ∨ post_init (stored_for func obj) obj c →
  (Cache.wrapper func obj args c).1 = uncached func obj args ∧
  post_init (stored_for func obj) obj (Cache.wrapper func obj args c).2.
Proof.
  intros Hc%(init_cache_post_init obj (stored_for func obj)).
  unfold Cache.wrapper. rewrite Huse.
  destruct (get_from_dict_post_init func obj _ _ args Hc (stored_for_computed args))
    as [Hpost Hspec].
  split; [|done].
  destruct (Cache.cache_dict _ !! _) as [l|] eqn:Hl; [|by destruct Hspec].
  destruct Hspec as (-> & _).
  destruct Hc as (_ & _ & _ & ls & Hinv).
  destruct (inv_dict_ls _ _ _ Hinv _ _ Hl) as (_ & _ & r & -> & Hr).
  unfold uncached. by rewrite (Hr args eq_refl).
Qed.

Lemma run_lookups_post_init (previous : list search_args) (c : Cache.Cache T) :
  c = Cache.__init__ ∨ post_init (stored_for func obj) obj c →
  run_ops func (Lookup obj <$> previous) c = Cache.__init__ ∨
  post_init (stored_for func obj) obj (run_ops func (Lookup obj <$> previous) c).
Proof.
  revert c. induction previous as [|a previous IH]; intros c Hc; simpl; [done|].
  apply IH. right. by apply wrapper_transparent.
Qed.

(** Every call made through [obj] after any number of earlier calls returns
    what the uncached call returns, and raises what it raises. *)
Lemma wrapper_run_transparent (previous : list search_args) args :
  (Cache.wrapper func obj args
     (run_ops func (Lookup obj <$> previous) Cache.__init__)).1
  = uncached func obj args.
Proof.
  apply wrapper_transparent, run_lookups_post_init. by left.
Qed.

End transparency.

(** ** Lookups on a cache in any state *)

Section wk_step.
Context {T : Type} (func : KBBase → search_args → res T).
Context (stored : Cache.cache_key → T → Prop).
Implicit Types (c : Cache.Cache T).

(** A lookup keeps [wk_inv], and when it returns, it returns a result that
    [stored] accepts for the key of the call. *)
Lemma get_from_dict_wk_inv c obj args kf :
  wk_inv stored c → Cache.key_func c = Some kf →
  (∀ r, func obj args = Ok r → stored (Cache.make_cache_key kf args) r) →
  wk_inv stored (Cache.get_from_dict func c obj args).2 ∧
  same_config c (Cache.get_from_dict func c obj args).2 ∧
  ∀ r, (Cache.get_from_dict func c obj args).1 = Ok r →
    ∃ r', r = Some r' ∧ stored (Cache.make_cache_key kf args) r'.
Proof.
  intros (Hroot & Hclosed & Hdict) Hkf Hst. unfold Cache.get_from_dict. rewrite Hkf.
  pose proof (Hclosed _ Hroot) as [Hpr Hnr].
  destruct (Cache.cache_dict c !! Cache.make_cache_key kf args) as [l|] eqn:Hl.
  - destruct (Hdict _ _ Hl) as (Hlr & Hll & HK & r & HR & Hr). simpl.
    pose proof (Hclosed _ Hll) as [Hpl Hnl].
    split; [|split; [done | intros ? [= <-]; eauto]].
    split; [done|]. split; simpl.
    + intros l' Hl'. pose proof (Hclosed _ Hl') as [??].
      split; store_simpl.
    + intros k l' Hk. destruct (Hdict _ _ Hk) as (? & ? & ? & ?).
      autorewrite with store. done.
  - destruct (func obj args) as [result|e] eqn:Hf; [|done]. simpl.
    specialize (Hst result eq_refl).
    destruct (Cache.full c).
    + autorewrite with store.
      set (root' := Cache.NEXT (Cache.heap c (Cache.root c))) in *.
      assert (∀ c' r0,
                Cache.root c' = root' → Cache.next_loc c' = Cache.next_loc c →
                (∀ l, Cache.PREV (Cache.heap c' l) = Cache.PREV (Cache.heap c l) ∧
                      Cache.NEXT (Cache.heap c' l) = Cache.NEXT (Cache.heap c l)) →
                (∀ k l, Cache.cache_dict c' !! k = Some l →
                   l ≠ root' ∧ (l < Cache.next_loc c)%nat ∧
                   Cache.KEY (Cache.heap c' l) = Some k ∧
                   ∃ r, Cache.RESULT (Cache.heap c' l) = Some r ∧ stored k r) →
                same_config c c' →
                (∀ r, r0 = Ok r →
                   ∃ r', r = Some r' ∧ stored (Cache.make_cache_key kf args) r') →
                wk_inv stored (r0, c').2 ∧ same_config c (r0, c').2 ∧
                ∀ r, (r0, c').1 = Ok r →
                  ∃ r', r = Some r' ∧ stored (Cache.make_cache_key kf args) r') as Hfin.
      { intros c' r0 Hr' Hn' Hptr Hd' Hcfg Hres. simpl. split; [|done].
        unfold wk_inv. rewrite Hr', Hn'. split; [done|]. split; [|done].
        intros l Hl'. destruct (Hptr l) as [-> ->]. by apply Hclosed. }
      assert (∀ k l, Cache.cache_dict c !! k = Some l →
                (∀ k0, (if decide (root' = Cache.root c)
                        then Some (Cache.make_cache_key kf args)
                        else Cache.KEY (Cache.heap c root')) = Some k0 →
                       is_Some (Cache.cache_dict c !! k0) → k ≠ k0) →
                l ≠ root') as Hnot_root'.
      { intros k l Hk Hold ->. destruct (Hdict _ _ Hk) as (Hne & _ & HK & _).
        rewrite decide_False in Hold by done.
        by apply (Hold k HK). }
      destruct (decide (root' = Cache.root c)) as [Heq|Hne].
      * rewrite Hl. apply Hfin; simpl; try done.
        -- intros l. by autorewrite with store.
        -- intros k l Hk. destruct (Hdict _ _ Hk) as (? & ? & ? & ?).
           assert (l ≠ root') by congruence. split; [done|]. split; [done|]. store_simpl.
      * destruct (Cache.KEY (Cache.heap c root')) as [k0|] eqn:HK0.
        -- destruct (Cache.cache_dict c !! k0) as [l0|] eqn:Hk0.
           ++ apply Hfin; simpl; try done.
              ** intros l. by autorewrite with store.
              ** intros k l. rewrite lookup_insert. case_decide as Hk.
                 --- intros [= <-]. split; [done|]. split; [done|]. subst k.
                     split; [store_simpl|]. exists result. split; [store_simpl | done].
                 --- rewrite lookup_delete. case_decide as Hk'; [done|]. intros Hkl.
                     destruct (Hdict _ _ Hkl) as (? & ? & ? & ?).
                     assert (l ≠ root').
                     { eapply Hnot_root'; [done|]. intros k1 [= <-] _. done. }
                     split; [done|]. split; [done|]. store_simpl.
              ** intros ? [= <-]. eauto.
           ++ apply Hfin; simpl; try done.
              ** intros l. by autorewrite with store.
              ** intros k l Hk. destruct (Hdict _ _ Hk) as (? & ? & ? & ?).
                 assert (l ≠ root').
                 { eapply Hnot_root'; [done|]. intros k1 [= <-] [? ?] ->. congruence. }
                 split; [done|]. split; [done|]. store_simpl.
        -- apply Hfin; simpl; try done.
           ++ intros l. by autorewrite with store.
           ++ intros k l Hk. destruct (Hdict _ _ Hk) as (? & ? & ? & ?).
              assert (l ≠ root') by (intros ->; congruence).
              split; [done|]. split; [done|]. store_simpl.
    + assert (wk_inv stored
                (Cache.with_cache_dict
                   (<[Cache.make_cache_key kf args := Cache.next_loc c]> (Cache.cache_dict c))
                   (Cache.with_next_loc (S (Cache.next_loc c))
                      (Cache.with_heap
                         (Cache.set_PREV
                            (Cache.set_NEXT
                               (Cache.store_set (Cache.heap c) (Cache.next_loc c)
                                  {| Cache.PREV := Cache.PREV (Cache.heap c (Cache.root c));
                                     Cache.NEXT := Cache.root c;
                                     Cache.KEY := Some (Cache.make_cache_key kf args);
                                     Cache.RESULT := Some result |})
                               (Cache.PREV (Cache.heap c (Cache.root c))) (Cache.next_loc c))
                            (Cache.root c) (Cache.next_loc c))
                         (Cache.with_misses (Cache.misses c + 1) c))))) as Hinv.
      { split; [simpl; lia|]. split; simpl.
        - intros l Hl'.
          destruct (decide (l = Cache.next_loc c)) as [->|Hne].
          + split; store_simpl; lia.
          + assert (l < Cache.next_loc c)%nat as Hlt by lia.
            pose proof (Hclosed _ Hlt) as [??]. split; store_simpl; lia.
        - intros k l. rewrite lookup_insert. case_decide as Hk.
          + intros [= <-]. subst k. split; [lia|]. split; [lia|].
            assert (Cache.root c ≠ Cache.next_loc c) by lia.
            assert (Cache.PREV (Cache.heap c (Cache.root c)) ≠ Cache.next_loc c) by lia.
            split; [store_simpl|]. exists result. split; [store_simpl | done].
          + intros Hkl. destruct (Hdict _ _ Hkl) as (? & ? & ? & ?).
            assert (l ≠ Cache.next_loc c) by lia.
            split; [done|]. split; [lia|]. store_simpl. }
      destruct (Cache.max_size c); simpl.
      * split; [exact Hinv|]. split; [by repeat split | intros ? [= <-]; eauto].
      * split; [exact Hinv|]. split; [by repeat split | intros ? [= <-]; eauto].
Qed.

End wk_step.

Section transparency_any_state.
Context {T : Type} (func : KBBase → search_args → res T) (obj : KBBase).
Context (Huse : use_cache obj = true).
Context (Hkey : ∀ a a', Cache.make_cache_key (key_func obj) a
                        = Cache.make_cache_key (key_func obj) a' →
                        func obj a = func obj a').

Lemma init_cache_served c :
  served func obj c →
  Cache.has_init (Cache.init_cache c obj) = true ∧
  Cache.key_func (Cache.init_cache c obj) = Some (key_func obj) ∧
  wk_inv (stored_for func obj) (Cache.init_cache c obj).
Proof.
  intros [->|(Hi & Hk & Hinv)]; [|by rewrite init_cache_idemp].
  unfold Cache.init_cache. simpl. split; [done|]. split; [done|].
  split; [simpl; lia|]. split; simpl.
  - intros l Hl. unfold Cache.store_set. case_decide; simpl; lia.
  - intros k l. by rewrite lookup_empty.
Qed.

Lemma wrapper_served c args :
  served func obj c →
  served func obj (Cache.wrapper func obj args c).2 ∧
  ∀ r, (Cache.wrapper func obj args c).1 = Ok r → uncached func obj args = Ok r.
Proof.
  intros (Hi & Hk & Hinv)%init_cache_served. unfold Cache.wrapper. rewrite Huse.
  destruct (get_from_dict_wk_inv func (stored_for func obj) _ obj args _ Hinv Hk
              (stored_for_computed func obj Hkey args))
    as (Hinv' & (Hk' & _ & Hi') & Hres).
  split.
  - right. split; [congruence|]. split; [congruence | done].
  - intros r (r' & -> & Hr')%Hres. unfold uncached. by rewrite (Hr' args eq_refl).
Qed.

Lemma run_ops_served (ops : list cache_op) c :
  Forall (op_by obj) ops → served func obj c → served func obj (run_ops func ops c).
Proof.
  revert c. induction ops as [|op ops IH]; intros c Hops Hc; simpl; [done|].
  inversion Hops as [|?? Hop Hops']; subst.
  apply IH; [done|]. destruct op as [obj' args|]; simpl.
  - simpl in Hop. subst obj'. by apply wrapper_served.
  - destruct Hc as [->|(Hi & Hk & Hroot & Hclosed & _)]; [by left|right].
    split; [done|]. split; [done|]. split; [done|]. split; [done|].
    intros k l. simpl. by rewrite lookup_empty.
Qed.

(** Whatever calls and [clear_cache] came before, a call that returns,
    returns what the uncached call returns. *)
Lemma wrapper_run_ops_Ok (ops : list cache_op) args r :
  Forall (op_by obj) ops →
  (Cache.wrapper func obj args (run_ops func ops Cache.__init__)).1 = Ok r →
  uncached func obj args = Ok r.
Proof.
  intros Hops. apply wrapper_served, run_ops_served; [done|]. by left.
Qed.

End transparency_any_state.

Section transparency_of_search.
Context (cls : KBClass) (labels : list pyval) (max_err0 : Q).
Context (key_func0 : pyval → pyval) (cache_size0 : option Z).

(** The search of an instance with a one-parameter oracle depends on its
    arguments only through the cache key when [key_func] is injective. *)
Lemma _abduce_by_search_body_key (self : KBBase) (a a' : search_args) :
  Inj (=) (=) (key_func self) → _num_args self ≠ 2 →
  Cache.make_cache_key (key_func self) a = Cache.make_cache_key (key_func self) a' →
  _abduce_by_search_body self a = _abduce_by_search_body self a'.
Proof.
  intros Hinj Hn. destruct a as [pl y x m e], a' as [pl' y' x' m' e'].
  unfold Cache.make_cache_key. simpl.
  intros [= Hpl%Hinj Hy%Hinj -> ->]. injection Hpl as ->. subst y'.
  apply (_abduce_by_search_body_ext self self x' x); try done.
  intros c. unfold call_logic_forward. by rewrite !bool_decide_eq_false_2.
Qed.

(** C6.  For an instance built by [__init__] with a [key_func] that maps
    different values to different keys, whose calls are the only ones the
    cache has served: a call with caching on, made after any number of
    earlier calls, returns what the call on the instance built with caching
    off returns, and raises what it raises; and when [clear_cache] was called
    in between as well, a call with caching on that returns, returns what
    the call with caching off returns. *)
Theorem cache_transparency (cached_kb uncached_kb : KBBase)
    (log log' : list (log_level * string))
    (args : search_args) (c' : Cache.Cache abduced) :
  Inj (=) (=) key_func0 →
  __init__ cls (PList labels) max_err0 true key_func0 cache_size0 = Ok (cached_kb, log) →
  __init__ cls (PList labels) max_err0 false key_func0 cache_size0
    = Ok (uncached_kb, log') →
  (∀ previous : list search_args,
     (_abduce_by_search cached_kb args
        (run_ops _abduce_by_search_body (Lookup cached_kb <$> previous) Cache.__init__)).1
     = (_abduce_by_search uncached_kb args c').1) ∧
  (∀ (ops : list cache_op) (r : option abduced),
     Forall (op_by cached_kb) ops →
     (_abduce_by_search cached_kb args
        (run_ops _abduce_by_search_body ops Cache.__init__)).1 = Ok r →
     (_abduce_by_search uncached_kb args c').1 = Ok r).
Proof.
  intros Hinj. unfold __init__, _abduce_by_search.
  destruct (bool_decide (Z.of_nat (length (argspec_args cls)) - 1 = 2)) eqn:Hn; simpl.
  - intros [= <- <-] [= <- <-]. split; [done|]. by intros ops r _ <-.
  - intros [= <- <-] [= <- <-]. apply bool_decide_eq_false in Hn.
    match goal with
    | |- context [Cache.wrapper _ ?k args c'] =>
        assert ((Cache.wrapper _abduce_by_search_body k args c').1
                = uncached _abduce_by_search_body
                    {| pseudo_label_list := labels; max_err := max_err0; use_cache := true;
                       key_func := key_func0; cache_size := cache_size0;
                       _num_args := Z.of_nat (length (argspec_args cls)) - 1;
                       logic_forward := class_logic_forward cls |} args) as ->
    end.
    { unfold Cache.wrapper, uncached. simpl. destruct args as [pl y x m e].
      match goal with
      | |- match ?a with _ => _ end = match ?b with _ => _ end =>
          assert (a = b) as -> by (by apply (_abduce_by_search_body_ext _ _ x x))
      end.
      done. }
    split.
    + intros previous. apply wrapper_run_transparent; [done|].
      intros a a'. by apply _abduce_by_search_body_key.
    + intros ops r Hops. apply wrapper_run_ops_Ok; [done| |done].
      intros a a'. by apply _abduce_by_search_body_key.
Qed.

End transparency_of_search.

Lemma cache_transparency_witness :
  (_abduce_by_search (add_kb (Some 1)) (mk_args [PInt 0; PInt 0] (PInt 2) (PInt 9) 2 0)
     (run_ops _abduce_by_search_body
        (Lookup (add_kb (Some 1)) <$> [mk_args [PInt 0; PInt 0] (PInt 2) PNone 2 0;
                                       mk_args [PInt 0; PInt 0] (PInt 1) PNone 2 0])
        Cache.__init__)).1
  = Ok (Some ([[PInt 1; PInt 1]], [PInt 2])).
Proof.
  rewrite (proj1 (cache_transparency AddKB [PInt 0; PInt 1] default_max_err to_hashable
                    (Some 1) (add_kb (Some 1))
                    {| pseudo_label_list := [PInt 0; PInt 1]; max_err := default_max_err;
                       use_cache := false; key_func := to_hashable; cache_size := Some 1;
                       _num_args := 1; logic_forward := λ c _, py_sum c |}
                    [] [] (mk_args [PInt 0; PInt 0] (PInt 2) (PInt 9) 2 0) Cache.__init__
                    (λ v w Hvw, Hvw) eq_refl eq_refl)).
  vm_compute. reflexivity.
Defined.

(** With a key function that maps every value to one key, a call for target
    [1] made after a call for target [2] is served the candidates stored for
    target [2], which is not what the uncached search returns. *)
Lemma cache_not_transparent_const_key :
  __init__ AddKB (PList [PInt 0; PInt 1]) default_max_err true (λ _, PNone) (Some 4096)
    = Ok (add_kb_const_key, []) ∧
  (_abduce_by_search add_kb_const_key (mk_args [PInt 0; PInt 0] (PInt 1) PNone 2 0)
     (run_ops _abduce_by_search_body
        [Lookup add_kb_const_key (mk_args [PInt 0; PInt 0] (PInt 2) PNone 2 0)]
        Cache.__init__)).1
    = Ok (Some ([[PInt 1; PInt 1]], [PInt 2])) ∧
  _abduce_by_search_body add_kb_const_key (mk_args [PInt 0; PInt 0] (PInt 1) PNone 2 0)
    = Ok ([[PInt 1; PInt 0]; [PInt 0; PInt 1]], [PInt 1; PInt 1]).
Proof. split; [done|]. split; vm_compute; reflexivity. Qed.

(** ** Revision bounds of the calls *)

(** C1.  For an instance built by [__init__], a call of [abduce_candidates]
    (that is, of the decorated [_abduce_by_search]) with bounds
    [max_revision_num >= 0] and [require_more_revision >= 0] that returns a
    non-empty candidate list, made with caching off, or with caching on, a
    [key_func] that maps different values to different keys, and a cache
    that has served only this instance, whatever calls and [clear_cache]
    came before: there is a minimal revision count [min_k], the first level
    at which [_revision] finds a match, such that every returned candidate
    differs from [pseudo_label] at a number of positions between [min_k] and
    [min (min_k + require_more_revision) max_revision_num]; with
    [require_more_revision = 0] that number is exactly [min_k]. *)
Theorem abduce_by_search_revision_bounds (cls : KBClass) (labels : pyval) (max_err0 : Q)
    (use_cache0 : bool) (key_func0 : pyval → pyval) (cache_size0 : option Z)
    (self : KBBase) (log : list (log_level * string))
    (ops : list cache_op) (cache_instance : Cache.Cache abduced)
    pseudo_label y x (max_revision_num require_more_revision : Z)
    candidates reasoning_results :
  __init__ cls labels max_err0 use_cache0 key_func0 cache_size0 = Ok (self, log) →
  (use_cache self = false ∨
   (Inj (=) (=) key_func0 ∧ Forall (op_by self) ops ∧
    cache_instance = run_ops _abduce_by_search_body ops Cache.__init__)) →
  0 ≤ max_revision_num → 0 ≤ require_more_revision →
  (abduce_candidates self
     (mk_args pseudo_label y x max_revision_num require_more_revision)
     cache_instance).1
  = Ok (Some (candidates, reasoning_results)) →
  candidates ≠ [] →
  ∃ min_k : nat,
    (∃ cs rs, _revision self min_k pseudo_label y x = Ok (cs, rs) ∧ cs ≠ []) ∧
    (∀ j : nat, (j < min_k)%nat → _revision self j pseudo_label y x = Ok ([], [])) ∧
    (∀ c, c ∈ candidates →
       length c = length pseudo_label ∧
       Z.of_nat min_k ≤ Z.of_nat (diff_count pseudo_label c)
         ≤ Z.min (Z.of_nat min_k + require_more_revision) max_revision_num) ∧
    (require_more_revision = 0 →
       ∀ c, c ∈ candidates → diff_count pseudo_label c = min_k).
Proof.
  intros Hinit Hcache Hmax Hmore Hcall Hne.
  apply (_abduce_by_search_body_revision_bounds self pseudo_label y x
           max_revision_num require_more_revision candidates reasoning_results);
    try done.
  unfold abduce_candidates, _abduce_by_search in Hcall.
  destruct (use_cache self) eqn:Huse.
  - destruct Hcache as [?|(Hinj & Hops & ->)]; [done|].
    assert (_num_args self ≠ 2 ∧ key_func self = key_func0) as [Hn Hkf].
    { unfold __init__ in Hinit. destruct labels as [| | |labels]; try done.
      destruct (bool_decide (Z.of_nat (length (argspec_args cls)) - 1 = 2)) eqn:Hb;
        destruct use_cache0; simpl in Hinit; injection Hinit as <- _; simpl in *;
        try done.
      by apply bool_decide_eq_false in Hb. }
    apply (wrapper_run_ops_Ok _abduce_by_search_body self Huse) in Hcall; [| |done].
    + unfold uncached in Hcall.
      destruct (_abduce_by_search_body self _) as [r|e]; [|done]. by injection Hcall as ->.
    + intros a a'. apply _abduce_by_search_body_key; [by rewrite Hkf | done].
  - unfold Cache.wrapper in Hcall. rewrite Huse in Hcall. simpl in Hcall.
    destruct (_abduce_by_search_body self _) as [r|e]; [|done]. by injection Hcall as ->.
Qed.

Lemma abduce_by_search_revision_bounds_witness :
  ∃ min_k : nat,
    (∃ cs rs, _revision add_kb_default min_k [PInt 0; PInt 0] (PInt 2) PNone = Ok (cs, rs) ∧
       cs ≠ []) ∧
    (∀ j : nat, (j < min_k)%nat →
       _revision add_kb_default j [PInt 0; PInt 0] (PInt 2) PNone = Ok ([], [])) ∧
    (∀ c, c ∈ [[PInt 1; PInt 1]] →
       length c = length [PInt 0; PInt 0] ∧
       Z.of_nat min_k ≤ Z.of_nat (diff_count [PInt 0; PInt 0] c)
         ≤ Z.min (Z.of_nat min_k + 0) 2) ∧
    (0 = 0 → ∀ c, c ∈ [[PInt 1; PInt 1]] → diff_count [PInt 0; PInt 0] c = min_k).
Proof.
  apply (abduce_by_search_revision_bounds AddKB (PList [PInt 0; PInt 1]) default_max_err
           true to_hashable default_cache_size add_kb_default []
           [Lookup add_kb_default (mk_args [PInt 0; PInt 0] (PInt 1) PNone 2 0); Clear]
           (run_ops _abduce_by_search_body
              [Lookup add_kb_default (mk_args [PInt 0; PInt 0] (PInt 1) PNone 2 0); Clear]
              Cache.__init__)
           [PInt 0; PInt 0] (PInt 2) PNone 2 0 [[PInt 1; PInt 1]] [PInt 2]).
  - reflexivity.
  - right. split; [by intros v w Hvw|]. split; [|reflexivity].
    repeat constructor.
  - lia.
  - lia.
  - vm_compute. reflexivity.
  - discriminate.
Defined.

(** With a key function that maps every value to one key, a call for target
    [1] made after a call for target [2] returns the candidate [[1, 1]]
    stored for target [2]: it differs from [[0, 0]] at two positions, while
    the first level with a match for target [1] is level 1, so no [min_k]
    bounds the revisions of this call as the statement above does. *)
Lemma revision_bounds_fail_const_key :
  __init__ AddKB (PList [PInt 0; PInt 1]) default_max_err true (λ _, PNone) (Some 4096)
    = Ok (add_kb_const_key, []) ∧
  (abduce_candidates add_kb_const_key (mk_args [PInt 0; PInt 0] (PInt 1) PNone 2 0)
     (abduce_candidates add_kb_const_key (mk_args [PInt 0; PInt 0] (PInt 2) PNone 2 0)
        Cache.__init__).2).1
    = Ok (Some ([[PInt 1; PInt 1]], [PInt 2])) ∧
  ¬ ∃ min_k : nat,
      (∃ cs rs, _revision add_kb_const_key min_k [PInt 0; PInt 0] (PInt 1) PNone
                = Ok (cs, rs) ∧ cs ≠ []) ∧
      (∀ j : nat, (j < min_k)%nat →
         _revision add_kb_const_key j [PInt 0; PInt 0] (PInt 1) PNone = Ok ([], [])) ∧
      (∀ c, c ∈ [[PInt 1; PInt 1]] →
         length c = length [PInt 0; PInt 0] ∧
         Z.of_nat min_k ≤ Z.of_nat (diff_count [PInt 0; PInt 0] c)
           ≤ Z.min (Z.of_nat min_k + 0) 2).
Proof.
  split; [done|]. split; [vm_compute; reflexivity|].
  intros (min_k & (cs & rs & Hrev & Hne) & Hbelow & Hbounds).
  destruct min_k as [|[|min_k]].
  - vm_compute in Hrev. by injection Hrev as <- _.
  - destruct (Hbounds [PInt 1; PInt 1]) as [_ [_ Hle]]; [left|].
    vm_compute in Hle. done.
  - specialize (Hbelow 1%nat ltac:(lia)). vm_compute in Hbelow. done.
Qed.

(** ** The number of entries *)

Section cache_size.
Context {T : Type} (func : KBBase → search_args → res T).
Implicit Types (c : Cache.Cache T) (obj : KBBase).

Lemma get_from_dict_same_config c obj args :
  same_config c (Cache.get_from_dict func c obj args).2.
Proof.
  unfold Cache.get_from_dict.
  destruct (Cache.key_func c) as [kf|]; [|done].
  destruct (Cache.cache_dict c !! Cache.make_cache_key kf args); [done|].
  destruct (func obj args); [|done]. simpl.
  destruct (Cache.full c).
  - repeat match goal with
           | |- context [match ?o with Some _ => _ | None => _ end] => destruct o
           end; done.
  - by destruct (Cache.max_size c).
Qed.

Lemma get_from_dict_size_ok c obj args (n : Z) :
  Cache.max_size c = Some n → size_ok n c →
  size_ok n (Cache.get_from_dict func c obj args).2.
Proof.
  intros Hms [Hle Hlt]. unfold Cache.get_from_dict.
  assert (∀ c', Cache.cache_dict c' = Cache.cache_dict c → Cache.full c' = Cache.full c →
            size_ok n c') as Hsame.
  { intros c' Hd Hf. unfold size_ok. by rewrite Hd, Hf. }
  destruct (Cache.key_func c) as [kf|]; [|by apply Hsame].
  destruct (Cache.cache_dict c !! Cache.make_cache_key kf args) as [l|] eqn:Hl;
    [by apply Hsame|].
  destruct (func obj args) as [r|e]; [|by apply Hsame]. simpl.
  destruct (Cache.full c) eqn:Hfull.
  - match goal with
    | |- context [match ?oldkey with Some _ => _ | None => _ end] =>
        destruct oldkey as [k|]
    end; [|by apply Hsame].
    destruct (Cache.cache_dict c !! k) eqn:Hk; [|by apply Hsame].
    unfold size_ok. simpl.
    rewrite map_size_insert_None
      by (rewrite lookup_delete_ne; [done | congruence]).
    rewrite map_size_delete_Some by done.
    assert (size (Cache.cache_dict c) ≠ 0%nat).
    { intros H0%map_size_empty_inv. by rewrite H0 in Hk. }
    split; [lia | congruence].
  - rewrite Hms. unfold size_ok. simpl.
    rewrite map_size_insert_None by done. specialize (Hlt eq_refl).
    split; [lia|]. intros Hf. rewrite Z.geb_leb in Hf. apply Z.leb_gt in Hf. lia.
Qed.

Lemma init_cache_size_inv c obj : size_inv c → size_inv (Cache.init_cache c obj).
Proof.
  intros Hc. unfold Cache.init_cache. destruct (Cache.has_init c); [done|].
  unfold size_inv, size_ok. simpl. destruct (cache_size obj); [|done].
  rewrite map_size_empty. lia.
Qed.

Lemma run_ops_size_inv (ops : list cache_op) c :
  size_inv c → size_inv (run_ops func ops c).
Proof.
  revert c. induction ops as [|op ops IH]; intros c Hc; simpl; [done|].
  apply IH. destruct op as [obj args|]; simpl.
  - unfold Cache.wrapper. destruct (use_cache obj); [|done]. simpl.
    apply (init_cache_size_inv c obj) in Hc. unfold size_inv in *.
    destruct (get_from_dict_same_config (Cache.init_cache c obj) obj args) as (_ & -> & _).
    destruct (Cache.max_size (Cache.init_cache c obj)) as [n|] eqn:Hn; [|done].
    by apply get_from_dict_size_ok.
  - unfold size_inv, size_ok in *. simpl.
    destruct (Cache.max_size c); [|done]. rewrite map_size_empty. lia.
Qed.

(** When every call goes through [obj], the capacity is the initial [0] or
    [obj.cache_size]. *)
Lemma run_ops_max_size obj (ops : list cache_op) c :
  Forall (op_by obj) ops →
  (Cache.has_init c = false ∧ Cache.max_size c = Some 0) ∨
  Cache.max_size c = cache_size obj →
  Cache.max_size (run_ops func ops c) = Some 0 ∨
  Cache.max_size (run_ops func ops c) = cache_size obj.
Proof.
  revert c. induction ops as [|op ops IH]; intros c Hops Hc; simpl.
  - destruct Hc as [[_ ?]|?]; auto.
  - inversion Hops as [|?? Hop Hops']; subst. apply IH; [done|].
    destruct op as [obj' args|]; simpl; [|done].
    simpl in Hop. subst obj'. unfold Cache.wrapper.
    destruct (use_cache obj); [|done]. simpl. right.
    destruct (get_from_dict_same_config (Cache.init_cache c obj) obj args) as (_ & -> & _).
    unfold Cache.init_cache. destruct (Cache.has_init c) eqn:Hi; [|done].
    by destruct Hc as [[? _]|?].
Qed.

(** With capacity [0] every successful lookup leaves the cache full and
    holding the key of that lookup and nothing else. *)
Lemma wrapper_zero_capacity obj c args :
  use_cache obj = true → cache_size obj = Some 0 →
  (∃ r, func obj args = Ok r) →
  c = Cache.__init__ ∨
  (post_init (λ _ _, True) obj c ∧ Cache.full c = true ∧
   ∃ k, dom (Cache.cache_dict c) = {[k]}) →
  let c' := (Cache.wrapper func obj args c).2 in
  post_init (λ _ _, True) obj c' ∧ Cache.full c' = true ∧
  dom (Cache.cache_dict c') = {[Cache.make_cache_key (key_func obj) args]}.
Proof.
  intros Huse Hzero [r Hr] Hc. unfold Cache.wrapper. rewrite Huse. simpl.
  assert (post_init (λ _ _, True) obj (Cache.init_cache c obj)) as Hpost.
  { apply init_cache_post_init. destruct Hc as [?|[? _]]; auto. }
  destruct (get_from_dict_post_init func obj (λ _ _, True) _ args Hpost)
    as [Hpost' Hspec]; [done|].
  split; [done|]. rewrite Hr, Hzero in Hspec.
  destruct Hc as [->|(Hp & Hfull & k & Hdom)].
  - change (Cache.init_cache Cache.__init__ obj) with
      (Cache.init_cache (T := T) Cache.__init__ obj) in *.
    unfold Cache.init_cache in Hspec at 1 2. simpl in Hspec.
    rewrite lookup_empty in Hspec. destruct Hspec as (_ & l & -> & ->).
    split; [apply Z.geb_le; lia|]. by rewrite dom_insert_L, dom_empty_L, union_empty_r_L.
  - rewrite (init_cache_idemp c obj) in * by (by destruct Hp).
    destruct (Cache.cache_dict c !! Cache.make_cache_key (key_func obj) args) as [l|] eqn:Hl.
    + destruct Hspec as (_ & -> & ->). split; [done|].
      assert (Cache.make_cache_key (key_func obj) args ∈ dom (Cache.cache_dict c)) as Hin
        by (apply elem_of_dom; eauto).
      rewrite Hdom in Hin |- *. apply elem_of_singleton in Hin. by rewrite Hin.
    + rewrite Hfull in Hspec. destruct Hspec as (_ & k0 & l & Hk0 & -> & ->).
      split; [done|]. rewrite dom_insert_L, dom_delete_L, Hdom.
      apply elem_of_dom in Hk0. rewrite Hdom in Hk0. apply elem_of_singleton in Hk0 as ->.
      by rewrite difference_diag_L, union_empty_r_L.
Qed.

(** C10.  Whatever calls, through whatever instances, and whatever
    [clear_cache] are made on the cache, its dictionary never holds more than
    [max n 1] entries, [n] being the integer capacity the cache is bound to;
    when every call goes through one instance with [cache_size = n], that
    bound is [max n 1] for this [n]; and with [cache_size = 0] and caching
    on, after every successful call the cache is full and its dictionary
    holds one entry, the key of that call. *)
Theorem cache_dict_bounded :
  (∀ (ops : list cache_op) (n : Z),
     Cache.max_size (run_ops func ops Cache.__init__) = Some n →
     Z.of_nat (size (Cache.cache_dict (run_ops func ops Cache.__init__))) ≤ Z.max n 1) ∧
  (∀ obj (ops : list cache_op) (n : Z),
     Forall (op_by obj) ops → cache_size obj = Some n →
     Z.of_nat (size (Cache.cache_dict (run_ops func ops Cache.__init__))) ≤ Z.max n 1) ∧
  (∀ obj (previous : list search_args) (args : search_args),
     cache_size obj = Some 0 → use_cache obj = true →
     (∀ a, a ∈ previous ++ [args] → ∃ r, func obj a = Ok r) →
     let c := run_ops func (Lookup obj <$> previous ++ [args]) Cache.__init__ in
     Cache.full c = true ∧
     dom (Cache.cache_dict c) = {[Cache.make_cache_key (key_func obj) args]} ∧
     size (Cache.cache_dict c) = 1%nat).
Proof.
  assert (∀ (ops : list cache_op) (n : Z),
            Cache.max_size (run_ops func ops Cache.__init__) = Some n →
            Z.of_nat (size (Cache.cache_dict (run_ops func ops Cache.__init__)))
            ≤ Z.max n 1) as Hbound.
  { intros ops n Hn.
    assert (size_inv (run_ops func ops Cache.__init__)) as Hinv.
    { apply run_ops_size_inv. unfold size_inv, size_ok. simpl. rewrite map_size_empty. lia. }
    unfold size_inv in Hinv. rewrite Hn in Hinv. by destruct Hinv. }
  split; [done|]. split.
  - intros obj ops n Hops Hn.
    destruct (run_ops_max_size obj ops Cache.__init__ Hops) as [H0|Hobj]; [by left| |].
    + pose proof (Hbound ops 0 H0). lia.
    + apply Hbound. by rewrite Hobj.
  - intros obj previous args Hn Huse Hok.
    assert (∀ (argss : list search_args) c a,
              (∀ a', a' ∈ argss ++ [a] → ∃ r, func obj a' = Ok r) →
              c = Cache.__init__ ∨
              (post_init (λ _ _, True) obj c ∧ Cache.full c = true ∧
               ∃ k, dom (Cache.cache_dict c) = {[k]}) →
              let c' := run_ops func (Lookup obj <$> argss ++ [a]) c in
              Cache.full c' = true ∧
              dom (Cache.cache_dict c') = {[Cache.make_cache_key (key_func obj) a]})
      as Hrun.
    { induction argss as [|a0 argss IH]; intros c a Hall Hc; simpl.
      - destruct (wrapper_zero_capacity obj c a Huse Hn) as (_ & ? & ?); try done.
        apply Hall. left.
      - apply IH; [intros a' Ha'; apply Hall; by right|]. right.
        destruct (wrapper_zero_capacity obj c a0 Huse Hn) as (? & ? & ?); try done.
        + apply Hall. left.
        + eauto. }
    destruct (Hrun previous Cache.__init__ args Hok) as [Hfull Hdom]; [by left|].
    split; [done|]. split; [done|].
    by rewrite <- size_dom, Hdom, size_singleton.
Qed.

End cache_size.

Lemma cache_dict_bounded_witness :
  let c := run_ops _abduce_by_search_body
             (Lookup (add_kb (Some 0)) <$>
                [mk_args [PInt 0; PInt 0] (PInt 2) PNone 2 0] ++
                [mk_args [PInt 0; PInt 0] (PInt 1) PNone 2 0])
             Cache.__init__ in
  Cache.full c = true ∧
  dom (Cache.cache_dict c)
  = {[Cache.make_cache_key (key_func (add_kb (Some 0)))
        (mk_args [PInt 0; PInt 0] (PInt 1) PNone 2 0)]} ∧
  size (Cache.cache_dict c) = 1%nat.
Proof.
  apply (proj2 (proj2 (cache_dict_bounded _abduce_by_search_body))
           (add_kb (Some 0)) _ _ eq_refl eq_refl).
  intros a Ha.
  apply elem_of_cons in Ha as [->|Ha]; [eexists; vm_compute; reflexivity|].
  apply list_elem_of_singleton in Ha as ->. eexists. vm_compute. reflexivity.
Defined.

(** ** Defects *)

(** C7.  On a cache of capacity [1], a first call fills the cache,
    [clear_cache] empties the dictionary but leaves [full] set and the list
    of links in place, and the next call with a new key raises [KeyError]
    when it deletes the key of the oldest link. *)
Theorem lookup_after_clear_cache_raises :
  let kb := add_kb (Some 1) in
  let first := _abduce_by_search kb (mk_args [PInt 0; PInt 0] (PInt 2) PNone 2 0)
                 Cache.__init__ in
  let second := _abduce_by_search kb (mk_args [PInt 0; PInt 0] (PInt 1) PNone 2 0)
                  (Cache.clear_cache first.2) in
  first.1 = Ok (Some ([[PInt 1; PInt 1]], [PInt 2])) ∧
  Cache.full first.2 = true ∧
  Cache.full (Cache.clear_cache first.2) = true ∧
  _abduce_by_search_body kb (mk_args [PInt 0; PInt 0] (PInt 1) PNone 2 0)
    = Ok ([[PInt 1; PInt 0]; [PInt 0; PInt 1]], [PInt 1; PInt 1]) ∧
  second.1 = Raise KeyError.
Proof. vm_compute. done. Qed.

(** C4.  The cache belongs to the decorated method, not to an instance: after
    a call through an [AddKB] instance, the same call through a [MulKB]
    instance, whose own search returns [[1, 1]], is a hit that returns the
    candidates the [AddKB] instance stored; and the capacity stays the one
    of the first instance. *)
Theorem cache_shared_between_instances :
  let args := mk_args [PInt 0; PInt 0] (PInt 1) PNone 2 0 in
  let first := _abduce_by_search (add_kb (Some 1)) args Cache.__init__ in
  let second := _abduce_by_search mul_kb args first.2 in
  first.1 = Ok (Some ([[PInt 1; PInt 0]; [PInt 0; PInt 1]], [PInt 1; PInt 1])) ∧
  _abduce_by_search_body mul_kb args = Ok ([[PInt 1; PInt 1]], [PInt 1]) ∧
  second.1 = Ok (Some ([[PInt 1; PInt 0]; [PInt 0; PInt 1]], [PInt 1; PInt 1])) ∧
  Cache.hits second.2 = 1%nat ∧
  cache_size mul_kb = Some 4096 ∧
  Cache.max_size second.2 = Some 1.
Proof. vm_compute. done. Qed.

(** * Further properties of the revision search *)

(** ** [_check_equal] *)

Lemma py_eq_sym (a b : pyval) : py_eq a b = py_eq b a.
Proof.
  destruct (py_eq a b) eqn:Hab, (py_eq b a) eqn:Hba; try done.
  - apply py_eq_spec in Hab as ->. rewrite (proj2 (py_eq_spec b b) eq_refl) in Hba. done.
  - apply py_eq_spec in Hba as ->. rewrite (proj2 (py_eq_spec a a) eq_refl) in Hab. done.
Qed.

(** X1.  [_check_equal] does not depend on the order of its two arguments:
    a result is accepted for [y] exactly when [y] is accepted for the
    result. *)
Theorem _check_equal_sym (self : KBBase) (reasoning_result y : pyval) :
  _check_equal self reasoning_result y = _check_equal self y reasoning_result.
Proof.
  unfold _check_equal.
  destruct reasoning_result as [|a|s|l], y as [|b|t|m]; try done.
  - by replace (Z.abs (b - a)) with (Z.abs (a - b)) by lia.
  - apply (py_eq_sym (PStr s) (PStr t)).
  - apply (py_eq_sym (PList l) (PList m)).
Qed.

(** X2.  On values other than floats, which are outside the model ([None],
    integers, strings and lists of these), and with a tolerance of at least
    [0] and below [1], as the default [1e-10] is, [_check_equal] accepts a
    result exactly when it is not [None] and equals [y]: between two
    integers such a tolerance allows no difference, and every other pair is
    compared with [==]. *)
Theorem _check_equal_exact (self : KBBase) (reasoning_result y : pyval) :
  (0 <= max_err self)%Q → (max_err self < 1)%Q →
  _check_equal self reasoning_result y = true ↔
  reasoning_result ≠ PNone ∧ reasoning_result = y.
Proof.
  intros Hlo Hhi. unfold _check_equal.
  destruct reasoning_result as [|a|s|l].
  - split; [done | by intros [? _]].
  - destruct y as [|b|t|m]; try (split; [done | by intros [_ ?]]).
    rewrite Qle_bool_iff. split.
    + intros Hle. split; [done|].
      assert (inject_Z (Z.abs (a - b)) < 1)%Q as Hlt by (by eapply Qle_lt_trans).
      unfold Qlt in Hlt. simpl in Hlt. f_equal. lia.
    + intros [_ [= ->]]. by rewrite Z.sub_diag.
  - rewrite py_eq_spec. split; [by intros <- | by intros [_ ?]].
  - rewrite py_eq_spec. split; [by intros <- | by intros [_ ?]].
Qed.

Lemma _check_equal_exact_witness :
  _check_equal add_kb_default (PInt 3) (PInt 3) = true ↔ PInt 3 ≠ PNone ∧ PInt 3 = PInt 3.
Proof.
  apply (_check_equal_exact add_kb_default (PInt 3) (PInt 3)).
  - vm_compute. discriminate.
  - vm_compute. reflexivity.
Defined.

(** ** [revise_at_idx] *)

Lemma list_setitem_length {A} (l l' : list A) idx v :
  list_setitem l idx v = Ok l' → length l' = length l.
Proof. intros (j & _ & ->)%list_setitem_Ok. apply length_insert. Qed.

Lemma list_setitem_Raise {A} (l : list A) idx v e :
  list_setitem l idx v = Raise e ↔ e = IndexError ∧ ¬ index_in_range (length l) idx.
Proof.
  unfold list_setitem, index_in_range. repeat case_bool_decide; split; try done.
  - intros [_ H']. destruct H'. lia.
  - intros [_ H']. destruct H'. lia.
  - intros [= <-]. split; [done | lia].
  - by intros [-> _].
Qed.

Lemma assign_at_Raise (candidate : list pyval) revision_idx c e :
  length c = length revision_idx →
  assign_at candidate revision_idx c = Raise e ↔
  e = IndexError ∧ Exists (λ idx, ¬ index_in_range (length candidate) idx) revision_idx.
Proof.
  revert candidate c. induction revision_idx as [|idx idxs IH]; intros candidate c Hlen; simpl.
  - split; [done | intros [_ H]; inversion H].
  - destruct c as [|v c]; [done|].
    destruct (list_setitem candidate idx v) as [candidate'|e'] eqn:Hset; simpl.
    + rewrite IH by (by inversion Hlen). rewrite (list_setitem_length _ _ _ _ Hset).
      split; intros [-> Hex]; (split; [done|]).
      * by right.
      * inversion Hex as [?? Hbad|]; subst; [|done].
        assert (list_setitem candidate idx v = Raise IndexError) as Hr
          by (by apply list_setitem_Raise).
        congruence.
    + apply list_setitem_Raise in Hset as [-> Hbad]. split.
      * intros [= <-]. split; [done | by left].
      * by intros [-> _].
Qed.

Lemma assign_at_is_Ok (candidate : list pyval) revision_idx c :
  length c = length revision_idx →
  Forall (index_in_range (length candidate)) revision_idx →
  ∃ candidate', assign_at candidate revision_idx c = Ok candidate'.
Proof.
  intros Hlen Hall. destruct (assign_at candidate revision_idx c) as [c'|e] eqn:H; [eauto|].
  apply assign_at_Raise in H as [_ Hex]; [|done].
  apply Exists_exists in Hex as (idx & Hin & Hbad).
  destruct Hbad. by eapply Forall_forall in Hall.
Qed.

(** What [revise_at_idx_loop] adds to the lists it is started with. *)
Lemma revise_at_idx_loop_Ok_inv (self : KBBase) pseudo_label y x revision_idx abduce_c
    candidates reasoning_results cs rs :
  revise_at_idx_loop self pseudo_label y x revision_idx abduce_c
    candidates reasoning_results = Ok (cs, rs) →
  ∃ new, cs = candidates ++ new ∧
    rs = reasoning_results ++ map (λ c, call_logic_forward self c x) new ∧
    Forall (λ c, consistent self y x c = true) new ∧
    (length new ≤ length abduce_c)%nat.
Proof.
  revert candidates reasoning_results.
  induction abduce_c as [|c abduce_c IH]; intros candidates reasoning_results; simpl.
  - intros [= <- <-]. exists []. by rewrite !app_nil_r.
  - intros (candidate & Hassign & Hrest)%res_bind_Ok.
    destruct (_check_equal self (call_logic_forward self candidate x) y) eqn:Hc.
    + apply IH in Hrest as (new & -> & -> & Hall & Hlen).
      exists (candidate :: new). rewrite <- !app_assoc. simpl.
      split; [done|]. split; [done|]. split; [by constructor | lia].
    + apply IH in Hrest as (new & -> & -> & Hall & Hlen).
      exists new. split; [done|]. split; [done|]. split; [done | lia].
Qed.

Lemma revise_at_idx_loop_is_Ok (self : KBBase) pseudo_label y x revision_idx abduce_c
    candidates reasoning_results :
  (∀ c, c ∈ abduce_c →
     ∃ candidate, assign_at pseudo_label revision_idx c = Ok candidate) →
  ∃ r, revise_at_idx_loop self pseudo_label y x revision_idx abduce_c
         candidates reasoning_results = Ok r.
Proof.
  revert candidates reasoning_results.
  induction abduce_c as [|c abduce_c IH]; intros candidates reasoning_results Hok; simpl.
  - eauto.
  - destruct (Hok c) as [candidate ->]; [left|]. simpl.
    destruct (_check_equal _ _ _); apply IH; intros; apply Hok; by right.
Qed.

Lemma product_nil {A} (pool : list A) (r : nat) :
  product pool r = [] ↔ pool = [] ∧ r ≠ 0%nat.
Proof.
  split.
  - intros Hp. destruct r as [|r]; [done|]. split; [|done].
    destruct pool as [|a pool]; [done|].
    assert (replicate (S r) a ∈ product (a :: pool) (S r)) as Hin.
    { apply elem_of_product. split; [apply length_replicate|].
      apply Forall_forall. intros v ->%elem_of_replicate_inv. left. }
    rewrite Hp in Hin. by apply elem_of_nil in Hin.
  - intros [-> Hr]. by destruct r.
Qed.

Lemma product_length {A} (pool : list A) (r : nat) :
  length (product pool r) = (length pool ^ r)%nat.
Proof.
  induction r as [|r IH]; simpl; [done|].
  rewrite <- IH. generalize (product pool r). clear IH. intros rest.
  induction pool as [|a pool IHp]; simpl; [done|].
  rewrite length_app, length_map, IHp. lia.
Qed.

(** X3.  [revise_at_idx] raises exactly when the label space is not empty and one
    of the indices is outside [-len(pseudo_label), len(pseudo_label)); what it
    raises is [IndexError]. *)
Theorem revise_at_idx_Raise (self : KBBase) pseudo_label y x revision_idx e :
  revise_at_idx self pseudo_label y x revision_idx = Raise e ↔
  e = IndexError ∧ pseudo_label_list self ≠ [] ∧
  Exists (λ idx, ¬ index_in_range (length pseudo_label) idx) revision_idx.
Proof.
  unfold revise_at_idx.
  destruct (decide (Exists (λ idx, ¬ index_in_range (length pseudo_label) idx) revision_idx))
    as [Hbad|Hgood].
  - destruct (product (pseudo_label_list self) (length revision_idx)) as [|c cs] eqn:Hp.
    + apply product_nil in Hp as [Hnil _]. simpl. split; [done | by intros (_ & ? & _)].
    + assert (assign_at pseudo_label revision_idx c = Raise IndexError) as Hc.
      { apply assign_at_Raise; [|done].
        assert (c ∈ product (pseudo_label_list self) (length revision_idx)) as Hin
          by (rewrite Hp; left).
        by apply elem_of_product in Hin as [? _]. }
      simpl. rewrite Hc. simpl. split.
      * intros [= <-]. split; [done|]. split; [|done].
        intros Hnil. rewrite Hnil in Hp. destruct revision_idx; [inversion Hbad | done].
      * by intros (-> & _).
  - destruct (revise_at_idx_loop_is_Ok self pseudo_label y x revision_idx
                (product (pseudo_label_list self) (length revision_idx)) [] []) as [r ->].
    + intros c [Hlen _]%elem_of_product. apply assign_at_is_Ok; [done|].
      apply Forall_forall. intros idx Hin.
      destruct (decide (index_in_range (length pseudo_label) idx)) as [|Hout]; [done|].
      destruct Hgood. apply Exists_exists. eauto.
    + split; [done | by intros (_ & _ & ?)].
Qed.

(** X4.  The two lists [revise_at_idx] returns go together: the reasoning results
    are the oracle's results on the candidates, in the same order, each
    candidate has the length of [pseudo_label] and a result that
    [_check_equal] accepts for [y], and there is no more than one candidate
    for each assignment of labels to the revised positions. *)
Theorem revise_at_idx_aligned (self : KBBase) pseudo_label y x revision_idx
    candidates reasoning_results :
  revise_at_idx self pseudo_label y x revision_idx = Ok (candidates, reasoning_results) →
  reasoning_results = map (λ c, call_logic_forward self c x) candidates ∧
  Forall (λ c, length c = length pseudo_label ∧
               _check_equal self (call_logic_forward self c x) y = true) candidates ∧
  (length candidates ≤ length (pseudo_label_list self) ^ length revision_idx)%nat.
Proof.
  intros Hrev. unfold revise_at_idx in Hrev.
  pose proof Hrev as Hlen.
  apply (revise_at_idx_loop_Forall (λ c, length c = length pseudo_label)) in Hlen;
    [| by intros c candidate _ [? _]%assign_at_values | done].
  apply revise_at_idx_loop_Ok_inv in Hrev as (new & -> & -> & Hall & Hcount).
  simpl in *. split; [done|]. split.
  - apply Forall_forall. intros c Hc. split.
    + by eapply Forall_forall in Hlen.
    + by eapply Forall_forall in Hall.
  - by rewrite product_length in Hcount.
Qed.

Lemma revise_at_idx_aligned_witness :
  [PInt 8] = map (λ c, call_logic_forward add_kb_default c PNone) [[PInt 7; PInt 1]] ∧
  Forall (λ c, length c = length [PInt 7; PInt 0] ∧
               _check_equal add_kb_default (call_logic_forward add_kb_default c PNone) (PInt 8)
               = true) [[PInt 7; PInt 1]] ∧
  (length [[PInt 7; PInt 1]]
   ≤ length (pseudo_label_list add_kb_default) ^ length [1])%nat.
Proof.
  apply (revise_at_idx_aligned add_kb_default [PInt 7; PInt 0] (PInt 8) PNone [1]).
  vm_compute. reflexivity.
Defined.

(** X5.  A negative index counts from the end: revising at [idx] and revising at
    [idx mod len(pseudo_label)] are the same when every index is in range. *)
Theorem revise_at_idx_negative_index (self : KBBase) pseudo_label y x revision_idx :
  Forall (index_in_range (length pseudo_label)) revision_idx →
  revise_at_idx self pseudo_label y x revision_idx
  = revise_at_idx self pseudo_label y x
      (map (λ idx, idx `mod` Z.of_nat (length pseudo_label)) revision_idx).
Proof.
  intros Hall. unfold revise_at_idx. rewrite length_map.
  assert (∀ c candidate, length candidate = length pseudo_label →
            assign_at candidate revision_idx c
            = assign_at candidate
                (map (λ idx, idx `mod` Z.of_nat (length pseudo_label)) revision_idx) c)
    as Hassign.
  { induction Hall as [|idx idxs Hidx Hall IH]; intros c candidate Hlen; simpl; [done|].
    destruct c as [|v c]; [done|].
    assert (list_setitem candidate (idx `mod` Z.of_nat (length pseudo_label)) v
            = list_setitem candidate idx v) as ->.
    { unfold index_in_range in Hidx. unfold list_setitem. rewrite Hlen.
      destruct (decide (0 ≤ idx)) as [Hpos|Hneg].
      - by rewrite Z.mod_small by lia.
      - assert (idx `mod` Z.of_nat (length pseudo_label)
                = Z.of_nat (length pseudo_label) + idx) as ->
          by (symmetry; apply Z.mod_unique_pos with (q := -1); lia).
        rewrite (bool_decide_eq_true_2 (0 ≤ _ + idx < _)) by lia.
        rewrite (bool_decide_eq_false_2 (0 ≤ idx < _)) by lia.
        by rewrite (bool_decide_eq_true_2 (- _ ≤ idx < 0)) by lia. }
    destruct (list_setitem candidate idx v) as [candidate'|] eqn:Hset; simpl; [|done].
    apply IH. by rewrite (list_setitem_length _ _ _ _ Hset). }
  generalize (product (pseudo_label_list self) (length revision_idx)).
  intros abduce_c. generalize (@nil (list pyval)) (@nil pyval).
  induction abduce_c as [|c abduce_c IH]; intros cs rs; simpl; [done|].
  rewrite <- Hassign by done.
  destruct (assign_at pseudo_label revision_idx c); simpl; [|done].
  destruct (_check_equal _ _ _); apply IH.
Qed.

Lemma revise_at_idx_negative_index_witness :
  revise_at_idx add_kb_default [PInt 7; PInt 0] (PInt 8) PNone [-1]
  = revise_at_idx add_kb_default [PInt 7; PInt 0] (PInt 8) PNone
      (map (λ idx, idx `mod` Z.of_nat (length [PInt 7; PInt 0])) [-1]).
Proof.
  apply (revise_at_idx_negative_index add_kb_default [PInt 7; PInt 0] (PInt 8) PNone [-1]).
  repeat constructor; simpl; lia.
Defined.

(** ** Distinct candidates *)

Lemma NoDup_product {A} (pool : list A) (r : nat) :
  NoDup pool → NoDup (product pool r).
Proof.
  intros Hpool. induction r as [|r IH]; simpl; [apply NoDup_singleton|].
  generalize (product pool r) IH. clear IH. intros rest Hrest.
  induction Hpool as [|a pool Ha _ IHp]; simpl; [constructor|].
  apply NoDup_app. split; [|split; [|done]].
  - by apply (NoDup_fmap_2 (cons a)).
  - intros vs (ws & -> & _)%list_elem_of_fmap Hin.
    apply list_elem_of_In, in_flat_map in Hin as (b & Hb%list_elem_of_In & Hin).
    apply list_elem_of_In, list_elem_of_fmap in Hin as (ws' & [= <- _] & _). done.
Qed.

Lemma overlay_lookup_notin (candidate : list pyval) js vs (j : nat) :
  j ∉ js → overlay candidate js vs !! j = candidate !! j.
Proof.
  revert candidate vs. induction js as [|j' js IH]; intros candidate [|v vs] Hj; simpl;
    try done.
  rewrite IH by (intros Hin; apply Hj; by right).
  apply list_lookup_insert_ne. intros ->. apply Hj. left.
Qed.

(** Distinct values at distinct positions give distinct sequences. *)
Lemma overlay_inj (candidate : list pyval) js vs vs' :
  NoDup js → Forall (λ j, (j < length candidate)%nat) js →
  length vs = length js → length vs' = length js →
  overlay candidate js vs = overlay candidate js vs' → vs = vs'.
Proof.
  intros Hnd. revert candidate vs vs'.
  induction Hnd as [|j js Hj _ IH]; intros candidate vs vs' Hjs Hlen Hlen' Heq.
  - destruct vs, vs'; done.
  - destruct vs as [|v vs], vs' as [|v' vs']; try done. simpl in *.
    inversion Hjs as [|?? Hjlt Hjs']; subst.
    assert (v = v') as <-.
    { apply (f_equal (λ c, c !! j)) in Heq.
      rewrite !overlay_lookup_notin, !list_lookup_insert_eq in Heq by done.
      by injection Heq. }
    f_equal. apply (IH (<[j := v]> candidate)); try done; try lia.
    eapply Forall_impl; [done|]. intros ??. by rewrite length_insert.
Qed.

(** X6.  When [pseudo_label_list] holds no label twice, [revise_at_idx] at
    distinct positions of the sequence returns no candidate twice: different
    assignments of labels to the positions yield different candidates. *)
Theorem revise_at_idx_NoDup (self : KBBase) pseudo_label y x (js : list nat)
    candidates reasoning_results :
  NoDup (pseudo_label_list self) → NoDup js →
  Forall (λ j, (j < length pseudo_label)%nat) js →
  revise_at_idx self pseudo_label y x (map Z.of_nat js)
  = Ok (candidates, reasoning_results) →
  NoDup candidates.
Proof.
  intros Hlabels Hnd Hjs. rewrite revise_at_idx_in_range by done. intros [= <- _].
  apply NoDup_filter, NoDup_fmap_2_strong; [|by apply NoDup_product].
  intros vs vs' [Hlen _]%elem_of_product [Hlen' _]%elem_of_product.
  by apply overlay_inj.
Qed.

Lemma revise_at_idx_NoDup_witness :
  NoDup [[PInt 0; PInt 1]; [PInt 1; PInt 0]].
Proof.
  apply (revise_at_idx_NoDup add_kb_default [PInt 0; PInt 0] (PInt 1) PNone [0; 1]%nat
           [[PInt 0; PInt 1]; [PInt 1; PInt 0]] [PInt 1; PInt 1]).
  - apply NoDup_cons. split; [|apply NoDup_singleton].
    intros Hin%list_elem_of_singleton. discriminate.
  - apply NoDup_cons. split; [|apply NoDup_singleton].
    intros Hin%list_elem_of_singleton. discriminate.
  - repeat constructor; simpl; lia.
  - vm_compute. reflexivity.
Defined.

(** ** The search in closed form *)

Lemma find_seq_first (P : nat → bool) (a m : nat) :
  match find P (seq a m) with
  | Some k =>
      P k = true ∧ (a ≤ k < a + m)%nat ∧ ∀ j : nat, (a ≤ j < k)%nat → P j = false
  | None => ∀ j : nat, (a ≤ j < a + m)%nat → P j = false
  end.
Proof.
  revert a. induction m as [|m IH]; intros a; simpl.
  - intros j Hj. lia.
  - destruct (P a) eqn:Ha.
    + split; [done|]. split; [lia|]. intros j Hj. lia.
    + specialize (IH (S a)). destruct (find P (seq (S a) m)) as [k|].
      * destruct IH as (Hk & Hrange & Hbelow). split; [done|]. split; [lia|].
        intros j Hj. destruct (decide (j = a)) as [->|]; [done|]. apply Hbelow. lia.
      * intros j Hj. destruct (decide (j = a)) as [->|]; [done|]. apply IH. lia.
Qed.

(** The second loop explores the levels of its range up to
    [max_revision_num]. *)
Lemma search_second_loop_seq (self : KBBase) pseudo_label y x (max_revision_num : Z)
    (a m : nat) candidates reasoning_results :
  search_second_loop self pseudo_label y x max_revision_num (seq a m)
    candidates reasoning_results
  = Ok (candidates ++
          flat_map (level_candidates self pseudo_label y x)
            (seq a (Nat.min m (Z.to_nat (max_revision_num - Z.of_nat a + 1)))),
        reasoning_results ++
          map (λ c, call_logic_forward self c x)
            (flat_map (level_candidates self pseudo_label y x)
               (seq a (Nat.min m (Z.to_nat (max_revision_num - Z.of_nat a + 1)))))).
Proof.
  revert a candidates reasoning_results.
  induction m as [|m IH]; intros a candidates reasoning_results; simpl.
  - by rewrite !app_nil_r.
  - destruct (Z.gtb_spec (Z.of_nat a) max_revision_num) as [Hgt|Hle].
    + replace (Z.to_nat (max_revision_num - Z.of_nat a + 1)) with 0%nat by lia.
      simpl. by rewrite !app_nil_r.
    + rewrite _revision_Ok. simpl. rewrite IH.
      replace (Z.to_nat (max_revision_num - Z.of_nat a + 1))
        with (S (Z.to_nat (max_revision_num - Z.of_nat (S a) + 1))) by lia.
      simpl. by rewrite map_app, !app_assoc.
Qed.

(** The first loop stops at the first level with a candidate, or at the first
    level that reaches [max_revision_num]. *)
Lemma search_first_loop_seq (self : KBBase) pseudo_label y x (max_revision_num : Z)
    (a m : nat) :
  search_first_loop self pseudo_label y x max_revision_num (seq a m) [] []
  = match find (λ k, bool_decide
                       (0 < length (level_candidates self pseudo_label y x k))%nat)
            (seq a m) with
    | Some k =>
        if bool_decide (Z.of_nat k ≤ Z.max max_revision_num (Z.of_nat a)) then
          Ok (Break k (level_candidates self pseudo_label y x k)
                (map (λ c, call_logic_forward self c x)
                   (level_candidates self pseudo_label y x k)))
        else Ok (Return ([], []))
    | None =>
        if bool_decide (Z.of_nat (a + m) ≤ Z.max max_revision_num (Z.of_nat a)) then
          Ok (Exhausted [] [])
        else Ok (Return ([], []))
    end.
Proof.
  revert a. induction m as [|m IH]; intros a; simpl.
  - rewrite bool_decide_eq_true_2 by lia. done.
  - rewrite _revision_Ok. simpl.
    destruct (level_candidates self pseudo_label y x a) as [|c cs] eqn:Ha; simpl.
    + pose proof (find_seq_first
                    (λ k, bool_decide
                            (0 < length (level_candidates self pseudo_label y x k))%nat)
                    (S a) m) as Hfind.
      destruct (Z.geb_spec (Z.of_nat a) max_revision_num) as [Hge|Hlt].
      * destruct (find _ (seq (S a) m)) as [k|].
        -- destruct Hfind as (_ & Hk & _). by rewrite bool_decide_eq_false_2 by lia.
        -- by rewrite bool_decide_eq_false_2 by lia.
      * rewrite IH. destruct (find _ (seq (S a) m)) as [k|].
        -- destruct Hfind as (_ & Hk & _). repeat case_bool_decide; try done; lia.
        -- repeat case_bool_decide; try done; lia.
    + rewrite bool_decide_eq_true_2 by lia. by rewrite Ha.
Qed.

(** What [first_level] finds. *)
Lemma first_level_spec (self : KBBase) pseudo_label y x :
  match first_level self pseudo_label y x with
  | Some k =>
      level_candidates self pseudo_label y x k ≠ [] ∧ (k ≤ length pseudo_label)%nat ∧
      ∀ j : nat, (j < k)%nat → level_candidates self pseudo_label y x j = []
  | None =>
      ∀ j : nat, (j ≤ length pseudo_label)%nat → level_candidates self pseudo_label y x j = []
  end.
Proof.
  unfold first_level.
  pose proof (find_seq_first
                (λ k, bool_decide (0 < length (level_candidates self pseudo_label y x k))%nat)
                0 (length pseudo_label + 1)) as Hfind.
  destruct (find _ _) as [k|].
  - destruct Hfind as (Hk & Hrange & Hbelow). apply bool_decide_eq_true in Hk.
    split; [intros Hnil; rewrite Hnil in Hk; simpl in Hk; lia|]. split; [lia|].
    intros j Hj. specialize (Hbelow j ltac:(lia)). apply bool_decide_eq_false in Hbelow.
    destruct (level_candidates self pseudo_label y x j); [done | simpl in Hbelow; lia].
  - intros j Hj. specialize (Hfind j ltac:(lia)). apply bool_decide_eq_false in Hfind.
    destruct (level_candidates self pseudo_label y x j); [done | simpl in Hfind; lia].
Qed.

Lemma _abduce_by_search_body_search_result (self : KBBase) pseudo_label y x
    (max_revision_num require_more_revision : Z) :
  _abduce_by_search_body self
    (mk_args pseudo_label y x max_revision_num require_more_revision)
  = search_result self pseudo_label y x max_revision_num require_more_revision.
Proof.
  unfold _abduce_by_search_body, search_result, first_level. simpl.
  rewrite search_first_loop_seq. change (Z.of_nat 0) with 0.
  destruct (find _ _) as [k|]; simpl.
  - case_bool_decide; simpl; [|done].
    rewrite search_second_loop_seq. unfold explored_levels. simpl.
    replace (max_revision_num - Z.of_nat (S k) + 1) with (max_revision_num - Z.of_nat k)
      by lia.
    by rewrite map_app.
  - repeat case_bool_decide; try done; lia.
Qed.

(** X7.  The revision search is [search_result]: it returns the candidates of the
    levels from the first level with a candidate up to the two bounds, in
    the order of the levels, with their reasoning results; it returns
    [([], [])] without a candidate within [max_revision_num]; and it raises
    [UnboundLocalError] exactly when no level has a candidate and
    [max_revision_num] exceeds the length of the sequence. *)
Theorem abduce_by_search_closed_form (self : KBBase) (args : search_args) :
  _abduce_by_search_body self args
  = search_result self (arg_pseudo_label args) (arg_y args) (arg_x args)
      (arg_max_revision_num args) (arg_require_more_revision args).
Proof. destruct args. apply _abduce_by_search_body_search_result. Qed.

(** ** What the search returns *)

Lemma elem_of_flat_map {A B} (f : A → list B) (l : list A) (b : B) :
  b ∈ flat_map f l ↔ ∃ a, a ∈ l ∧ b ∈ f a.
Proof.
  rewrite list_elem_of_In, in_flat_map. split.
  - intros (a & Ha & Hb). exists a. by rewrite !list_elem_of_In.
  - intros (a & Ha & Hb). exists a. by rewrite <- !list_elem_of_In.
Qed.

Lemma revision_of_values (self : KBBase) pseudo_label c :
  revision_of self pseudo_label c ↔
  length c = length pseudo_label ∧
  ∀ (i : nat) v, c !! i = Some v →
    pseudo_label !! i = Some v ∨ v ∈ pseudo_label_list self.
Proof.
  unfold revision_of. rewrite Forall2_lookup. split.
  - intros Hall. split.
    + revert c Hall. induction pseudo_label as [|u pl IH]; intros [|v c] Hall; simpl.
      * done.
      * specialize (Hall 0%nat). inversion Hall.
      * specialize (Hall 0%nat). inversion Hall.
      * f_equal. apply IH. intros i. apply (Hall (S i)).
    + intros i v Hv. specialize (Hall i). rewrite Hv in Hall.
      inversion Hall as [u v' [->|Hin] Hu Hv'|]; subst; auto.
  - intros [Hlen Hvals] i.
    destruct (c !! i) as [v|] eqn:Hv.
    + destruct (pseudo_label !! i) as [u|] eqn:Hu.
      * constructor. destruct (Hvals i v Hv) as [Heq|Hin]; [left; congruence | by right].
      * apply lookup_lt_Some in Hv. apply lookup_ge_None in Hu. lia.
    + apply lookup_ge_None in Hv. rewrite (lookup_ge_None_2 pseudo_label i) by lia.
      constructor.
Qed.

Lemma level_candidates_revision_of (self : KBBase) pseudo_label y x (k : nat) c :
  c ∈ level_candidates self pseudo_label y x k →
  revision_of self pseudo_label c ∧ consistent self y x c = true ∧
  (diff_count pseudo_label c ≤ k)%nat.
Proof.
  intros (Hlen & Hd & Hcons & Hvals)%level_candidates_sound.
  split; [by apply revision_of_values | done].
Qed.

Lemma revision_of_level_candidates (self : KBBase) pseudo_label y x c :
  revision_of self pseudo_label c → consistent self y x c = true →
  c ∈ level_candidates self pseudo_label y x (diff_count pseudo_label c).
Proof.
  intros [Hlen Hvals]%revision_of_values Hcons.
  apply level_candidates_complete; [done | done |].
  intros i u v Hu Hv Hne. destruct (Hvals i v Hv) as [Hpl|]; [congruence | done].
Qed.

(** At the first level with a candidate, every candidate differs from the
    original at exactly that many positions. *)
Lemma level_candidates_first (self : KBBase) pseudo_label y x (k : nat) c :
  (∀ j : nat, (j < k)%nat → level_candidates self pseudo_label y x j = []) →
  c ∈ level_candidates self pseudo_label y x k →
  diff_count pseudo_label c = k.
Proof.
  intros Hbelow (Hrev & Hcons & Hle)%level_candidates_revision_of.
  destruct (decide (diff_count pseudo_label c < k)%nat) as [Hlt|]; [|lia].
  pose proof (revision_of_level_candidates self pseudo_label y x c Hrev Hcons) as Hin.
  rewrite (Hbelow _ Hlt) in Hin. by apply elem_of_nil in Hin.
Qed.

Lemma elem_of_explored_levels (min_k : nat) (max_revision_num require_more_revision : Z)
    (k : nat) :
  k ∈ explored_levels min_k max_revision_num require_more_revision ↔
  (min_k ≤ k)%nat ∧
  (k = min_k ∨
   Z.of_nat k ≤ Z.of_nat min_k + require_more_revision ∧ Z.of_nat k ≤ max_revision_num).
Proof. unfold explored_levels. rewrite elem_of_seq. lia. Qed.

(** A search that returns candidates found its first level within the bound;
    the first candidate returned is one of that level. *)
Lemma search_result_Ok_cons (self : KBBase) pseudo_label y x
    (max_revision_num require_more_revision : Z) c0 cs rs :
  search_result self pseudo_label y x max_revision_num require_more_revision
  = Ok (c0 :: cs, rs) →
  ∃ min_k : nat,
    first_level self pseudo_label y x = Some min_k ∧
    (∀ j : nat, (j < min_k)%nat → level_candidates self pseudo_label y x j = []) ∧
    diff_count pseudo_label c0 = min_k ∧
    c0 :: cs = flat_map (level_candidates self pseudo_label y x)
                 (explored_levels min_k max_revision_num require_more_revision) ∧
    rs = map (λ c, call_logic_forward self c x) (c0 :: cs).
Proof.
  unfold search_result.
  pose proof (first_level_spec self pseudo_label y x) as Hspec.
  destruct (first_level self pseudo_label y x) as [k|]; [|by case_bool_decide].
  destruct Hspec as (Hne & _ & Hbelow).
  case_bool_decide; [|done].
  set (found := flat_map _ _). intros [= Hcs Hrs].
  exists k. rewrite <- Hrs, <- Hcs. split; [done|]. split; [done|]. split; [|done].
  apply (level_candidates_first self pseudo_label y x); [done|].
  unfold found, explored_levels in Hcs. simpl in Hcs.
  destruct (level_candidates self pseudo_label y x k) as [|c cs'] eqn:Hk; [done|].
  simpl in Hcs. injection Hcs as -> _. left.
Qed.

(** X8.  Every candidate the search returns goes with its reasoning result:
    the two lists have the same length, [reasoning_results[i]] is what
    the oracle computes for [candidates[i]], [_check_equal] accepts it for
    [y], and the candidate has the length of [pseudo_label]. *)
Theorem abduce_by_search_aligned (self : KBBase) (args : search_args)
    candidates reasoning_results :
  _abduce_by_search_body self args = Ok (candidates, reasoning_results) →
  reasoning_results
  = map (λ c, call_logic_forward self c (arg_x args)) candidates ∧
  Forall (λ c, length c = length (arg_pseudo_label args) ∧
               _check_equal self (call_logic_forward self c (arg_x args)) (arg_y args)
               = true) candidates.
Proof.
  destruct args as [pseudo_label y x max_revision_num require_more_revision]. simpl.
  rewrite _abduce_by_search_body_search_result. unfold search_result.
  destruct (first_level self pseudo_label y x) as [k|].
  - set (found := flat_map _ _).
    case_bool_decide; intros [= <- <-]; [|done]. split; [done|].
    apply Forall_forall. intros c (k' & _ & Hc)%elem_of_flat_map.
    by apply level_candidates_sound in Hc as (? & _ & ? & _).
  - case_bool_decide; [done|]. by intros [= <- <-].
Qed.

Lemma abduce_by_search_aligned_witness :
  [PInt 1; PInt 1]
  = map (λ c, call_logic_forward add_kb_default c PNone) [[PInt 1; PInt 0]; [PInt 0; PInt 1]] ∧
  Forall (λ c, length c = length [PInt 0; PInt 0] ∧
               _check_equal add_kb_default (call_logic_forward add_kb_default c PNone)
                 (PInt 1) = true) [[PInt 1; PInt 0]; [PInt 0; PInt 1]].
Proof.
  apply (abduce_by_search_aligned add_kb_default (mk_args [PInt 0; PInt 0] (PInt 1) PNone 2 0)).
  vm_compute. reflexivity.
Defined.

(** X9.  The first candidate the search returns is a nearest one: no sequence
    that the oracle accepts for [y] and that is [pseudo_label] with some
    values replaced by labels differs from [pseudo_label] at fewer positions. *)
Theorem abduce_by_search_first_is_nearest (self : KBBase) (args : search_args)
    c0 candidates reasoning_results c :
  _abduce_by_search_body self args = Ok (c0 :: candidates, reasoning_results) →
  revision_of self (arg_pseudo_label args) c →
  consistent self (arg_y args) (arg_x args) c = true →
  (diff_count (arg_pseudo_label args) c0 ≤ diff_count (arg_pseudo_label args) c)%nat.
Proof.
  destruct args as [pseudo_label y x max_revision_num require_more_revision]. simpl.
  rewrite _abduce_by_search_body_search_result.
  intros (k & _ & Hbelow & -> & _)%search_result_Ok_cons Hrev Hcons.
  destruct (decide (diff_count pseudo_label c < k)%nat) as [Hlt|]; [|lia].
  pose proof (revision_of_level_candidates self pseudo_label y x c Hrev Hcons) as Hin.
  rewrite (Hbelow _ Hlt) in Hin. by apply elem_of_nil in Hin.
Qed.

Lemma abduce_by_search_first_is_nearest_witness :
  (diff_count [PInt 0; PInt 0] [PInt 1; PInt 0]
   ≤ diff_count [PInt 0; PInt 0] [PInt 0; PInt 1])%nat.
Proof.
  apply (abduce_by_search_first_is_nearest add_kb_default
           (mk_args [PInt 0; PInt 0] (PInt 1) PNone 2 0)
           [PInt 1; PInt 0] [[PInt 0; PInt 1]] [PInt 1; PInt 1] [PInt 0; PInt 1]).
  - vm_compute. reflexivity.
  - constructor; [by left|]. constructor; [|constructor]. right. right. left.
  - vm_compute. reflexivity.
Defined.

(** X10.  The candidates the search returns are exactly the sequences that are
    [pseudo_label] with some values replaced by labels, that the oracle
    accepts for [y], and whose number of revised positions is one of the
    explored levels: from that of the first candidate, [min_k], up to
    [min_k + require_more_revision] and [max_revision_num]. *)
Theorem abduce_by_search_candidate_set (self : KBBase) (args : search_args)
    c0 candidates reasoning_results c :
  _abduce_by_search_body self args = Ok (c0 :: candidates, reasoning_results) →
  c ∈ c0 :: candidates ↔
  revision_of self (arg_pseudo_label args) c ∧
  consistent self (arg_y args) (arg_x args) c = true ∧
  diff_count (arg_pseudo_label args) c
    ∈ explored_levels (diff_count (arg_pseudo_label args) c0)
        (arg_max_revision_num args) (arg_require_more_revision args).
Proof.
  destruct args as [pseudo_label y x max_revision_num require_more_revision]. simpl.
  rewrite _abduce_by_search_body_search_result.
  intros (k & _ & Hbelow & -> & -> & _)%search_result_Ok_cons.
  rewrite elem_of_flat_map. split.
  - intros (k' & Hk' & Hc).
    destruct (level_candidates_revision_of _ _ _ _ _ _ Hc) as (Hrev & Hcons & Hle).
    split; [done|]. split; [done|].
    apply elem_of_explored_levels in Hk'. apply elem_of_explored_levels.
    destruct (decide (diff_count pseudo_label c < k)%nat) as [Hlt|]; [|lia].
    pose proof (revision_of_level_candidates self pseudo_label y x c Hrev Hcons) as Hin.
    rewrite (Hbelow _ Hlt) in Hin. by apply elem_of_nil in Hin.
  - intros (Hrev & Hcons & Hd). exists (diff_count pseudo_label c).
    split; [done|]. by apply revision_of_level_candidates.
Qed.

Lemma abduce_by_search_candidate_set_witness :
  [PInt 0; PInt 1] ∈ [[PInt 1; PInt 0]; [PInt 0; PInt 1]] ↔
  revision_of add_kb_default [PInt 0; PInt 0] [PInt 0; PInt 1] ∧
  consistent add_kb_default (PInt 1) PNone [PInt 0; PInt 1] = true ∧
  diff_count [PInt 0; PInt 0] [PInt 0; PInt 1]
    ∈ explored_levels (diff_count [PInt 0; PInt 0] [PInt 1; PInt 0]) 2 0.
Proof.
  apply (abduce_by_search_candidate_set add_kb_default
           (mk_args [PInt 0; PInt 0] (PInt 1) PNone 2 0)
           [PInt 1; PInt 0] [[PInt 0; PInt 1]] [PInt 1; PInt 1] [PInt 0; PInt 1]).
  vm_compute. reflexivity.
Defined.

(** ** Particular levels and bounds *)

Lemma level_candidates_0 (self : KBBase) pseudo_label y x :
  level_candidates self pseudo_label y x 0
  = if consistent self y x pseudo_label then [pseudo_label] else [].
Proof.
  unfold level_candidates. rewrite combinations_0. simpl.
  rewrite filter_cons, filter_nil.
  destruct (consistent self y x pseudo_label); by case_decide.
Qed.

Lemma combinations_overflow {A} (pool : list A) (r : nat) :
  (length pool < r)%nat → combinations pool r = [].
Proof.
  revert r. induction pool as [|a pool IH]; intros [|r] Hr; simpl in *; try lia; [done|].
  by rewrite !IH by lia.
Qed.

Lemma combinations_count {A} (pool : list A) (r : nat) :
  length (combinations pool r) = binom (length pool) r.
Proof.
  revert r. induction pool as [|a pool IH]; intros [|r]; simpl; try done.
  by rewrite length_app, length_map, !IH.
Qed.

Lemma level_candidates_beyond (self : KBBase) pseudo_label y x (k : nat) :
  (length pseudo_label < k)%nat → level_candidates self pseudo_label y x k = [].
Proof.
  intros Hk. unfold level_candidates.
  by rewrite combinations_overflow by (rewrite length_seq; lia).
Qed.

Lemma flat_map_length_le {A B} (f : A → list B) (l : list A) (m : nat) :
  (∀ a, a ∈ l → (length (f a) ≤ m)%nat) →
  (length (flat_map f l) ≤ length l * m)%nat.
Proof.
  induction l as [|a l IH]; intros Hf; simpl; [done|].
  rewrite length_app. specialize (Hf a ltac:(left)) as Ha.
  specialize (IH ltac:(intros b Hb; apply Hf; by right)). lia.
Qed.

Lemma first_level_0 (self : KBBase) pseudo_label y x :
  consistent self y x pseudo_label = true → first_level self pseudo_label y x = Some 0%nat.
Proof.
  intros Hcons. unfold first_level. rewrite Nat.add_1_r. simpl.
  by rewrite level_candidates_0, Hcons.
Qed.

Lemma flat_map_level_candidates_beyond (self : KBBase) pseudo_label y x (a m : nat) :
  (length pseudo_label < a)%nat →
  flat_map (level_candidates self pseudo_label y x) (seq a m) = [].
Proof.
  revert a. induction m as [|m IH]; intros a Ha; simpl; [done|].
  by rewrite level_candidates_beyond, IH by lia.
Qed.

Lemma flat_map_level_candidates_trunc (self : KBBase) pseudo_label y x (a m : nat) :
  flat_map (level_candidates self pseudo_label y x) (seq a m)
  = flat_map (level_candidates self pseudo_label y x)
      (seq a (Nat.min m (S (length pseudo_label) - a))).
Proof.
  revert a. induction m as [|m IH]; intros a; [done|].
  destruct (decide (length pseudo_label < a)%nat) as [Hgt|Hle].
  - by rewrite !flat_map_level_candidates_beyond by done.
  - replace (Nat.min (S m) (S (length pseudo_label) - a))
      with (S (Nat.min m (S (length pseudo_label) - S a))) by lia.
    simpl. by rewrite IH.
Qed.

(** X11.  [_revision] never raises, pairs each candidate with its reasoning
    result, and returns no more candidates than there are ways to choose the
    positions and the labels: C(len(pseudo_label), revision_num) times
    len(pseudo_label_list) ^ revision_num, which is none when [revision_num]
    exceeds the length of the sequence. *)
Theorem _revision_count (self : KBBase) (revision_num : nat) pseudo_label y x :
  ∃ candidates,
    _revision self revision_num pseudo_label y x
    = Ok (candidates, map (λ c, call_logic_forward self c x) candidates) ∧
    (length candidates
     ≤ binom (length pseudo_label) revision_num
       * length (pseudo_label_list self) ^ revision_num)%nat ∧
    ((length pseudo_label < revision_num)%nat → candidates = []).
Proof.
  exists (level_candidates self pseudo_label y x revision_num).
  split; [apply _revision_Ok|]. split; [|apply level_candidates_beyond].
  unfold level_candidates.
  replace (binom (length pseudo_label) revision_num)
    with (length (combinations (seq 0 (length pseudo_label)) revision_num))
    by (by rewrite combinations_count, length_seq).
  apply flat_map_length_le. intros js [Hlen _]%combinations_length.
  etrans; [apply length_filter|]. by rewrite length_map, product_length, Hlen.
Qed.

(** X12.  With [max_revision_num <= 0] the search returns [pseudo_label]
    itself when the oracle accepts it for [y], and nothing otherwise; it
    revises no position and does not raise. *)
Theorem abduce_by_search_nonpositive_max (self : KBBase) (args : search_args) :
  arg_max_revision_num args ≤ 0 →
  _abduce_by_search_body self args
  = Ok (if consistent self (arg_y args) (arg_x args) (arg_pseudo_label args)
        then ([arg_pseudo_label args],
              [call_logic_forward self (arg_pseudo_label args) (arg_x args)])
        else ([], [])).
Proof.
  destruct args as [pseudo_label y x max_revision_num require_more_revision]. simpl.
  intros Hmax. rewrite _abduce_by_search_body_search_result. unfold search_result.
  destruct (consistent self y x pseudo_label) eqn:Hcons.
  - rewrite first_level_0 by done. rewrite bool_decide_eq_true_2 by lia.
    unfold explored_levels.
    replace (Z.to_nat (max_revision_num - Z.of_nat 0)) with 0%nat by lia.
    rewrite Nat.min_0_r. simpl. by rewrite level_candidates_0, Hcons.
  - pose proof (first_level_spec self pseudo_label y x) as Hspec.
    destruct (first_level self pseudo_label y x) as [k|].
    + destruct Hspec as (Hne & _ & _).
      destruct k as [|k]; [by rewrite level_candidates_0, Hcons in Hne|].
      by rewrite bool_decide_eq_false_2 by lia.
    + by rewrite bool_decide_eq_false_2 by lia.
Qed.

Lemma abduce_by_search_nonpositive_max_witness :
  _abduce_by_search_body add_kb_default (mk_args [PInt 0; PInt 1] (PInt 1) PNone 0 3)
  = Ok (if consistent add_kb_default (PInt 1) PNone [PInt 0; PInt 1]
        then ([[PInt 0; PInt 1]],
              [call_logic_forward add_kb_default [PInt 0; PInt 1] PNone])
        else ([], [])).
Proof.
  apply (abduce_by_search_nonpositive_max add_kb_default
           (mk_args [PInt 0; PInt 1] (PInt 1) PNone 0 3)).
  simpl. lia.
Defined.

(** X13.  When the oracle accepts [pseudo_label] itself for [y], the search
    returns it first, whatever the bounds, and returns it alone when
    [require_more_revision <= 0]. *)
Theorem abduce_by_search_consistent_original (self : KBBase) (args : search_args) :
  consistent self (arg_y args) (arg_x args) (arg_pseudo_label args) = true →
  ∃ candidates reasoning_results,
    _abduce_by_search_body self args
    = Ok (arg_pseudo_label args :: candidates,
          call_logic_forward self (arg_pseudo_label args) (arg_x args)
            :: reasoning_results) ∧
    (arg_require_more_revision args ≤ 0 → candidates = [] ∧ reasoning_results = []).
Proof.
  destruct args as [pseudo_label y x max_revision_num require_more_revision]. simpl.
  intros Hcons. rewrite _abduce_by_search_body_search_result. unfold search_result.
  rewrite first_level_0 by done. rewrite bool_decide_eq_true_2 by lia.
  unfold explored_levels. simpl. rewrite level_candidates_0, Hcons. simpl.
  eexists _, _. split; [done|].
  intros Hmore. replace (Z.to_nat require_more_revision) with 0%nat by lia. done.
Qed.

Lemma abduce_by_search_consistent_original_witness :
  ∃ candidates reasoning_results,
    _abduce_by_search_body add_kb_default (mk_args [PInt 0; PInt 1] (PInt 1) PNone 2 0)
    = Ok ([PInt 0; PInt 1] :: candidates,
          call_logic_forward add_kb_default [PInt 0; PInt 1] PNone :: reasoning_results) ∧
    (0 ≤ 0 → candidates = [] ∧ reasoning_results = []).
Proof.
  apply (abduce_by_search_consistent_original add_kb_default
           (mk_args [PInt 0; PInt 1] (PInt 1) PNone 2 0)).
  vm_compute. reflexivity.
Defined.

(** X14.  Bounds beyond the length of the sequence add nothing: the search
    with [max_revision_num] and [require_more_revision] is the search with
    [min(max_revision_num, len(pseudo_label) + 1)] and
    [min(require_more_revision, len(pseudo_label))]. *)
Theorem abduce_by_search_bounds_saturate (self : KBBase) pseudo_label y x
    (max_revision_num require_more_revision : Z) :
  _abduce_by_search_body self
    (mk_args pseudo_label y x max_revision_num require_more_revision)
  = _abduce_by_search_body self
      (mk_args pseudo_label y x
         (Z.min max_revision_num (Z.of_nat (length pseudo_label) + 1))
         (Z.min require_more_revision (Z.of_nat (length pseudo_label)))).
Proof.
  rewrite !_abduce_by_search_body_search_result. unfold search_result.
  pose proof (first_level_spec self pseudo_label y x) as Hspec.
  destruct (first_level self pseudo_label y x) as [k|].
  - destruct Hspec as (_ & Hk & _).
    unfold explored_levels.
    rewrite (flat_map_level_candidates_trunc self pseudo_label y x k
               (S (Nat.min (Z.to_nat require_more_revision)
                     (Z.to_nat (max_revision_num - Z.of_nat k))))).
    rewrite (flat_map_level_candidates_trunc self pseudo_label y x k
               (S (Nat.min (Z.to_nat (Z.min require_more_revision
                                        (Z.of_nat (length pseudo_label))))
                     (Z.to_nat (Z.min max_revision_num (Z.of_nat (length pseudo_label) + 1)
                                - Z.of_nat k))))).
    replace (Nat.min (S (Nat.min (Z.to_nat (Z.min require_more_revision
                                              (Z.of_nat (length pseudo_label))))
                           (Z.to_nat (Z.min max_revision_num
                                        (Z.of_nat (length pseudo_label) + 1)
                                      - Z.of_nat k))))
               (S (length pseudo_label) - k))
      with (Nat.min (S (Nat.min (Z.to_nat require_more_revision)
                          (Z.to_nat (max_revision_num - Z.of_nat k))))
              (S (length pseudo_label) - k)) by lia.
    repeat case_bool_decide; try done; lia.
  - repeat case_bool_decide; try done; lia.
Qed.

(** X15.  A larger [require_more_revision] only adds candidates at the end:
    the search with the larger value returns the candidates and reasoning
    results of the search with the smaller one followed by those of the
    further levels, and raises when that one raises. *)
Theorem abduce_by_search_more_revision_extends (self : KBBase) pseudo_label y x
    (max_revision_num require_more_revision require_more_revision' : Z) :
  require_more_revision ≤ require_more_revision' →
  match _abduce_by_search_body self
          (mk_args pseudo_label y x max_revision_num require_more_revision) with
  | Ok (candidates, reasoning_results) =>
      ∃ candidates' reasoning_results',
        _abduce_by_search_body self
          (mk_args pseudo_label y x max_revision_num require_more_revision')
        = Ok (candidates ++ candidates', reasoning_results ++ reasoning_results')
  | Raise e =>
      _abduce_by_search_body self
        (mk_args pseudo_label y x max_revision_num require_more_revision')
      = Raise e
  end.
Proof.
  intros Hle. rewrite !_abduce_by_search_body_search_result. unfold search_result.
  destruct (first_level self pseudo_label y x) as [k|].
  - case_bool_decide; [|by exists [], []].
    unfold explored_levels.
    set (m := Nat.min (Z.to_nat require_more_revision) _).
    set (m' := Nat.min (Z.to_nat require_more_revision') _).
    assert (S m' = (S m + (m' - m))%nat) as -> by lia.
    rewrite seq_app, flat_map_app, map_app. eauto.
  - case_bool_decide; [done|]. by exists [], [].
Qed.

Lemma abduce_by_search_more_revision_extends_witness :
  match _abduce_by_search_body add_kb_default
          (mk_args [PInt 0; PInt 0] (PInt 1) PNone 2 0) with
  | Ok (candidates, reasoning_results) =>
      ∃ candidates' reasoning_results',
        _abduce_by_search_body add_kb_default (mk_args [PInt 0; PInt 0] (PInt 1) PNone 2 1)
        = Ok (candidates ++ candidates', reasoning_results ++ reasoning_results')
  | Raise e =>
      _abduce_by_search_body add_kb_default (mk_args [PInt 0; PInt 0] (PInt 1) PNone 2 1)
      = Raise e
  end.
Proof.
  apply (abduce_by_search_more_revision_extends add_kb_default
           [PInt 0; PInt 0] (PInt 1) PNone 2 0 1).
  lia.
Defined.

(** ** Instances built by [__init__] *)

(** X16.  For an instance built by [__init__] whose oracle takes the example
    [x] as well ([_num_args = 2]), [use_cache] is off whatever was asked for,
    and [abduce_candidates] runs the search itself and leaves the cache of
    the method as it is. *)
Theorem init_two_parameter_oracle_bypasses_cache (cls : KBClass) (labels : pyval)
    (max_err0 : Q) (use_cache0 : bool) (key_func0 : pyval → pyval) (cache_size0 : option Z)
    (self : KBBase) (log : list (log_level * string))
    (args : search_args) (cache_instance : Cache.Cache abduced) :
  __init__ cls labels max_err0 use_cache0 key_func0 cache_size0 = Ok (self, log) →
  _num_args self = 2 →
  use_cache self = false ∧
  abduce_candidates self args cache_instance
  = (uncached _abduce_by_search_body self args, cache_instance).
Proof.
  unfold __init__. destruct labels as [| | |labels]; try done.
  intros Hinit Hn.
  assert (use_cache self = false) as Huse.
  { destruct (bool_decide (Z.of_nat (length (argspec_args cls)) - 1 = 2)) eqn:Hb;
      destruct use_cache0; simpl in Hinit; injection Hinit as <- _; simpl in *; try done.
    apply bool_decide_eq_false in Hb. done. }
  split; [done|]. by apply abduce_candidates_uncached.
Qed.

Lemma init_two_parameter_oracle_bypasses_cache_witness :
  let self := {| pseudo_label_list := [PInt 0; PInt 1]; max_err := default_max_err;
                 use_cache := false; key_func := to_hashable; cache_size := Some 4096;
                 _num_args := 2; logic_forward := λ c _, py_sum c |} in
  let args := mk_args [PInt 0; PInt 0] (PInt 1) PNone 2 0 in
  use_cache self = false ∧
  abduce_candidates self args Cache.__init__
  = (uncached _abduce_by_search_body self args, Cache.__init__).
Proof.
  apply (init_two_parameter_oracle_bypasses_cache AddXKB (PList [PInt 0; PInt 1])
           default_max_err true to_hashable (Some 4096) _
           (print_log "The logic_forward function has 2 arguments, so the cache is disabled. "
              "current" WARNING)).
  - reflexivity.
  - reflexivity.
Defined.

(** X17.  For an instance built by [__init__] on which [use_cache] is on, the
    oracle is called without [x], so the search does not depend on the
    argument [x] that the cache key leaves out. *)
Theorem init_cached_search_ignores_x (cls : KBClass) (labels : pyval)
    (max_err0 : Q) (use_cache0 : bool) (key_func0 : pyval → pyval) (cache_size0 : option Z)
    (self : KBBase) (log : list (log_level * string))
    pseudo_label y (x x' : pyval) (max_revision_num require_more_revision : Z) :
  __init__ cls labels max_err0 use_cache0 key_func0 cache_size0 = Ok (self, log) →
  use_cache self = true →
  _abduce_by_search_body self
    (mk_args pseudo_label y x max_revision_num require_more_revision)
  = _abduce_by_search_body self
      (mk_args pseudo_label y x' max_revision_num require_more_revision).
Proof.
  unfold __init__. destruct labels as [| | |labels]; try done.
  intros Hinit Huse.
  assert (_num_args self ≠ 2) as Hn.
  { destruct (bool_decide (Z.of_nat (length (argspec_args cls)) - 1 = 2)) eqn:Hb;
      destruct use_cache0; simpl in Hinit; injection Hinit as <- _; simpl in *; try done.
    by apply bool_decide_eq_false in Hb. }
  apply (_abduce_by_search_body_ext self self x' x); try done.
  intros c. unfold call_logic_forward. by rewrite !bool_decide_eq_false_2.
Qed.

Lemma init_cached_search_ignores_x_witness :
  _abduce_by_search_body add_kb_default (mk_args [PInt 0; PInt 0] (PInt 1) PNone 2 0)
  = _abduce_by_search_body add_kb_default (mk_args [PInt 0; PInt 0] (PInt 1) (PInt 7) 2 0).
Proof.
  apply (init_cached_search_ignores_x AddKB (PList [PInt 0; PInt 1])
           default_max_err true to_hashable default_cache_size add_kb_default []).
  - reflexivity.
  - reflexivity.
Defined.

(** * Further properties of the cache *)

(** ** The cache as an LRU list of entries *)

Section lru_model.
Context {T : Type} (func : KBBase → search_args → res T).
Implicit Types (c : Cache.Cache T) (ls : list Cache.loc).
Implicit Types (es : list (Cache.cache_key * T)) (k : Cache.cache_key).

Lemma lru_find_None k es : Forall (λ e, e.1 ≠ k) es → lru_find k es = None.
Proof.
  induction 1 as [|[k' r] es Hk _ IH]; simpl in *; [done|]. by rewrite decide_False.
Qed.

Lemma lru_find_middle k es1 (r : T) es2 :
  Forall (λ e, e.1 ≠ k) es1 → lru_find k (es1 ++ (k, r) :: es2) = Some r.
Proof.
  induction 1 as [|[k' r'] es Hk _ IH]; simpl in *.
  - by rewrite decide_True.
  - by rewrite decide_False.
Qed.

Lemma filter_ne_all k es : Forall (λ e, e.1 ≠ k) es → filter (λ e, e.1 ≠ k) es = es.
Proof.
  induction 1 as [|e es He _ IH]; [done|]. by rewrite filter_cons, decide_True, IH.
Qed.

Lemma filter_middle k es1 (r : T) es2 :
  Forall (λ e, e.1 ≠ k) es1 → Forall (λ e, e.1 ≠ k) es2 →
  filter (λ e, e.1 ≠ k) (es1 ++ (k, r) :: es2) = es1 ++ es2.
Proof.
  intros H1 H2. rewrite filter_app, filter_cons, decide_False by (simpl; tauto).
  by rewrite !filter_ne_all.
Qed.

(** The keys of links other than the one the dictionary binds [k] to. *)
Lemma repr_keys_ne c (h : Cache.store T) ls ls' es k l :
  (∀ l', l' ∈ ls → ∃ k', Cache.KEY (Cache.heap c l') = Some k' ∧
                          Cache.cache_dict c !! k' = Some l') →
  Cache.cache_dict c !! k ≠ Some l ∨ l ∉ ls' →
  (∀ l', l' ∈ ls' → l' ∈ ls) →
  Forall2 (λ l' e, Cache.KEY (Cache.heap c l') = Some e.1 ∧
                   Cache.RESULT (Cache.heap c l') = Some e.2) ls' es →
  (∀ l', Cache.cache_dict c !! k = Some l' → l' = l) →
  Forall (λ e, e.1 ≠ k) es.
Proof.
  intros Hld Hl Hsub Hall Huniq.
  induction Hall as [|l' e ls' es [HK _] _ IH]; [done|]. constructor.
  - intros Hk. destruct (Hld l') as (k' & HK' & Hk'); [apply Hsub; left|].
    rewrite HK in HK'. injection HK' as <-. rewrite Hk in Hk'.
    apply Huniq in Hk' as Heq. subst l'.
    destruct Hl as [Hl|Hl]; [done|]. apply Hl. left.
  - apply IH.
    + destruct Hl as [Hl|Hl]; [by left|right]. intros Hin. apply Hl. by right.
    + intros l'' Hin. apply Hsub. by right.
Qed.

Lemma repr_NoDup_keys c ls es :
  lru_inv (λ _ _, True) c ls →
  Forall2 (λ l e, Cache.KEY (Cache.heap c l) = Some e.1 ∧
                  Cache.RESULT (Cache.heap c l) = Some e.2) ls es →
  NoDup es.*1.
Proof.
  intros Hinv Hall.
  assert (NoDup ls) as Hnd.
  { pose proof (inv_nodup _ _ _ Hinv) as Hnd. by apply NoDup_cons in Hnd as [_ ?]. }
  pose proof (inv_ls_dict _ _ _ Hinv) as Hld. clear Hinv.
  induction Hall as [|l e ls es [HK _] Hall IH]; simpl; [constructor|].
  apply NoDup_cons in Hnd as [Hl Hnd]. constructor.
  - intros (e' & Heq & He')%list_elem_of_fmap.
    apply list_elem_of_lookup in He' as [i Hi].
    destruct (Forall2_lookup_r _ _ _ _ _ Hall Hi) as (l' & Hl' & HK' & _).
    destruct (Hld l) as (k1 & HK1 & Hk1); [left|].
    destruct (Hld l') as (k2 & HK2 & Hk2); [right; by eapply list_elem_of_lookup_2|].
    rewrite HK in HK1. rewrite HK' in HK2. injection HK1 as <-. injection HK2 as <-.
    rewrite Heq, Hk2 in Hk1. injection Hk1 as ->.
    apply Hl. by eapply list_elem_of_lookup_2.
  - apply IH; [done|]. intros l' Hin. apply Hld. by right.
Qed.

(** The dictionary holds the keys of the entries, each once. *)
Lemma repr_dict c ls es :
  lru_inv (λ _ _, True) c ls →
  Forall2 (λ l e, Cache.KEY (Cache.heap c l) = Some e.1 ∧
                  Cache.RESULT (Cache.heap c l) = Some e.2) ls es →
  dom (Cache.cache_dict c) = list_to_set es.*1 ∧
  size (Cache.cache_dict c) = length es.
Proof.
  intros Hinv Hall.
  assert (dom (Cache.cache_dict c) = list_to_set es.*1) as Hdom.
  { apply set_eq. intros k. rewrite elem_of_dom, elem_of_list_to_set. split.
    - intros [l Hl]. destruct (inv_dict_ls _ _ _ Hinv _ _ Hl) as (Hin & HK & _).
      apply list_elem_of_lookup in Hin as [i Hi].
      destruct (Forall2_lookup_l _ _ _ _ _ Hall Hi) as (e & He & HK' & _).
      rewrite HK in HK'. injection HK' as ->.
      apply list_elem_of_fmap. exists e. split; [done|]. by eapply list_elem_of_lookup_2.
    - intros (e & -> & He)%list_elem_of_fmap.
      apply list_elem_of_lookup in He as [i Hi].
      destruct (Forall2_lookup_r _ _ _ _ _ Hall Hi) as (l & Hl & HK & _).
      destruct (inv_ls_dict _ _ _ Hinv l) as (k' & HK' & Hk');
        [by eapply list_elem_of_lookup_2|].
      rewrite HK in HK'. injection HK' as <-. eauto. }
  split; [done|].
  rewrite <- size_dom, Hdom, size_list_to_set by (by eapply repr_NoDup_keys).
  by rewrite length_fmap.
Qed.

Lemma Forall2_repr_frame (h h' : Cache.store T) ls es :
  (∀ x, x ∈ ls → Cache.KEY (h' x) = Cache.KEY (h x) ∧
                  Cache.RESULT (h' x) = Cache.RESULT (h x)) →
  Forall2 (λ l e, Cache.KEY (h l) = Some e.1 ∧ Cache.RESULT (h l) = Some e.2) ls es →
  Forall2 (λ l e, Cache.KEY (h' l) = Some e.1 ∧ Cache.RESULT (h' l) = Some e.2) ls es.
Proof.
  intros Hframe Hall. induction Hall as [|l e ls es [HK HR] _ IH]; constructor.
  - destruct (Hframe l) as [-> ->]; [left | done].
  - apply IH. intros x Hx. apply Hframe. by right.
Qed.

(** One lookup on the links is one lookup on the entries. *)
Lemma get_from_dict_lru c es obj args kf :
  lru_repr c es → Cache.key_func c = Some kf →
  (Cache.get_from_dict func c obj args).1
  = (lru_lookup (Cache.max_size c) (Cache.make_cache_key kf args) (func obj args)
       (es, Cache.full c)).1 ∧
  lru_repr (Cache.get_from_dict func c obj args).2
    (lru_lookup (Cache.max_size c) (Cache.make_cache_key kf args) (func obj args)
       (es, Cache.full c)).2.1 ∧
  Cache.full (Cache.get_from_dict func c obj args).2
  = (lru_lookup (Cache.max_size c) (Cache.make_cache_key kf args) (func obj args)
       (es, Cache.full c)).2.2.
Proof.
  intros (ls & Hinv & Hall) Hkf. unfold lru_lookup.
  set (k := Cache.make_cache_key kf args).
  destruct (Cache.cache_dict c !! k) as [l|] eqn:Hl.
  - destruct (inv_dict_ls _ _ _ Hinv _ _ Hl) as (Hin & HK & _).
    apply list_elem_of_split in Hin as (ls1 & ls2 & ->).
    apply Forall2_app_inv_l in Hall as (es1 & es' & Hall1 & Hall2 & ->).
    apply Forall2_cons_inv_l in Hall2 as ([k' r] & es2 & [HK' HR] & Hall2 & ->).
    simpl in HK', HR. rewrite HK in HK'. injection HK' as <-.
    pose proof (inv_nodup _ _ _ Hinv) as Hnd.
    apply NoDup_cons in Hnd as [_ Hnd]. apply NoDup_app in Hnd as (_ & Hdisj & Hnd2).
    apply NoDup_cons in Hnd2 as [Hl2 _].
    assert (Forall (λ e, e.1 ≠ k) es1) as Hes1.
    { apply (repr_keys_ne c (Cache.heap c) (ls1 ++ l :: ls2) ls1 es1 k l); try done.
      - apply (inv_ls_dict _ _ _ Hinv).
      - right. intros Hin. apply (Hdisj _ Hin). left.
      - intros l' Hin. apply elem_of_app. by left.
      - intros l' Hl'. congruence. }
    assert (Forall (λ e, e.1 ≠ k) es2) as Hes2.
    { apply (repr_keys_ne c (Cache.heap c) (ls1 ++ l :: ls2) ls2 es2 k l); try done.
      - apply (inv_ls_dict _ _ _ Hinv).
      - by right.
      - intros l' Hin. apply elem_of_app. right. by right.
      - intros l' Hl'. congruence. }
    rewrite lru_find_middle, filter_middle by done. simpl.
    destruct (get_from_dict_hit_order func _ c ls1 l ls2 obj args kf Hinv Hkf Hl)
      as (Hinv' & HKEY & HRESULT & -> & _ & -> & _).
    split; [by rewrite HR|]. split; [|done].
    exists (ls1 ++ ls2 ++ [l]). split; [done|]. rewrite <- app_assoc.
    apply Forall2_app; [|apply Forall2_app].
    + eapply Forall2_impl; [done|]. intros l' e. by rewrite HKEY, HRESULT.
    + eapply Forall2_impl; [done|]. intros l' e. by rewrite HKEY, HRESULT.
    + constructor; [|constructor]. by rewrite HKEY, HRESULT.
  - assert (lru_find k es = None) as ->.
    { apply lru_find_None.
      apply (repr_keys_ne c (Cache.heap c) ls ls es k 0%nat); try done.
      - apply (inv_ls_dict _ _ _ Hinv).
      - left. by rewrite Hl.
      - intros l'. by rewrite Hl. }
    destruct (func obj args) as [r|e] eqn:Hf.
    + destruct (Cache.full c) eqn:Hfull.
      * destruct ls as [|l0 ls0]; [by destruct (inv_full _ _ _ Hinv Hfull)|].
        apply Forall2_cons_inv_l in Hall as (e0 & es0 & _ & Hall & ->). simpl.
        destruct (get_from_dict_miss_evict_order func _ c l0 ls0 obj args kf r
                    Hinv Hkf Hl Hf I Hfull)
          as (k0 & Hinv' & _ & HK & HR & Hframe & -> & _ & _ & -> & _).
        split; [done|]. split; [|done].
        exists (ls0 ++ [Cache.root c]). split; [done|].
        apply Forall2_app; [by eapply Forall2_repr_frame|].
        constructor; [done | constructor].
      * destruct (get_from_dict_miss_append_order func _ c ls obj args kf r
                    Hinv Hkf Hl Hf I Hfull)
          as (Hinv' & HK & HR & Hframe & -> & _ & -> & _).
        simpl. split; [done|]. split.
        -- exists (ls ++ [Cache.next_loc c]). split; [done|].
           apply Forall2_app; [by eapply Forall2_repr_frame|].
           constructor; [done | constructor].
        -- destruct (Cache.max_size c) as [n|]; [|done].
           rewrite map_size_insert_None by done.
           destruct (repr_dict c ls es Hinv Hall) as [_ ->].
           f_equal. lia.
    + destruct (get_from_dict_miss_Raise func _ c ls obj args kf e Hinv Hkf Hl Hf)
        as (Hinv' & -> & _ & -> & _).
      simpl. split; [done|]. split; [|done].
      exists ls. split; [done|].
      unfold Cache.get_from_dict. rewrite Hkf. fold k. by rewrite Hl, Hf.
Qed.

Lemma lru_repr_init (obj : KBBase) :
  lru_repr (Cache.init_cache (T := T) Cache.__init__ obj) [].
Proof.
  exists []. split; [|constructor].
  unfold Cache.init_cache. split; simpl; try done.
  - apply NoDup_singleton.
  - repeat constructor.
  - by intros l ?%elem_of_nil.
Qed.

(** X18.  Used through one instance, the cache behaves as an LRU cache kept
    as a list of entries: after any calls through [obj], the links of the
    circular list hold, from the oldest to the newest, the entries that
    [lru_run] computes, [full] is its flag, the dictionary holds the keys of
    these entries and nothing else, and the next call returns or raises what
    [lru_lookup] does on these entries: the stored result on a hit, which
    makes the entry the newest, and otherwise what the method computes,
    stored as the newest entry in place of the oldest one when the cache is
    full. *)
Theorem wrapper_lru (obj : KBBase) (previous : list search_args) (args : search_args) :
  use_cache obj = true →
  let c := run_ops func (Lookup obj <$> previous) Cache.__init__ in
  let s := lru_run func obj previous in
  lru_repr c s.1 ∧ Cache.full c = s.2 ∧
  dom (Cache.cache_dict c) = list_to_set s.1.*1 ∧
  (Cache.wrapper func obj args c).1
  = (lru_lookup (cache_size obj) (Cache.make_cache_key (key_func obj) args)
       (func obj args) s).1.
Proof.
  intros Huse c s. subst c s. unfold lru_run.
  set (step := λ s a, (lru_lookup (cache_size obj)
                         (Cache.make_cache_key (key_func obj) a) (func obj a) s).2).
  set (good := λ c (s : list (Cache.cache_key * T) * bool),
         (c = Cache.__init__ ∧ s = ([], false)) ∨
         (Cache.has_init c = true ∧ Cache.key_func c = Some (key_func obj) ∧
          Cache.max_size c = cache_size obj ∧ lru_repr c s.1 ∧ Cache.full c = s.2)).
  assert (∀ c s, good c s →
            Cache.has_init (Cache.init_cache c obj) = true ∧
            Cache.key_func (Cache.init_cache c obj) = Some (key_func obj) ∧
            Cache.max_size (Cache.init_cache c obj) = cache_size obj ∧
            lru_repr (Cache.init_cache c obj) s.1 ∧
            Cache.full (Cache.init_cache c obj) = s.2) as Hinit.
  { intros c s [[-> ->]|Hc].
    - repeat split; try done. apply lru_repr_init.
    - destruct Hc as (Hi & ?). by rewrite init_cache_idemp. }
  assert (∀ c s a, good c s →
            (Cache.wrapper func obj a c).1
            = (lru_lookup (cache_size obj) (Cache.make_cache_key (key_func obj) a)
                 (func obj a) s).1 ∧
            good (Cache.wrapper func obj a c).2 (step s a)) as Hstep.
  { intros c [es f] a (Hi & Hk & Hm & Hrepr & Hf)%Hinit. simpl in Hrepr, Hf.
    unfold Cache.wrapper. rewrite Huse.
    destruct (get_from_dict_lru (Cache.init_cache c obj) es obj a _ Hrepr Hk)
      as (Hres & Hrepr' & Hfull').
    rewrite Hm, Hf in Hres, Hrepr', Hfull'.
    split; [done|]. right.
    destruct (get_from_dict_same_config func (Cache.init_cache c obj) obj a)
      as (Hk' & Hm' & Hi').
    unfold step. repeat split; try congruence; done. }
  assert (∀ argss c s, good c s →
            good (run_ops func (Lookup obj <$> argss) c) (foldl step s argss)) as Hrun.
  { induction argss as [|a argss IH]; intros c s Hc; simpl; [done|].
    apply IH. by apply Hstep. }
  set (c := run_ops func (Lookup obj <$> previous) Cache.__init__).
  set (s := foldl step ([], false) previous).
  assert (good c s) as Hc by (apply Hrun; by left).
  destruct (Hstep c s args Hc) as [Hres _].
  split; [|split; [|split; [|done]]].
  - destruct Hc as [[-> ->]|(_ & _ & _ & ? & _)]; [|done].
    exists []. split; [|constructor]. split; simpl; try done.
    + apply NoDup_singleton.
    + repeat constructor.
    + by intros l ?%elem_of_nil.
  - by destruct Hc as [[-> ->]|(_ & _ & _ & _ & ?)].
  - destruct Hc as [[-> ->]|(_ & _ & _ & (ls & Hinv & Hall) & _)].
    + simpl. by rewrite dom_empty_L.
    + by destruct (repr_dict _ _ _ Hinv Hall).
Qed.

End lru_model.

Lemma wrapper_lru_witness :
  let obj := add_kb (Some 1) in
  let previous := [mk_args [PInt 0; PInt 0] (PInt 2) PNone 2 0;
                   mk_args [PInt 0; PInt 0] (PInt 1) PNone 2 0] in
  let args := mk_args [PInt 0; PInt 0] (PInt 2) PNone 2 0 in
  let c := run_ops _abduce_by_search_body (Lookup obj <$> previous) Cache.__init__ in
  let s := lru_run _abduce_by_search_body obj previous in
  lru_repr c s.1 ∧ Cache.full c = s.2 ∧
  dom (Cache.cache_dict c) = list_to_set s.1.*1 ∧
  (Cache.wrapper _abduce_by_search_body obj args c).1
  = (lru_lookup (cache_size obj) (Cache.make_cache_key (key_func obj) args)
       (_abduce_by_search_body obj args) s).1.
Proof.
  apply (wrapper_lru _abduce_by_search_body (add_kb (Some 1))
           [mk_args [PInt 0; PInt 0] (PInt 2) PNone 2 0;
            mk_args [PInt 0; PInt 0] (PInt 1) PNone 2 0]
           (mk_args [PInt 0; PInt 0] (PInt 2) PNone 2 0)).
  reflexivity.
Defined.

(** ** Counters and configuration of the cache *)

Section cache_counters.
Context {T : Type} (func : KBBase → search_args → res T).
Implicit Types (c : Cache.Cache T) (obj : KBBase).

Lemma get_from_dict_counts c obj args :
  is_Some (Cache.key_func c) →
  (Cache.hits (Cache.get_from_dict func c obj args).2
   + Cache.misses (Cache.get_from_dict func c obj args).2
   = Cache.hits c + Cache.misses c + 1)%nat.
Proof.
  intros [kf Hkf]. unfold Cache.get_from_dict. rewrite Hkf.
  destruct (Cache.cache_dict c !! Cache.make_cache_key kf args); simpl; [lia|].
  destruct (func obj args); simpl; [|lia].
  destruct (Cache.full c); simpl.
  - repeat match goal with
           | |- context [match ?o with Some _ => _ | None => _ end] => destruct o
           end; simpl; lia.
  - destruct (Cache.max_size c); simpl; lia.
Qed.

Lemma cached_calls_cons (op : cache_op) (ops : list cache_op) :
  cached_calls (op :: ops)
  = ((if is_cached op then 1 else 0) + cached_calls ops)%nat.
Proof.
  unfold cached_calls. rewrite filter_cons.
  destruct (is_cached op); by case_decide.
Qed.

(** X19.  [hits + misses] counts the calls that went through the cache: each
    cached call adds one to [hits] or to [misses], also when the wrapped
    function raises; calls with [use_cache] off and [clear_cache] change
    neither. *)
Theorem cache_counts_calls (ops : list cache_op) :
  (Cache.hits (run_ops func ops Cache.__init__)
   + Cache.misses (run_ops func ops Cache.__init__)
   = cached_calls ops)%nat.
Proof.
  set (good := λ c (n : nat),
         (c = Cache.__init__ ∧ n = 0%nat) ∨
         (Cache.has_init c = true ∧ is_Some (Cache.key_func c) ∧
          (Cache.hits c + Cache.misses c)%nat = n)).
  assert (∀ ops c n, good c n →
            good (run_ops func ops c) (n + cached_calls ops)%nat) as Hrun.
  { clear ops. induction ops as [|op ops IH]; intros c n Hc; simpl.
    - unfold cached_calls. simpl. by rewrite Nat.add_0_r.
    - rewrite cached_calls_cons, Nat.add_assoc. apply IH.
      destruct op as [obj args|]; simpl.
      + unfold Cache.wrapper. destruct (use_cache obj); simpl; [|by rewrite Nat.add_0_r].
        right.
        assert (Cache.has_init (Cache.init_cache c obj) = true ∧
                is_Some (Cache.key_func (Cache.init_cache c obj)) ∧
                (Cache.hits (Cache.init_cache c obj)
                 + Cache.misses (Cache.init_cache c obj))%nat = n) as (Hi & Hk & Hn).
        { destruct Hc as [[-> ->]|(Hi & ?)]; [by repeat split|].
          by rewrite init_cache_idemp. }
        destruct (get_from_dict_same_config func (Cache.init_cache c obj) obj args)
          as (-> & _ & ->).
        split; [done|]. split; [done|]. rewrite get_from_dict_counts by done. lia.
      + rewrite Nat.add_0_r. destruct Hc as [[-> ->]|Hc]; [by left | by right]. }
  destruct (Hrun ops Cache.__init__ 0%nat) as [[-> Hn]|(_ & _ & Hn)]; [by left | |done].
  simpl in *. by rewrite <- Hn.
Qed.

Lemma run_ops_same_config (ops : list cache_op) c :
  Cache.has_init c = true → same_config c (run_ops func ops c).
Proof.
  revert c. induction ops as [|op ops IH]; intros c Hi; simpl; [done|].
  assert (same_config c (run_op func c op)) as (Hk & Hm & Hi').
  { destruct op as [obj args|]; simpl; [|done].
    unfold Cache.wrapper. destruct (use_cache obj); [|done]. simpl.
    rewrite init_cache_idemp by done. apply get_from_dict_same_config. }
  destruct (IH (run_op func c op)) as (Hk' & Hm' & Hi''); [congruence|].
  repeat split; congruence.
Qed.

(** X20.  The cache is bound once: the first call that goes through the cache
    gives it the [key_func] and the [cache_size] of the instance that makes
    it, and no later call, through that or any other instance, and no
    [clear_cache] changes them; before that call the cache is as
    [Cache.__init__] left it. *)
Theorem cache_bound_to_first_instance (ops1 ops2 : list cache_op) obj args :
  Forall (λ op, is_cached op = false) ops1 → use_cache obj = true →
  let c := run_ops func (ops1 ++ Lookup obj args :: ops2) Cache.__init__ in
  run_ops func ops1 Cache.__init__ = Cache.__init__ ∧
  Cache.has_init c = true ∧
  Cache.key_func c = Some (key_func obj) ∧
  Cache.max_size c = cache_size obj.
Proof.
  intros Hops1 Huse c. subst c.
  assert (run_ops func ops1 Cache.__init__ = Cache.__init__) as Hinit.
  { induction Hops1 as [|op ops1 Hop _ IH]; simpl; [done|].
    destruct op as [obj' args'|]; simpl in *; [|done].
    unfold Cache.wrapper. by rewrite Hop. }
  split; [done|].
  unfold run_ops in *. rewrite foldl_app, Hinit. simpl.
  unfold Cache.wrapper. rewrite Huse.
  set (c0 := Cache.init_cache _ obj).
  destruct (get_from_dict_same_config func c0 obj args) as (Hk & Hm & Hi).
  set (c1 := (Cache.get_from_dict func c0 obj args).2) in *.
  destruct (run_ops_same_config ops2 c1) as (Hk' & Hm' & Hi'); [by rewrite Hi|].
  unfold run_ops in *. rewrite Hk', Hm', Hi', Hk, Hm, Hi. done.
Qed.

End cache_counters.

Lemma cache_bound_to_first_instance_witness :
  let c := run_ops _abduce_by_search_body
             ([Clear] ++
              Lookup (add_kb (Some 1)) (mk_args [PInt 0; PInt 0] (PInt 1) PNone 2 0)
              :: [Lookup mul_kb (mk_args [PInt 0; PInt 0] (PInt 1) PNone 2 0)])
             Cache.__init__ in
  run_ops _abduce_by_search_body [Clear] Cache.__init__ = Cache.__init__ ∧
  Cache.has_init c = true ∧
  Cache.key_func c = Some (key_func (add_kb (Some 1))) ∧
  Cache.max_size c = cache_size (add_kb (Some 1)).
Proof.
  apply (cache_bound_to_first_instance _abduce_by_search_body [Clear]
           [Lookup mul_kb (mk_args [PInt 0; PInt 0] (PInt 1) PNone 2 0)]
           (add_kb (Some 1)) (mk_args [PInt 0; PInt 0] (PInt 1) PNone 2 0)).
  - repeat constructor.
  - reflexivity.
Defined.

(** ** A cache without capacity *)

Section unbounded.
Context {T : Type} (func : KBBase → search_args → res T) (obj : KBBase).
Context (Huse : use_cache obj = true) (Hsize : cache_size obj = None).
Context (Hkey : ∀ a a', Cache.make_cache_key (key_func obj) a
                        = Cache.make_cache_key (key_func obj) a' →
                        func obj a = func obj a').
Implicit Types (c : Cache.Cache T).

Lemma init_cache_never_full c :
  never_full func obj c →
  Cache.full (Cache.init_cache c obj) = false ∧
  Cache.max_size (Cache.init_cache c obj) = None ∧
  Cache.key_func (Cache.init_cache c obj) = Some (key_func obj).
Proof.
  intros (Hserved & Hfull & Hmax).
  destruct (init_cache_served func obj c Hserved) as (_ & Hk & _).
  split; [|split; [|done]]; unfold Cache.init_cache;
    destruct (Cache.has_init c); simpl; auto.
Qed.

Lemma get_from_dict_never_full c args :
  Cache.full c = false → Cache.max_size c = None →
  Cache.key_func c = Some (key_func obj) →
  Cache.full (Cache.get_from_dict func c obj args).2 = false ∧
  dom (Cache.cache_dict c) ⊆ dom (Cache.cache_dict (Cache.get_from_dict func c obj args).2) ∧
  match Cache.cache_dict c !! Cache.make_cache_key (key_func obj) args with
  | Some _ => ∃ r, (Cache.get_from_dict func c obj args).1 = Ok r
  | None => (Cache.get_from_dict func c obj args).1 = uncached func obj args
  end.
Proof.
  intros Hfull Hmax Hk. unfold Cache.get_from_dict, uncached. rewrite Hk.
  destruct (Cache.cache_dict c !! Cache.make_cache_key (key_func obj) args)
    as [l|] eqn:Hl; simpl; [by eauto|].
  destruct (func obj args) as [r|e]; simpl; [|done].
  rewrite Hfull, Hmax. simpl. split; [done|]. split; [|done].
  rewrite dom_insert. apply union_subseteq_r.
Qed.

Lemma wrapper_never_full c args :
  never_full func obj c →
  (Cache.wrapper func obj args c).1 = uncached func obj args ∧
  never_full func obj (Cache.wrapper func obj args c).2 ∧
  dom (Cache.cache_dict c) ⊆ dom (Cache.cache_dict (Cache.wrapper func obj args c).2).
Proof.
  intros Hc.
  destruct (init_cache_never_full c Hc) as (Hfull & Hmax & Hk).
  destruct Hc as (Hserved & Hfull0 & Hmax0).
  destruct (wrapper_served func obj Huse Hkey c args Hserved) as [Hserved' Hres].
  unfold Cache.wrapper in *. rewrite Huse in *.
  destruct (get_from_dict_never_full (Cache.init_cache c obj) args Hfull Hmax Hk)
    as (Hfull' & Hdom & Hhit).
  destruct (get_from_dict_same_config func (Cache.init_cache c obj) obj args)
    as (_ & Hm' & _).
  split; [|split; [split; [done|]; split; [done|]; intros _; congruence|]].
  - destruct (Cache.cache_dict (Cache.init_cache c obj) !! _); [|done].
    destruct Hhit as [r Hr]. rewrite Hr. symmetry. by apply Hres.
  - etrans; [|done]. unfold Cache.init_cache.
    destruct (Cache.has_init c) eqn:Hi; [done|].
    destruct Hserved as [->|(Hi' & _)]; [done | congruence].
Qed.

Lemma run_ops_never_full (ops : list cache_op) c :
  Forall (op_by obj) ops → never_full func obj c → never_full func obj (run_ops func ops c).
Proof.
  revert c. induction ops as [|op ops IH]; intros c Hops Hc; simpl; [done|].
  inversion Hops as [|?? Hop Hops']; subst. apply IH; [done|].
  destruct op as [obj' args|]; simpl.
  - simpl in Hop. subst obj'. by apply wrapper_never_full.
  - destruct Hc as (Hserved & Hfull & Hmax). split; [|done].
    apply (run_ops_served func obj Huse Hkey [Clear]); [by repeat constructor | done].
Qed.

(** X21.  With a [cache_size] that is not an [int] the cache has no capacity:
    [full] is never set and nothing is evicted, so whatever calls and
    [clear_cache] came before, a call with caching on returns what the call
    with caching off returns and raises what it raises, and every key that
    is in the dictionary before the call is in it after the call. *)
Theorem cache_without_capacity (ops : list cache_op) (args : search_args) :
  Forall (op_by obj) ops →
  let c := run_ops func ops Cache.__init__ in
  (Cache.wrapper func obj args c).1 = uncached func obj args ∧
  Cache.full (Cache.wrapper func obj args c).2 = false ∧
  dom (Cache.cache_dict c) ⊆ dom (Cache.cache_dict (Cache.wrapper func obj args c).2).
Proof.
  intros Hops c.
  assert (never_full func obj c) as Hc.
  { apply run_ops_never_full; [done|]. split; [by left | done]. }
  destruct (wrapper_never_full c args Hc) as (Hres & (_ & Hfull & _) & Hdom).
  done.
Qed.

End unbounded.

Lemma cache_without_capacity_witness :
  let obj := add_kb None in
  let args := mk_args [PInt 0; PInt 0] (PInt 1) PNone 2 0 in
  let c := run_ops _abduce_by_search_body
             [Lookup obj (mk_args [PInt 0; PInt 0] (PInt 2) PNone 2 0); Clear]
             Cache.__init__ in
  (Cache.wrapper _abduce_by_search_body obj args c).1
  = uncached _abduce_by_search_body obj args ∧
  Cache.full (Cache.wrapper _abduce_by_search_body obj args c).2 = false ∧
  dom (Cache.cache_dict c)
    ⊆ dom (Cache.cache_dict (Cache.wrapper _abduce_by_search_body obj args c).2).
Proof.
  apply (cache_without_capacity _abduce_by_search_body (add_kb None) eq_refl eq_refl).
  - intros a a'.
    apply (_abduce_by_search_body_key (add_kb None) a a'); [by intros v w Hvw | done].
  - repeat constructor.
Defined.

(** ** [clear_cache] on a full cache *)

Section cleared.
Context {T : Type} (func : KBBase → search_args → res T).
Implicit Types (c : Cache.Cache T) (obj : KBBase).

(** On a full cache whose dictionary is empty, a lookup whose computation
    returns fails when it deletes the key of the oldest link, and leaves the
    cache full with an empty dictionary. *)
Lemma get_from_dict_cleared c obj args :
  Cache.full c = true → Cache.cache_dict c = ∅ → is_Some (Cache.key_func c) →
  (Cache.get_from_dict func c obj args).1
  = match func obj args with
    | Ok _ => Raise KeyError
    | Raise e => Raise e
    end ∧
  Cache.full (Cache.get_from_dict func c obj args).2 = true ∧
  Cache.cache_dict (Cache.get_from_dict func c obj args).2 = ∅.
Proof.
  intros Hfull Hdict [kf Hkf]. unfold Cache.get_from_dict.
  rewrite Hkf, Hdict, lookup_empty.
  destruct (func obj args) as [r|e]; simpl; [|done].
  rewrite Hfull, Hdict.
  match goal with
  | |- context [match ?oldkey with Some _ => _ | None => _ end] => destruct oldkey as [k|]
  end; [|done].
  by rewrite lookup_empty.
Qed.

(** X22.  [clear_cache] on a full cache leaves it unusable: whatever calls
    and [clear_cache] follow, no call through the cache returns a result
    again; a call whose computation returns raises [KeyError], a call whose
    computation raises, raises that. *)
Theorem full_cache_cleared_never_returns c (ops : list cache_op) obj args :
  Cache.full c = true → Cache.has_init c = true → is_Some (Cache.key_func c) →
  use_cache obj = true →
  (Cache.wrapper func obj args (run_ops func ops (Cache.clear_cache c))).1
  = match func obj args with
    | Ok _ => Raise KeyError
    | Raise e => Raise e
    end.
Proof.
  intros Hfull Hinit Hkf Huse.
  set (broken := λ c', Cache.full c' = true ∧ Cache.cache_dict c' = ∅ ∧
                       Cache.has_init c' = true ∧ is_Some (Cache.key_func c')).
  assert (∀ c' obj' args', broken c' → use_cache obj' = true →
            (Cache.wrapper func obj' args' c').1
            = match func obj' args' with Ok _ => Raise KeyError | Raise e => Raise e end ∧
            broken (Cache.wrapper func obj' args' c').2) as Hstep.
  { intros c' obj' args' (Hf & Hd & Hi & Hk) Huse'. unfold Cache.wrapper.
    rewrite Huse', (init_cache_idemp c' obj' Hi).
    destruct (get_from_dict_cleared c' obj' args' Hf Hd Hk) as (Hres & Hf' & Hd').
    destruct (get_from_dict_same_config func c' obj' args') as (Hk' & _ & Hi').
    split; [done|]. repeat split; try done; congruence. }
  assert (∀ ops' c', broken c' → broken (run_ops func ops' c')) as Hrun.
  { induction ops' as [|op ops' IH]; intros c' Hc'; simpl; [done|].
    apply IH. destruct op as [obj' args'|]; simpl.
    - destruct (use_cache obj') eqn:Huse'; [by apply Hstep|].
      unfold Cache.wrapper. by rewrite Huse'.
    - destruct Hc' as (? & ? & ? & ?). by repeat split. }
  apply Hstep; [|done]. apply Hrun. by repeat split.
Qed.

End cleared.

Lemma full_cache_cleared_never_returns_witness :
  let kb := add_kb (Some 1) in
  let c := (_abduce_by_search kb (mk_args [PInt 0; PInt 0] (PInt 2) PNone 2 0)
              Cache.__init__).2 in
  (Cache.wrapper _abduce_by_search_body kb (mk_args [PInt 0; PInt 0] (PInt 1) PNone 2 0)
     (run_ops _abduce_by_search_body [] (Cache.clear_cache c))).1
  = match _abduce_by_search_body kb (mk_args [PInt 0; PInt 0] (PInt 1) PNone 2 0) with
    | Ok _ => Raise KeyError
    | Raise e => Raise e
    end.
Proof.
  apply (full_cache_cleared_never_returns _abduce_by_search_body
           (_abduce_by_search (add_kb (Some 1))
              (mk_args [PInt 0; PInt 0] (PInt 2) PNone 2 0) Cache.__init__).2
           [] (add_kb (Some 1)) (mk_args [PInt 0; PInt 0] (PInt 1) PNone 2 0)).
  - vm_compute. reflexivity.
  - vm_compute. reflexivity.
  - vm_compute. eauto.
  - reflexivity.
Defined.
